(** * myviz: the election-map pipeline of [myviz/bokeh_maps.py]

    A shallow embedding of [styled_election_map]: the pandas data
    preparation (year filter, group-by sum, pivot, left merge with the
    geometry, percentages, sanitisation) and the Bokeh view it builds,
    together with the JavaScript callback attached to the candidate
    selector.

    Inputs.  The two files are taken as loaded.  The shapefile is a list
    of (name, geometry) rows, of which only these two columns are
    modelled, with or without a coordinate reference system.  The CSV is
    a list of rows with its four columns; [moughataa] and [candidate]
    are columns of text, where a cell can be missing ([csv_row]), and
    [year] and [nb_votes] are columns of 64-bit integers.  The
    aggregation leaves out the rows without a region or a candidate, and
    nothing else reads them: the pipeline is modelled on the rows that
    have both ([election_row], [dropna_rows]).  A column of candidates
    that pandas would load as numbers is outside the model.

    Numbers.  The group sums are 64-bit integers and wrap around
    ([wrap64]).  From the pivot on the columns are float64; a float64 is
    modelled by [num]: a finite value, carried as the rational it
    denotes, or one of [inf], [-inf] and [NaN] (pandas also uses [NaN]
    for a missing value).  Every operation on finite values rounds its
    exact result to the nearest float ([b64]: 53 bits, ties to even), as
    IEEE 754 prescribes; the exponent is not bounded, since nothing
    computed from 64-bit counts overflows or underflows, and the sign of
    a zero is not modelled.  When the pivot has no missing value pandas
    keeps the integers until line 74 and adds them up as integers; the
    model converts them at the pivot, and the two agree while the sums
    are below [2^53] in absolute value, which is what the theorems about
    vote totals assume ([counts_in_range]).  Sums of floats are taken
    from left to right.

    Frames.  A DataFrame is modelled row by row: a list of rows, each an
    ordered dictionary from column name to value.  A column operation
    such as [df[a] / df[b]] is the map of the element operation over the
    rows.

    Column names.  Candidates become column names, next to the columns
    [moughataa], [geometry] and [total_votes] and to the percentage
    columns that the code adds.  A candidate named [moughataa],
    [geometry] or [total_votes] makes the preparation raise, at lines
    39, 57 and 65; an assignment to a column that exists overwrites it,
    so that a candidate named like the percentage column of another one
    loses its counts.

    The panel.  The HTML of the summary panel is modelled by the four
    values its template interpolates, and a formatted number by the
    number printed.  The text of the callback is built by Python, which
    pastes the name of the leader between the backquotes of a JavaScript
    template literal: the name is source code there
    ([template_literal]). *)

From Stdlib Require Import ZArith QArith Qround Qabs Qpower Qreduction.
From Stdlib Require Import List String Ascii Bool.
From Stdlib Require Import Lia Lqa Permutation OrdersEx RelationClasses Sorted.
Import ListNotations.

Local Open Scope string_scope.
Local Open Scope Q_scope.

(** ** 64-bit integers *)

(** The value that a 64-bit signed integer keeps of [z]. *)
Definition wrap64 (z : Z) : Z := ((z + 2 ^ 63) mod 2 ^ 64 - 2 ^ 63)%Z.

(** ** Float64 values *)

Inductive num : Type :=
| Fin (q : Q)
| PInf
| NInf
| NaN.

(** Round to the nearest integer, ties to the even one ([numpy.rint]). *)
Definition rint (x : Q) : Z :=
  let f := Qfloor x in
  match ((x - inject_Z f) ?= (1 # 2))%Q with
  | Lt => f
  | Gt => (f + 1)%Z
  | Eq => if Z.even f then f else (f + 1)%Z
  end.

(** The binade of a number other than 0: the [l] with
    [2^l <= |x| < 2^(l+1)].  The difference of the binary logarithms of
    the numerator and of the denominator is [l] or [l + 1]. *)
Definition binade (x : Q) : Z :=
  let l := (Z.log2 (Z.abs (Qnum x)) - Z.log2 (Zpos (Qden x)))%Z in
  if Qle_bool (2 ^ l) (Qabs x) then l else (l - 1)%Z.

(** The float64 nearest to [x]: [x] rounded to a multiple of the unit in
    the last place of its binade, ties to the even multiple. *)
Definition b64 (x : Q) : Q :=
  if Qeq_bool x 0 then 0
  else
    let ulp := 2 ^ (binade x - 52) in
    Qred (inject_Z (rint (x / ulp)) * ulp).

(** A 64-bit integer as a float. *)
Definition of_int (z : Z) : num := Fin (b64 (inject_Z z)).

Definition is_nan (x : num) : bool :=
  match x with NaN => true | _ => false end.

Definition is_finite (x : num) : Prop :=
  match x with Fin _ => True | _ => False end.

(** [x + y] *)
Definition num_add (x y : num) : num :=
  match x, y with
  | NaN, _ | _, NaN => NaN
  | PInf, NInf | NInf, PInf => NaN
  | PInf, _ | _, PInf => PInf
  | NInf, _ | _, NInf => NInf
  | Fin a, Fin b => Fin (b64 (a + b))
  end.

(** Sign of a finite value, used by the non-finite cases of [*] and [/]. *)
Definition Qsign (a : Q) : comparison := a ?= 0.

Definition signed_inf (s : comparison) : num :=
  match s with Gt => PInf | Lt => NInf | Eq => NaN end.

Definition flip (s : comparison) : comparison := CompOpp s.

(** [x * y] *)
Definition num_mul (x y : num) : num :=
  match x, y with
  | NaN, _ | _, NaN => NaN
  | Fin a, Fin b => Fin (b64 (a * b))
  | PInf, Fin b | Fin b, PInf => signed_inf (Qsign b)
  | NInf, Fin b | Fin b, NInf => signed_inf (flip (Qsign b))
  | PInf, PInf | NInf, NInf => PInf
  | PInf, NInf | NInf, PInf => NInf
  end.

(** [x / y]: a finite value divided by zero is [inf], [-inf] or [NaN]
    according to the sign of the numerator, as numpy computes it. *)
Definition num_div (x y : num) : num :=
  match x, y with
  | NaN, _ | _, NaN => NaN
  | Fin a, Fin b =>
      if Qeq_bool b 0 then signed_inf (Qsign a) else Fin (b64 (a / b))
  | Fin _, PInf | Fin _, NInf => Fin 0
  | PInf, Fin b => if Qle_bool 0 b then PInf else NInf
  | NInf, Fin b => if Qle_bool 0 b then NInf else PInf
  | PInf, PInf | PInf, NInf | NInf, PInf | NInf, NInf => NaN
  end.

(** [x > y] as Python and JavaScript evaluate it: false when either
    side is [NaN]. *)
Definition num_gtb (x y : num) : bool :=
  match x, y with
  | NaN, _ | _, NaN => false
  | Fin a, Fin b => negb (Qle_bool a b)
  | PInf, PInf => false
  | PInf, _ => true
  | _, PInf => false
  | NInf, _ => false
  | Fin _, NInf => true
  end.

(** [Series.round(2)].  numpy multiplies by 100, rounds to an integer
    with [rint] and divides by 100, each time in float64. *)
Definition round2 (x : num) : num :=
  match x with
  | Fin q => Fin (b64 (inject_Z (rint (b64 (q * 100))) / 100))
  | other => other
  end.

(** Round to the nearest integer, ties away from zero (the rule of
    [Number.prototype.toFixed], which rounds the magnitude and picks the
    larger candidate on a tie). *)
Definition round_half_away (x : Q) : Z :=
  let m := Qabs x in
  let f := Qfloor m in
  let n := match ((m - inject_Z f) ?= (1 # 2))%Q with
           | Lt => f
           | _ => (f + 1)%Z
           end in
  if Qle_bool 0 x then n else (- n)%Z.

(** A float printed with a fixed number of decimals, as the number
    printed: the decimal with denominator [p = 10^d] that the rule [r]
    picks for the exact value of the float; the non-finite values are
    kept. *)
Definition round_with (r : Q -> Z) (p : Z) (x : num) : num :=
  match x with
  | Fin q => Fin (inject_Z (r (q * inject_Z p)) / inject_Z p)
  | other => other
  end.

(** Python's [f"{x:.1f}"] and [f"{x:,.0f}"] (the thousands separators
    are not modelled). *)
Definition format_1f : num -> num := round_with rint 10.
Definition format_0f : num -> num := round_with rint 1.

(** JavaScript's [x.toFixed(1)]. *)
Definition toFixed1 : num -> num := round_with round_half_away 10.

(** pandas [sum]: missing values are skipped ([skipna=True]) and the sum
    of nothing is [0]. *)
Definition sum_skipna (l : list num) : num :=
  fold_left num_add (filter (fun x => negb (is_nan x)) l) (Fin 0).

(** pandas [max]: missing values are skipped; [NaN] when nothing is left. *)
Definition max_skipna (l : list num) : num :=
  match filter (fun x => negb (is_nan x)) l with
  | [] => NaN
  | x :: t => fold_left (fun m y => if num_gtb y m then y else m) t x
  end.

(** Python's builtin [sum], starting from the integer [0]. *)
Definition py_sum (l : list num) : num := fold_left num_add l (Fin 0).

(** [replace([inf, -inf], 0)] followed by [fillna(0)] on one value. *)
Definition replace_inf (x : num) : num :=
  match x with PInf | NInf => Fin 0 | other => other end.

Definition fillna0 (x : num) : num :=
  match x with NaN => Fin 0 | other => other end.

(** ** Exceptions *)

Inductive error : Type :=
| ValueError (msg : string)
| IndexError (msg : string)
| TypeError (msg : string)
| AttributeError (msg : string).

Definition result (A : Type) : Type := (error + A)%type.

Definition ok {A : Type} (a : A) : result A := inr a.
Definition raise {A : Type} (e : error) : result A := inl e.

Definition bind {A B : Type} (m : result A) (k : A -> result B) : result B :=
  match m with
  | inl e => inl e
  | inr a => k a
  end.

Notation "x <- m ;; k" := (bind m (fun x => k))
  (at level 61, m at next level, right associativity).

(** ** Rows: ordered dictionaries from column name to value *)

Definition dict : Type := list (string * num).

Fixpoint dict_get (k : string) (d : dict) : option num :=
  match d with
  | [] => None
  | (k', v) :: rest => if (k' =? k)%string then Some v else dict_get k rest
  end.

(** The value of column [k] in a row.  Every lookup of the pipeline hits
    a column that exists; on the JavaScript side Bokeh fills a property
    absent from a feature with [NaN]. *)
Definition get (k : string) (d : dict) : num :=
  match dict_get k d with
  | Some v => v
  | None => NaN
  end.

(** [d[k] = v]: overwrite in place when the column exists, append it
    otherwise. *)
Fixpoint dict_set (k : string) (v : num) (d : dict) : dict :=
  match d with
  | [] => [(k, v)]
  | (k', v') :: rest =>
      if (k' =? k)%string then (k', v) :: rest
      else (k', v') :: dict_set k v rest
  end.

Definition has_key (k : string) (d : dict) : bool :=
  existsb (fun kv => (fst kv =? k)%string) d.

(** ** The results source *)

(** A row of the CSV as [read_csv] loads it: a cell of a text column is
    missing when it is empty or holds one of the markers of a missing
    value. *)
Record csv_row : Type := {
  csv_year : Z;
  csv_moughataa : option string;
  csv_candidate : option string;
  csv_nb_votes : Z
}.

(** A row with its region and its candidate. *)
Record election_row : Type := {
  year : Z;
  moughataa : string;
  candidate : string;
  nb_votes : Z
}.

(** The rows that the aggregation keeps: [groupby] drops a row whose
    region or candidate is missing ([dropna=True]). *)
Definition dropna_rows (df : list csv_row) : list election_row :=
  flat_map
    (fun r =>
       match csv_moughataa r, csv_candidate r with
       | Some m, Some c =>
           [ {| year := csv_year r; moughataa := m; candidate := c;
                nb_votes := csv_nb_votes r |} ]
       | _, _ => []
       end)
    df.

(** A frame with a [moughataa] column and numeric columns. *)
Definition frame : Type := list (string * dict).

(** The numeric column labels of a frame (all rows carry the same ones). *)
Definition frame_columns (df : frame) : list string :=
  match df with
  | [] => []
  | (_, d) :: _ => map fst d
  end.

Definition column (c : string) (df : frame) : list num :=
  map (fun r => get c (snd r)) df.

(** *** [groupby(["moughataa", "candidate"], as_index=False)["nb_votes"].sum()]

    One row per distinct (moughataa, candidate) pair, in increasing
    order of the pair (pandas sorts the group keys), carrying the sum of
    the group, a 64-bit integer.  Strings compare by code point, which
    is the byte order of their UTF-8 encoding. *)

Definition group_key : Type := (string * string)%type.

Definition key_compare (a b : group_key) : comparison :=
  match String_as_OT.compare (fst a) (fst b) with
  | Eq => String_as_OT.compare (snd a) (snd b)
  | c => c
  end.

Fixpoint add_to_group (k : group_key) (v : Z) (groups : list (group_key * Z))
  : list (group_key * Z) :=
  match groups with
  | [] => [(k, v)]
  | (k', s) :: rest =>
      match key_compare k k' with
      | Lt => (k, v) :: groups
      | Eq => (k', wrap64 (s + v)) :: rest
      | Gt => (k', s) :: add_to_group k v rest
      end
  end.

Definition groupby_sum (rows : list election_row) : list (group_key * Z) :=
  fold_left
    (fun groups r => add_to_group (moughataa r, candidate r) (nb_votes r) groups)
    rows [].

(** *** [pivot(index="moughataa", columns="candidate", values="nb_votes")]

    The index and the columns are the sorted distinct labels; a
    combination with no row is a missing value. *)

Fixpoint insert_label (s : string) (l : list string) : list string :=
  match l with
  | [] => [s]
  | s' :: rest =>
      match String_as_OT.compare s s' with
      | Lt => s :: l
      | Eq => l
      | Gt => s' :: insert_label s rest
      end
  end.

Definition sorted_labels (l : list string) : list string :=
  fold_left (fun acc s => insert_label s acc) l [].

Fixpoint group_lookup (m c : string) (groups : list (group_key * Z)) : option Z :=
  match groups with
  | [] => None
  | ((m', c'), v) :: rest =>
      if ((m' =? m) && (c' =? c))%string then Some v
      else group_lookup m c rest
  end.

Definition pivot (groups : list (group_key * Z)) : frame :=
  let index := sorted_labels (map (fun g => fst (fst g)) groups) in
  let columns := sorted_labels (map (fun g => snd (fst g)) groups) in
  map (fun m =>
         (m, map (fun c => (c, match group_lookup m c groups with
                               | Some v => of_int v
                               | None => NaN
                               end)) columns))
      index.

(** [df.fillna(0)] *)
Definition frame_fillna (df : frame) : frame :=
  map (fun r => (fst r, map (fun kv => (fst kv, fillna0 (snd kv))) (snd r))) df.

(** [df.reset_index()]: the index becomes the column [moughataa]; pandas
    refuses to insert it when a column of that name already exists. *)
Definition reset_index (df : frame) : result frame :=
  if existsb (fun c => (c =? "moughataa")%string) (frame_columns df)
  then raise (ValueError "cannot insert moughataa, already exists")
  else ok df.

(** [df.columns] after [reset_index]. *)
Definition df_columns (df : frame) : list string :=
  "moughataa" :: frame_columns df.

(** [df[name] = values], one value per row. *)
Definition assign (name : string) (f : dict -> num) (df : frame) : frame :=
  map (fun r => (fst r, dict_set name (f (snd r)) (snd r))) df.

(** [df[cols].sum(axis=1)] on one row. *)
Definition row_sum (cols : list string) (d : dict) : num :=
  sum_skipna (map (fun c => get c d) cols).

(** [max(d, key=d.get)]: the first key whose value no later key beats;
    [ValueError] on an empty dictionary. *)
Fixpoint max_from (key : string -> num) (best : string) (l : list string)
  : string :=
  match l with
  | [] => best
  | x :: rest =>
      if num_gtb (key x) (key best) then max_from key x rest
      else max_from key best rest
  end.

Definition py_max_key (d : dict) : result string :=
  match map fst d with
  | [] => raise (ValueError "max() arg is an empty sequence")
  | k :: rest => ok (max_from (fun c => get c d) k rest)
  end.

(** ** Template literals

    The characters between the backquotes of a template literal are
    source code: a backquote ends the literal, a backslash starts an
    escape sequence, [${] starts a substitution whose expression is
    evaluated, and a carriage return, alone or before a line feed, reads
    as a line feed. *)

Definition backquote : ascii := "`"%char.
Definition backslash : ascii := "\"%char.
Definition dollar : ascii := "$"%char.
Definition brace_open : ascii := "{"%char.
Definition brace_close : ascii := "}"%char.
Definition carriage_return : ascii := "013"%char.
Definition line_feed : ascii := "010"%char.

(** The string that the literal with the characters [s] evaluates to.
    [hole] is [Some e] inside a substitution, after the characters [e]
    of its expression.  Of the expressions only the names that [scope]
    knows are evaluated; the result is [None] for a text that the model
    does not evaluate: one with another expression, with an escape
    sequence, or with a backquote, after which the text of the callback
    is another program. *)
Fixpoint template_literal (scope : string -> option string) (s : string)
  (hole : option string) : option string :=
  match s, hole with
  | EmptyString, None => Some EmptyString
  | EmptyString, Some _ => None
  | String a rest, Some e =>
      if (a =? brace_close)%char then
        match scope e, template_literal scope rest None with
        | Some value, Some text => Some (value ++ text)
        | _, _ => None
        end
      else template_literal scope rest (Some (e ++ String a EmptyString))
  | String a rest, None =>
      if (a =? backquote)%char || (a =? backslash)%char then None
      else if (a =? carriage_return)%char then
        match rest with
        | String b rest' =>
            if (b =? line_feed)%char
            then option_map (String line_feed)
                   (template_literal scope rest' None)
            else option_map (String line_feed)
                   (template_literal scope rest None)
        | EmptyString => Some (String line_feed EmptyString)
        end
      else if (a =? dollar)%char then
        match rest with
        | String b rest' =>
            if (b =? brace_open)%char
            then template_literal scope rest' (Some EmptyString)
            else option_map (String a) (template_literal scope rest None)
        | EmptyString => Some (String a EmptyString)
        end
      else option_map (String a) (template_literal scope rest None)
  end.

(** A text without any of these: the literal evaluates to the text
    itself. *)
Fixpoint plain_text (s : string) : bool :=
  match s with
  | EmptyString => true
  | String a rest =>
      negb ((a =? backquote)%char || (a =? backslash)%char
            || (a =? carriage_return)%char || (a =? dollar)%char)
      && plain_text rest
  end.

(** ** The election map *)

Section ElectionMap.

(** Polygons are opaque.  [to_crs] is what [to_crs(epsg=3857)] does to
    the polygons of the frame read from the shapefile: a reprojection of
    each polygon when the frame has a coordinate reference system, and
    [None] when it has none.  [toLocaleString] is the way the locale of
    the browser prints a number, as the number printed. *)
Variable geometry : Type.
Variable to_crs : option (geometry -> geometry).
Variable toLocaleString : num -> num.

(** A row of a GeoDataFrame, and later a feature of the GeoJSON source. *)
Record feature : Type := {
  feat_moughataa : string;
  feat_geometry : geometry;
  feat_props : dict
}.

Definition geoframe : Type := list feature.

Definition geo_column (c : string) (gdf : geoframe) : list num :=
  map (fun f => get c (feat_props f)) gdf.

Definition map_props (f : dict -> dict) (gdf : geoframe) : geoframe :=
  map (fun r => {| feat_moughataa := feat_moughataa r;
                   feat_geometry := feat_geometry r;
                   feat_props := f (feat_props r) |}) gdf.

(** [gdf.merge(df, on="moughataa", how="left")]: one row per row of
    [gdf], in the order of [gdf]; the columns of [df] come from its row
    of the same name ([df] has one row per name) and are missing when
    there is none. *)
Definition merge_left (gdf : list (string * geometry)) (df : frame)
  : geoframe :=
  map (fun g =>
         {| feat_moughataa := fst g;
            feat_geometry := snd g;
            feat_props :=
              match find (fun r => (fst r =? fst g)%string) df with
              | Some r => snd r
              | None => map (fun c => (c, NaN)) (frame_columns df)
              end |}) gdf.

(** [gdf_merged.to_crs(epsg=3857)].  The merge renames a column that
    both frames have: with a candidate named [geometry] the merged frame
    has the columns [geometry_x] and [geometry_y] and no geometry, and
    is a plain DataFrame, which has no [to_crs].  A frame without
    coordinate reference system cannot be reprojected. *)
Definition gdf_to_crs (candidats : list string) (gdf : geoframe)
  : result geoframe :=
  if existsb (fun c => (c =? "geometry")%string) candidats
  then raise (AttributeError "'DataFrame' object has no attribute 'to_crs'")
  else
    match to_crs with
    | None =>
        raise (ValueError "Cannot transform naive geometries.  Please set a crs on the object first.")
    | Some reproject =>
        ok (map (fun r => {| feat_moughataa := feat_moughataa r;
                             feat_geometry := reproject (feat_geometry r);
                             feat_props := feat_props r |}) gdf)
    end.

(** [gdf[['geometry', 'moughataa'] + cols]] *)
Definition select_columns (cols : list string) : geoframe -> geoframe :=
  map_props (fun d => map (fun c => (c, get c d)) cols).

(** [gdf[f'{c}_pct'] = (gdf[c] / gdf['total_votes'] * 100).round(2)] *)
Definition add_pct (c : string) : geoframe -> geoframe :=
  map_props (fun d =>
    dict_set (c ++ "_pct")
      (round2 (num_mul (num_div (get c d) (get "total_votes" d)) (Fin 100)))
      d).

(** The loop of lines 64-65.  With a candidate named [total_votes] the
    selection of line 61 names that column twice: [gdf['total_votes']]
    is then a frame of two columns, so is the quotient, and the first
    assignment of the loop raises. *)
Definition add_percentages (candidats : list string) (gdf : geoframe)
  : result geoframe :=
  if existsb (fun c => (c =? "total_votes")%string) candidats
  then
    raise (ValueError
             ("Cannot set a DataFrame with multiple columns to the single column "
              ++ hd "" candidats ++ "_pct"))
  else ok (fold_left (fun g c => add_pct c g) candidats gdf).

(** [gdf.replace([np.inf, -np.inf], 0).fillna(0)] *)
Definition sanitize : geoframe -> geoframe :=
  map_props (map (fun kv => (fst kv, fillna0 (replace_inf (snd kv))))).

Record prepared : Type := {
  candidats : list string;
  totaux_nationaux : dict;
  gagnant_national : string;
  gdf_clean : geoframe
}.

(** Lines 28-78 of [styled_election_map].  [gdf_moughataas] is the
    shapefile after the rename of [ADM2_EN] to [moughataa]. *)
Definition data_preparation
  (gdf_moughataas : list (string * geometry))
  (df_elections : list election_row) : result prepared :=
  let df_elections_2024 :=
    filter (fun r => (year r =? 2024)%Z) df_elections in
  let df_agg_2024 := groupby_sum df_elections_2024 in
  df_pivot <- reset_index (frame_fillna (pivot df_agg_2024)) ;;
  let candidats :=
    filter (fun col => negb (col =? "moughataa")%string)
           (df_columns df_pivot) in
  let df_pivot := assign "total_votes" (row_sum candidats) df_pivot in
  let totaux_nationaux :=
    map (fun c => (c, sum_skipna (column c df_pivot))) candidats in
  gagnant_national <- py_max_key totaux_nationaux ;;
  let gdf_merged := merge_left gdf_moughataas df_pivot in
  gdf_merged <- gdf_to_crs candidats gdf_merged ;;
  let colonnes_necessaires := (candidats ++ ["total_votes"])%list in
  let gdf_clean := select_columns colonnes_necessaires gdf_merged in
  gdf_clean <- add_percentages candidats gdf_clean ;;
  let gdf_clean := sanitize gdf_clean in
  (* astype(float): every numeric column already holds floats *)
  ok {| candidats := candidats;
        totaux_nationaux := totaux_nationaux;
        gagnant_national := gagnant_national;
        gdf_clean := gdf_clean |}.

(** *** The view: the Bokeh models the callback can touch *)

(** The summary panel [info_div], by the four values its template
    interpolates. *)
Record info_panel : Type := {
  info_candidat : string;
  info_total : num;
  info_part : num;
  info_leader : string
}.

Record view : Type := {
  source : geoframe;               (* geosource.data *)
  select_value : string;           (* select.value *)
  select_options : list string;    (* select.options *)
  color_mapper_low : num;
  color_mapper_high : num;
  fill_color_field : string;       (* patches.glyph.fill_color.field *)
  title_text : string;             (* p.title.text *)
  hover_tooltips : list (string * string);
  info_div : info_panel
}.

Definition title_of (candidate : string) : string :=
  "Résultats de " ++ candidate ++ " - Élections 2024".

Definition tooltips_of (candidate : string) : list (string * string) :=
  [ ("Moughataa", "@moughataa");
    ("Voix", "@{" ++ candidate ++ "}{0,0}");
    ("Part", "@{" ++ (candidate ++ "_pct") ++ "}{0.0}%") ].

(** What [styled_election_map] returns: the models in their initial
    state, and the two values that Python pastes into the text of the
    callback. *)
Record layout : Type := {
  initial : view;
  callback_total_national : num;   (* str(sum(totaux_nationaux.values())) *)
  callback_gagnant_national : string
}.

(** Lines 80-312: the initial render. *)
Definition render (p : prepared) : result layout :=
  match candidats p with
  | [] => raise (IndexError "list index out of range")
  | candidat_initial :: _ =>
      let max_votes_initial :=
        max_skipna (geo_column candidat_initial (gdf_clean p)) in
      let total_national := py_sum (map snd (totaux_nationaux p)) in
      let stats_candidat := get candidat_initial (totaux_nationaux p) in
      let stats_pct :=
        num_mul (num_div stats_candidat total_national) (Fin 100) in
      ok {| initial :=
              {| source := gdf_clean p;
                 select_value := candidat_initial;
                 select_options := candidats p;
                 color_mapper_low := Fin 0;
                 color_mapper_high := max_votes_initial;
                 fill_color_field := candidat_initial;
                 title_text := title_of candidat_initial;
                 hover_tooltips := tooltips_of candidat_initial;
                 info_div :=
                   {| info_candidat := candidat_initial;
                      info_total := format_0f stats_candidat;
                      info_part := format_1f stats_pct;
                      info_leader := gagnant_national p |} |};
            callback_total_national := total_national;
            callback_gagnant_national := gagnant_national p |}
  end.

Definition styled_election_map
  (gdf_moughataas : list (string * geometry))
  (df_elections : list election_row) : result layout :=
  p <- data_preparation gdf_moughataas df_elections ;;
  render p.

(** *** The callback of the selector ([callback_code]) *)

(** [source.data[c]]: the GeoJSON source has a column for each property
    that occurs in some feature, and none ([undefined]) otherwise. *)
Definition source_data (c : string) (src : geoframe) : option (list num) :=
  if existsb (fun f => has_key c (feat_props f)) src
  then Some (geo_column c src)
  else None.

(** The [for] loop: running maximum from [0] and running sum. *)
Definition scan_column (col : list num) : num * num :=
  fold_left
    (fun acc x =>
       (if num_gtb x (fst acc) then x else fst acc, num_add (snd acc) x))
    col (Fin 0, Fin 0).

(** The variables of the callback that hold a string, which an
    expression pasted into the template literal can name. *)
Definition js_scope (candidate : string) (name : string) : option string :=
  if (name =? "candidate")%string then Some candidate
  else if (name =? "pct_field")%string then Some (candidate ++ "_pct")
  else None.

(** One run of the callback: [None] when the name of the leader makes
    the text of the callback a program that the model does not evaluate;
    otherwise the exception that the run throws or the state it
    leaves. *)
Definition callback (lay : layout) (v : view) : option (result view) :=
  let candidate := select_value v in
  match template_literal (js_scope candidate)
          (callback_gagnant_national lay) None with
  | None => None
  | Some leader =>
      Some
        match source_data candidate (source v) with
        | None => raise (TypeError "data[candidate] is undefined")
        | Some col =>
            let (max_val, total_votes) := scan_column col in
            let total_national := callback_total_national lay in
            let pct_national :=
              toFixed1
                (num_mul (num_div total_votes total_national) (Fin 100)) in
            ok {| source := source v;
                  select_value := select_value v;
                  select_options := select_options v;
                  color_mapper_low := color_mapper_low v;
                  color_mapper_high := max_val;
                  fill_color_field := candidate;
                  title_text := title_of candidate;
                  hover_tooltips := tooltips_of candidate;
                  info_div :=
                    {| info_candidat := candidate;
                       info_total := toLocaleString total_votes;
                       info_part := pct_national;
                       info_leader := leader |} |}
        end
  end.

(** The user picks [c] in the selector: [select.value] changes and the
    callback runs; an exception in the callback leaves the other models
    as they were. *)
Definition set_select_value (c : string) (v : view) : view :=
  {| source := source v;
     select_value := c;
     select_options := select_options v;
     color_mapper_low := color_mapper_low v;
     color_mapper_high := color_mapper_high v;
     fill_color_field := fill_color_field v;
     title_text := title_text v;
     hover_tooltips := hover_tooltips v;
     info_div := info_div v |}.

Definition select_change (lay : layout) (c : string) (v : view)
  : option view :=
  match callback lay (set_select_value c v) with
  | Some (inr v') => Some v'
  | Some (inl _) => Some (set_select_value c v)
  | None => None
  end.

(** The states of the interactive stage: the initial render, then any
    sequence of choices among the options of the selector. *)
Inductive reachable (lay : layout) : view -> Prop :=
| reach_initial : reachable lay (initial lay)
| reach_select (v v' : view) (c : string) :
    reachable lay v ->
    In c (select_options v) ->
    select_change lay c v = Some v' ->
    reachable lay v'.

Fixpoint run_selections (lay : layout) (cs : list string) (v : view)
  : option view :=
  match cs with
  | [] => Some v
  | c :: rest =>
      match select_change lay c v with
      | Some v' => run_selections lay rest v'
      | None => None
      end
  end.

End ElectionMap.

Arguments feat_moughataa {geometry} _.
Arguments feat_geometry {geometry} _.
Arguments feat_props {geometry} _.
Arguments geo_column {geometry} c gdf.
Arguments map_props {geometry} f gdf.
Arguments merge_left {geometry} gdf df.
Arguments gdf_to_crs {geometry} to_crs candidats gdf.
Arguments select_columns {geometry} cols _.
Arguments add_pct {geometry} c _.
Arguments add_percentages {geometry} candidats gdf.
Arguments sanitize {geometry} _.
Arguments candidats {geometry} _.
Arguments totaux_nationaux {geometry} _.
Arguments gagnant_national {geometry} _.
Arguments gdf_clean {geometry} _.
Arguments data_preparation {geometry} to_crs gdf_moughataas df_elections.
Arguments source {geometry} _.
Arguments select_value {geometry} _.
Arguments select_options {geometry} _.
Arguments color_mapper_low {geometry} _.
Arguments color_mapper_high {geometry} _.
Arguments fill_color_field {geometry} _.
Arguments title_text {geometry} _.
Arguments hover_tooltips {geometry} _.
Arguments info_div {geometry} _.
Arguments initial {geometry} _.
Arguments callback_total_national {geometry} _.
Arguments callback_gagnant_national {geometry} _.
Arguments render {geometry} p.
Arguments styled_election_map {geometry} to_crs gdf_moughataas df_elections.
Arguments source_data {geometry} c src.
Arguments callback {geometry} toLocaleString lay v.
Arguments set_select_value {geometry} c v.
Arguments select_change {geometry} toLocaleString lay c v.
Arguments reachable {geometry} toLocaleString lay _.
Arguments run_selections {geometry} toLocaleString lay cs v.

(** ** Vocabulary of the specification *)

(** Equality and order of floats, on finite values. *)
Definition num_eq (x y : num) : Prop :=
  match x, y with
  | Fin a, Fin b => a == b
  | PInf, PInf | NInf, NInf | NaN, NaN => True
  | _, _ => False
  end.

Definition num_le (x y : num) : Prop :=
  match x, y with
  | Fin a, Fin b => a <= b
  | _, _ => False
  end.

Definition num_lt (x y : num) : Prop :=
  match x, y with
  | Fin a, Fin b => a < b
  | _, _ => False
  end.

(** [m] is the maximum of the column [col]. *)
Definition is_max_of (col : list num) (m : num) : Prop :=
  (exists x, In x col /\ num_eq x m) /\ forall y, In y col -> num_le y m.

(** [y] is [x] rounded to [d] decimals: a multiple of [10^-d] at
    distance at most half a unit from [x] (the specification does not fix
    the rule for ties); a value that is not finite rounds to itself. *)
Definition rounded_to (d : nat) (x y : num) : Prop :=
  match x, y with
  | Fin a, Fin b =>
      (exists k : Z, b == inject_Z k / inject_Z (10 ^ Z.of_nat d)) /\
      Qabs (b - a) <= 1 / (2 * inject_Z (10 ^ Z.of_nat d))
  | _, _ => x = y
  end.

(** The rows of the results source for the year of the map. *)
Definition rows_2024 (df_elections : list election_row) : list election_row :=
  filter (fun r => (year r =? 2024)%Z) df_elections.

(** The pivoted results, with the total of each row: [df_pivot] at line 45. *)
Definition pivot_table (df_elections : list election_row) : frame :=
  let df := frame_fillna (pivot (groupby_sum (rows_2024 df_elections))) in
  assign "total_votes" (row_sum (frame_columns df)) df.

(** No candidate collides with the columns the pipeline adds. *)
Definition plain_names (cands : list string) : Prop :=
  ~ In "total_votes" cands /\
  forall c c', In c cands -> In c' cands -> c' <> c ++ "_pct".

(** ** The pipeline, one row at a time

    The column operations of lines 54-69 act on each row independently;
    these definitions are the same operations on one row, and
    [data_preparation_inv] shows that the prepared table is made of them. *)

Definition pct_value (c : string) (d : dict) : num :=
  round2 (num_mul (num_div (get c d) (get "total_votes" d)) (Fin 100)).

Definition row_add_pct (c : string) (d : dict) : dict :=
  dict_set (c ++ "_pct") (pct_value c d) d.

Definition row_pcts (cands : list string) (d : dict) : dict :=
  fold_left (fun d c => row_add_pct c d) cands d.

Definition row_select (cols : list string) (d : dict) : dict :=
  map (fun c => (c, get c d)) cols.

Definition row_sanitize (d : dict) : dict :=
  map (fun kv => (fst kv, fillna0 (replace_inf (snd kv)))) d.

(** The columns a row of [gdf] receives from the left merge. *)
Definition merged_props (df : frame) (m : string) : dict :=
  match find (fun r => (fst r =? m)%string) df with
  | Some r => snd r
  | None => map (fun c => (c, NaN)) (frame_columns df)
  end.

Definition clean_props (cands : list string) (d : dict) : dict :=
  row_sanitize
    (row_pcts cands (row_select (cands ++ ["total_votes"])%list d)).

(** The pivot table, by its index, its columns and its rows. *)

Definition groups_2024 (rows : list election_row) : list (group_key * Z) :=
  groupby_sum (rows_2024 rows).

Definition pivot_index (rows : list election_row) : list string :=
  sorted_labels (map (fun g => fst (fst g)) (groups_2024 rows)).

Definition pivot_columns (rows : list election_row) : list string :=
  sorted_labels (map (fun g => snd (fst g)) (groups_2024 rows)).

Definition pivot_cells (rows : list election_row) (m : string) : dict :=
  map (fun c => (c, fillna0 (match group_lookup m c (groups_2024 rows) with
                             | Some v => of_int v
                             | None => NaN
                             end)))
      (pivot_columns rows).

Definition pivot_row (rows : list election_row) (m : string) : dict :=
  dict_set "total_votes"
    (row_sum (pivot_columns rows) (pivot_cells rows m))
    (pivot_cells rows m).

(** The running maximum of the loop of the callback. *)
Definition running_max (m x : num) : num := if num_gtb x m then x else m.

(** ** Votes of the results source *)

(** Sum of integer counts. *)
Definition Zsum (l : list Z) : Z := fold_right Z.add 0%Z l.

(** The sum of [w] over the rows selected by [P]. *)
Definition weight_where (w : election_row -> Z) (P : election_row -> bool)
  (rows : list election_row) : Z :=
  Zsum (map w (filter P rows)).

(** The votes of the rows selected by [P]. *)
Definition votes_where (P : election_row -> bool) (rows : list election_row) : Z :=
  weight_where nb_votes P rows.

(** The votes recorded for candidate [c] in region [m]. *)
Definition votes_of (rows : list election_row) (m c : string) : Z :=
  votes_where (fun r => (moughataa r =? m)%string && (candidate r =? c)%string)
              rows.

(** The size of the counts of the rows selected by [P]. *)
Definition size_where (P : election_row -> bool) (rows : list election_row) : Z :=
  weight_where (fun r => Z.abs (nb_votes r)) P rows.

(** The counts of the year are small enough for every sum of them to be
    a float64 and a 64-bit integer: their absolute values add up to less
    than [2^53]. *)
Definition counts_in_range (rows : list election_row) : Prop :=
  (size_where (fun _ => true) (rows_2024 rows) < 2 ^ 53)%Z.

(** No count of the year is negative. *)
Definition counts_nonneg (rows : list election_row) : Prop :=
  forall r, In r (rows_2024 rows) -> (0 <= nb_votes r)%Z.

(** The sum of a group, 0 when there is no such group. *)
Definition lookup0 (m c : string) (groups : list (group_key * Z)) : Z :=
  match group_lookup m c groups with
  | Some s => s
  | None => 0%Z
  end.

(** ** Predicates on values, rows and labels *)

(** The value of a float in a sum that skips what is not finite. *)
Definition qvalue (x : num) : Q :=
  match x with Fin q => q | _ => 0 end.

Fixpoint Qsum (l : list Q) : Q :=
  match l with
  | [] => 0
  | q :: rest => q + Qsum rest
  end.

(** The sum of the numbers that the floats of [l] denote, without any
    rounding. *)
Definition exact_sum (l : list num) : Q := Qsum (map qvalue l).

(** The float [x] is the integer [z]. *)
Definition whole (x : num) (z : Z) : Prop :=
  exists q, x = Fin q /\ q == inject_Z z.

(** Every value of a row satisfies [P]. *)
Definition all_values (P : num -> Prop) (d : dict) : Prop :=
  forall kv, In kv d -> P (snd kv).

(** The order of labels and of group keys. *)
Definition slt (a b : string) : Prop := String_as_OT.compare a b = Lt.

Definition klt (a b : group_key) : Prop := key_compare a b = Lt.

(** What the cells hold before the sanitisation when no count is
    negative: a number that is not negative, [inf] or [NaN]. *)
Definition nonneg (x : num) : Prop :=
  match x with
  | Fin q => 0 <= q
  | NInf => False
  | PInf | NaN => True
  end.

(** What they hold afterwards. *)
Definition count_like (x : num) : Prop :=
  exists q, x = Fin q /\ 0 <= q.

(** The tolerance of a percentage: half a hundredth for the rounding to
    two decimals, and [10^-12] for the five roundings to float64. *)
Definition pct_tolerance : Q := (1 # 200) + (1 # 1000000000000).

(** ** Small elections

    The scenario of the specification: regions A and B, candidates X and
    Y, 70 and 30 votes in A and none in B. *)

Definition vote (y : Z) (m c : string) (v : Z) : election_row :=
  {| year := y; moughataa := m; candidate := c; nb_votes := v |}.

Definition scenario_rows : list election_row :=
  [ vote 2024 "A" "X" 70; vote 2024 "A" "Y" 30;
    vote 2024 "B" "X" 0; vote 2024 "B" "Y" 0 ].

Definition scenario_rows_shuffled : list election_row :=
  [ vote 2024 "A" "Y" 30; vote 2024 "A" "X" 70;
    vote 2024 "B" "X" 0; vote 2024 "B" "Y" 0 ].

(** The same results as a file, with a row that has no region. *)
Definition scenario_csv : list csv_row :=
  [ {| csv_year := 2024; csv_moughataa := Some "A";
       csv_candidate := Some "X"; csv_nb_votes := 70 |};
    {| csv_year := 2024; csv_moughataa := None;
       csv_candidate := Some "X"; csv_nb_votes := 1000 |};
    {| csv_year := 2024; csv_moughataa := Some "A";
       csv_candidate := Some "Y"; csv_nb_votes := 30 |};
    {| csv_year := 2024; csv_moughataa := Some "B";
       csv_candidate := Some "X"; csv_nb_votes := 0 |};
    {| csv_year := 2024; csv_moughataa := Some "B";
       csv_candidate := Some "Y"; csv_nb_votes := 0 |} ].

(** Geometries are numbers here, and the reprojection leaves them. *)
Definition scenario_gdf : list (string * nat) := [("A", 1%nat); ("B", 2%nat)].

Definition no_reprojection : option (nat -> nat) := Some (fun g => g).

(** A locale that prints at most three decimals. *)
Definition three_decimals : num -> num := round_with round_half_away 1000.

Definition no_prepared : prepared nat :=
  {| candidats := []; totaux_nationaux := []; gagnant_national := "";
     gdf_clean := [] |}.

Definition prepared_of (gdf : list (string * nat)) (rows : list election_row)
  : prepared nat :=
  match data_preparation no_reprojection gdf rows with
  | inr p => p
  | inl _ => no_prepared
  end.

Definition scenario_prepared : prepared nat :=
  Eval vm_compute in prepared_of scenario_gdf scenario_rows.

Definition scenario_region_A : feature nat :=
  Eval vm_compute in
    hd {| feat_moughataa := ""; feat_geometry := 0%nat; feat_props := [] |}
       (gdf_clean scenario_prepared).

Definition no_layout : layout nat :=
  {| initial :=
       {| source := []; select_value := ""; select_options := [];
          color_mapper_low := NaN; color_mapper_high := NaN;
          fill_color_field := ""; title_text := ""; hover_tooltips := [];
          info_div := {| info_candidat := ""; info_total := NaN;
                         info_part := NaN; info_leader := "" |} |};
     callback_total_national := NaN;
     callback_gagnant_national := "" |}.

Definition layout_of (p : prepared nat) : layout nat :=
  match render p with
  | inr lay => lay
  | inl _ => no_layout
  end.

Definition scenario_layout : layout nat :=
  Eval vm_compute in layout_of scenario_prepared.

(** The scenario after the choice of Y. *)
Definition scenario_view_Y : view nat :=
  Eval vm_compute in
    match select_change three_decimals scenario_layout "Y"
            (initial scenario_layout) with
    | Some v => v
    | None => initial no_layout
    end.

(** Results of another year only. *)
Definition rows_of_2019 : list election_row := [vote 2019 "A" "X" 5].

(** A candidate named like the index column. *)
Definition rows_with_moughataa : list election_row :=
  [vote 2024 "A" "moughataa" 1; vote 2024 "A" "X" 2].

(** A candidate named like the column of the totals. *)
Definition rows_with_total_votes : list election_row :=
  [vote 2024 "A" "total_votes" 1; vote 2024 "A" "X" 2].

(** Counts of both signs that are large next to their sum. *)
Definition rows_with_offsets : list election_row :=
  [vote 2024 "A" "X" (10 ^ 15); vote 2024 "A" "Y" (1 - 10 ^ 15)].

(** One region where 31 candidates have one vote each. *)
Definition thirty_one : list string :=
  [ "c01"; "c02"; "c03"; "c04"; "c05"; "c06"; "c07"; "c08"; "c09"; "c10";
    "c11"; "c12"; "c13"; "c14"; "c15"; "c16"; "c17"; "c18"; "c19"; "c20";
    "c21"; "c22"; "c23"; "c24"; "c25"; "c26"; "c27"; "c28"; "c29"; "c30";
    "c31" ].

Definition crowded_rows : list election_row :=
  map (fun c => vote 2024 "A" c 1) thirty_one.

Definition crowded_prepared : prepared nat :=
  Eval vm_compute in prepared_of [("A", 1%nat)] crowded_rows.

(** Corrections entered as negative counts. *)
Definition rows_with_corrections : list election_row :=
  [vote 2024 "A" "X" (-4); vote 2024 "B" "X" (-1)].

Definition corrections_prepared : prepared nat :=
  Eval vm_compute in prepared_of scenario_gdf rows_with_corrections.

Definition corrections_layout : layout nat :=
  Eval vm_compute in layout_of corrections_prepared.

(** A leader whose name reads as a substitution of the template
    literal. *)
Definition rows_with_placeholder : list election_row :=
  [vote 2024 "A" "${candidate}" 70; vote 2024 "A" "Y" 30].

Definition placeholder_prepared : prepared nat :=
  Eval vm_compute in prepared_of scenario_gdf rows_with_placeholder.

Definition placeholder_layout : layout nat :=
  Eval vm_compute in layout_of placeholder_prepared.




(** Two counts of [2^62] for one candidate in one region, and a count
    that is not a float64. *)
Definition rows_beyond_int64 : list election_row :=
  [ vote 2024 "A" "X" (2 ^ 62); vote 2024 "A" "X" (2 ^ 62);
    vote 2024 "A" "Y" 1 ].

Definition rows_beyond_float64 : list election_row :=
  [ vote 2024 "A" "X" (2 ^ 53 + 1); vote 2024 "B" "X" 1 ].

(** * Proofs *)

(** ** 64-bit integers *)

Lemma wrap64_small (z : Z) : (Z.abs z < 2 ^ 63)%Z -> wrap64 z = z.
Proof.
  intros H. unfold wrap64. rewrite Z.mod_small; lia.
Qed.

Lemma wrap64_add_l (a b : Z) : wrap64 (wrap64 a + b) = wrap64 (a + b).
Proof.
  unfold wrap64. f_equal.
  replace ((a + 2 ^ 63) mod 2 ^ 64 - 2 ^ 63 + b + 2 ^ 63)%Z
    with ((a + 2 ^ 63) mod 2 ^ 64 + b)%Z by lia.
  rewrite Zplus_mod_idemp_l. f_equal. lia.
Qed.

(** ** Rounding to an integer *)

Lemma rint_error (x : Q) : Qabs (inject_Z (rint x) - x) <= 1 # 2.
Proof.
  unfold rint.
  pose proof (Qfloor_le x) as Hlo.
  pose proof (Qlt_floor x) as Hhi.
  rewrite inject_Z_plus in Hhi. change (inject_Z 1) with 1 in Hhi.
  apply Qabs_Qle_condition.
  destruct (Qcompare_spec (x - inject_Z (Qfloor x)) (1 # 2)) as [He | Hl | Hg].
  - destruct (Z.even (Qfloor x)).
    + split; lra.
    + rewrite inject_Z_plus. change (inject_Z 1) with 1. split; lra.
  - split; lra.
  - rewrite inject_Z_plus. change (inject_Z 1) with 1. split; lra.
Qed.

Lemma rint_int (x : Q) (n : Z) : x == inject_Z n -> rint x = n.
Proof.
  intros E. pose proof (rint_error x) as H.
  apply Qabs_Qle_condition in H.
  set (r := rint x) in *.
  destruct (Z.eq_dec r n) as [-> | Hne]; [reflexivity|]. exfalso.
  assert (Hcase : (r + 1 <= n \/ n + 1 <= r)%Z) by lia.
  destruct Hcase as [Hc | Hc]; rewrite Zle_Qle in Hc;
    rewrite inject_Z_plus in Hc; change (inject_Z 1) with 1 in Hc; lra.
Qed.

Lemma rint_le_int (x : Q) (n : Z) : x <= inject_Z n -> (rint x <= n)%Z.
Proof.
  intros H. unfold rint.
  pose proof (Qfloor_le x) as Hlo.
  assert (Hf : (Qfloor x <= n)%Z).
  { rewrite <- (Qfloor_Z n). now apply Qfloor_resp_le. }
  destruct (Z.eq_dec (Qfloor x) n) as [E | Hne].
  - rewrite E in *.
    destruct (Qcompare_spec (x - inject_Z n) (1 # 2)) as [C | C | C];
      try lia; exfalso; lra.
  - destruct (x - inject_Z (Qfloor x) ?= 1 # 2); [destruct (Z.even _)| |]; lia.
Qed.

Lemma rint_nonneg (x : Q) : 0 <= x -> (0 <= rint x)%Z.
Proof.
  intros H. unfold rint.
  assert (Hf : (0 <= Qfloor x)%Z).
  { change 0%Z with (Qfloor 0). now apply Qfloor_resp_le. }
  destruct (x - inject_Z (Qfloor x) ?= 1 # 2); [destruct (Z.even _)| |]; lia.
Qed.

Lemma round_half_away_error (x : Q) :
  Qabs (inject_Z (round_half_away x) - x) <= 1 # 2.
Proof.
  unfold round_half_away. cbv zeta.
  pose proof (Qfloor_le (Qabs x)) as Hlo.
  pose proof (Qlt_floor (Qabs x)) as Hhi.
  rewrite inject_Z_plus in Hhi. change (inject_Z 1) with 1 in Hhi.
  apply Qabs_Qle_condition.
  destruct (Qle_bool 0 x) eqn:Hs.
  - apply Qle_bool_iff in Hs. pose proof (Qabs_pos x Hs) as Ha.
    destruct (Qcompare_spec (Qabs x - inject_Z (Qfloor (Qabs x))) (1 # 2));
      rewrite ?inject_Z_plus; change (inject_Z 1) with 1; split; lra.
  - assert (Hneg : x <= 0).
    { destruct (Qlt_le_dec 0 x) as [Hp | Hp]; [|exact Hp].
      apply Qlt_le_weak, Qle_bool_iff in Hp. congruence. }
    pose proof (Qabs_neg x Hneg) as Ha.
    destruct (Qcompare_spec (Qabs x - inject_Z (Qfloor (Qabs x))) (1 # 2));
      rewrite inject_Z_opp, ?inject_Z_plus; change (inject_Z 1) with 1;
      split; lra.
Qed.

Lemma round_with_error (r : Q -> Z) (p : Z) (q : Q) :
  (0 < p)%Z ->
  (forall x, Qabs (inject_Z (r x) - x) <= 1 # 2) ->
  Qabs (inject_Z (r (q * inject_Z p)) / inject_Z p - q)
  <= 1 / (2 * inject_Z p).
Proof.
  intros Hp Hr.
  assert (HP : 0 < inject_Z p).
  { change 0 with (inject_Z 0). rewrite <- Zlt_Qlt. exact Hp. }
  specialize (Hr (q * inject_Z p)).
  apply Qabs_Qle_condition in Hr. destruct Hr as [H1 H2].
  set (n := inject_Z (r (q * inject_Z p))) in *.
  set (P := inject_Z p) in *.
  assert (HPn : ~ P == 0) by lra.
  assert (E1 : n / P - q == (n - q * P) / P) by (field; exact HPn).
  assert (E2 : 1 / (2 * P) == (1 # 2) / P) by (field; exact HPn).
  rewrite E1, E2.
  apply Qabs_Qle_condition. split.
  - setoid_replace (- ((1 # 2) / P)) with ((- (1 # 2)) / P) by (field; exact HPn).
    apply Qmult_le_compat_r; [exact H1 |]. apply Qlt_le_weak, Qinv_lt_0_compat, HP.
  - apply Qmult_le_compat_r; [exact H2 |]. apply Qlt_le_weak, Qinv_lt_0_compat, HP.
Qed.

Lemma toFixed1_rounded (x : num) : rounded_to 1 x (toFixed1 x).
Proof.
  destruct x as [q| | |]; simpl; try reflexivity.
  split.
  - eexists. reflexivity.
  - exact (round_with_error round_half_away 10 q eq_refl round_half_away_error).
Qed.

(** ** Rounding to a float64 *)

Lemma pow2_pos (z : Z) : 0 < 2 ^ z.
Proof. apply Qpower_0_lt. reflexivity. Qed.

Lemma pow2_add (a b : Z) : 2 ^ (a + b) == 2 ^ a * 2 ^ b.
Proof. apply Qpower_plus. discriminate. Qed.

Lemma pow2_inject (a : Z) : (0 <= a)%Z -> inject_Z (2 ^ a) == 2 ^ a.
Proof. intros H. rewrite (Zpower_Qpower 2 a H). reflexivity. Qed.

Lemma pow2_lt_inv (a b : Z) : 2 ^ a < 2 ^ b -> (a < b)%Z.
Proof.
  intros H. destruct (Z_lt_le_dec a b) as [Hlt | Hle]; [exact Hlt|].
  exfalso. assert (2 ^ b <= 2 ^ a).
  { apply Qpower_le_compat_l; [exact Hle | discriminate]. }
  lra.
Qed.

Lemma pow2_neg_inv (e : Z) : (e <= 0)%Z -> / 2 ^ e == inject_Z (2 ^ (- e)).
Proof.
  intros He. rewrite pow2_inject by lia. rewrite Qpower_opp. reflexivity.
Qed.

Lemma log2_bounds (n : Z) :
  (0 < n)%Z -> 2 ^ Z.log2 n <= inject_Z n < 2 ^ (Z.log2 n + 1).
Proof.
  intros Hn. destruct (Z.log2_spec n Hn) as [H1 H2].
  pose proof (Z.log2_nonneg n) as H0.
  rewrite <- !pow2_inject by lia. rewrite <- Zle_Qle, <- Zlt_Qlt.
  split; [exact H1|]. exact H2.
Qed.

Lemma Qabs_frac (x : Q) :
  Qabs x * inject_Z (Zpos (Qden x)) == inject_Z (Z.abs (Qnum x)).
Proof.
  destruct x as [n d]. unfold Qabs, Qeq, Qmult, inject_Z. simpl. lia.
Qed.

(** [binade x] is the binade of [x]. *)
Lemma binade_spec (x : Q) :
  ~ x == 0 -> 2 ^ binade x <= Qabs x < 2 ^ (binade x + 1).
Proof.
  intros Hx. unfold binade.
  set (n := Z.abs (Qnum x)). set (d := Zpos (Qden x)).
  assert (Hn : (0 < n)%Z).
  { unfold n. destruct x as [[|p|p] q]; simpl; try lia.
    exfalso. apply Hx. reflexivity. }
  assert (Hd : (0 < d)%Z) by (unfold d; lia).
  pose proof (log2_bounds n Hn) as [N1 N2].
  pose proof (log2_bounds d Hd) as [D1 D2].
  pose proof (Qabs_frac x) as E. fold n d in E.
  set (a := Z.log2 n) in *. set (b := Z.log2 d) in *.
  set (X := Qabs x) in *.
  assert (HD : 0 < inject_Z d).
  { change 0 with (inject_Z 0). rewrite <- Zlt_Qlt. exact Hd. }
  assert (Up : X < 2 ^ (a - b + 1)).
  { apply (Qmult_lt_r _ _ (inject_Z d) HD). rewrite E.
    apply Qlt_le_trans with (2 ^ (a + 1)); [exact N2|].
    replace (a + 1)%Z with ((a - b + 1) + b)%Z by lia.
    rewrite pow2_add. apply Qmult_le_l; [apply pow2_pos | exact D1]. }
  assert (Lo : 2 ^ (a - b - 1) < X).
  { apply (Qmult_lt_r _ _ (inject_Z d) HD). rewrite E.
    apply Qlt_le_trans with (2 ^ a); [|exact N1].
    replace a with ((a - b - 1) + (b + 1))%Z at 2 by lia.
    rewrite pow2_add. apply Qmult_lt_l; [apply pow2_pos | exact D2]. }
  destruct (Qle_bool (2 ^ (a - b)) X) eqn:T.
  - apply Qle_bool_iff in T. split; [exact T | exact Up].
  - assert (T' : X < 2 ^ (a - b)).
    { destruct (Qlt_le_dec X (2 ^ (a - b))) as [H | H]; [exact H|].
      apply Qle_bool_iff in H. congruence. }
    replace (a - b - 1 + 1)%Z with (a - b)%Z by lia.
    split; [apply Qlt_le_weak, Lo | exact T'].
Qed.

(** The value of [b64], before the fraction is reduced. *)
Lemma b64_value (x : Q) :
  ~ x == 0 ->
  b64 x == inject_Z (rint (x / 2 ^ (binade x - 52))) * 2 ^ (binade x - 52).
Proof.
  intros Hx. unfold b64.
  destruct (Qeq_bool x 0) eqn:E.
  - exfalso. apply Hx. now apply Qeq_bool_iff.
  - cbv zeta. apply Qred_correct.
Qed.

Lemma b64_zero (x : Q) : x == 0 -> b64 x = 0.
Proof. intros E. unfold b64. apply Qeq_bool_iff in E. now rewrite E. Qed.

(** The relative error of one rounding is at most [2^-53]. *)
Lemma b64_error (x : Q) : Qabs (b64 x - x) <= Qabs x * (1 # 9007199254740992).
Proof.
  destruct (Qeq_dec x 0) as [E | Hx].
  - rewrite (b64_zero x E), E. vm_compute. discriminate.
  - rewrite (b64_value x Hx).
    destruct (binade_spec x Hx) as [H1 _].
    set (e := (binade x - 52)%Z) in *.
    pose proof (pow2_pos e) as Hp.
    assert (E2 : 2 ^ binade x == 2 ^ e * 4503599627370496).
    { replace (binade x) with (e + 52)%Z by (unfold e; lia).
      rewrite pow2_add. reflexivity. }
    rewrite E2 in H1.
    pose proof (rint_error (x / 2 ^ e)) as Hr.
    set (k := inject_Z (rint (x / 2 ^ e))) in *.
    assert (Ex : k * 2 ^ e - x == (k - x / 2 ^ e) * 2 ^ e) by (field; lra).
    rewrite Ex, Qabs_Qmult, (Qabs_pos (2 ^ e)) by lra.
    apply Qle_trans with ((1 # 2) * 2 ^ e).
    + apply Qmult_le_compat_r; [exact Hr | lra].
    + lra.
Qed.

(** Below [2^53] the unit in the last place is at most 1. *)
Lemma binade_small (x : Q) :
  ~ x == 0 -> Qabs x < 9007199254740992 -> (binade x - 52 <= 0)%Z.
Proof.
  intros Hx Hb. destruct (binade_spec x Hx) as [H1 _].
  assert (H : 2 ^ binade x < 2 ^ 53) by (eapply Qle_lt_trans; [exact H1 | exact Hb]).
  apply pow2_lt_inv in H. lia.
Qed.

(** An integer below [2^53] in absolute value is a float64. *)
Lemma b64_int (x : Q) (n : Z) :
  x == inject_Z n -> (Z.abs n < 2 ^ 53)%Z -> b64 x == inject_Z n.
Proof.
  intros E Hn. destruct (Qeq_dec x 0) as [E0 | Hx].
  - rewrite (b64_zero x E0), <- E, E0. reflexivity.
  - assert (Hb : Qabs x < 9007199254740992).
    { rewrite E. change (Qabs (inject_Z n)) with (inject_Z (Z.abs n)).
      change 9007199254740992 with (inject_Z (2 ^ 53)). now rewrite <- Zlt_Qlt. }
    pose proof (binade_small x Hx Hb) as He.
    rewrite (b64_value x Hx).
    set (e := (binade x - 52)%Z) in *.
    pose proof (pow2_pos e) as Hp.
    assert (Ey : x / 2 ^ e == inject_Z (n * 2 ^ (- e))).
    { rewrite inject_Z_mult, <- pow2_neg_inv by exact He.
      rewrite E. reflexivity. }
    rewrite (rint_int _ _ Ey), inject_Z_mult, <- pow2_neg_inv by exact He.
    field. lra.
Qed.

(** Rounding does not cross an integer below [2^53]. *)
Lemma b64_le_int (x : Q) (n : Z) :
  0 <= x -> x <= inject_Z n -> (n < 2 ^ 53)%Z -> b64 x <= inject_Z n.
Proof.
  intros H0 Hn Hb. destruct (Qeq_dec x 0) as [E0 | Hx].
  - rewrite (b64_zero x E0). lra.
  - assert (Hb' : Qabs x < 9007199254740992).
    { rewrite Qabs_pos by exact H0.
      eapply Qle_lt_trans; [exact Hn|].
      change 9007199254740992 with (inject_Z (2 ^ 53)). now rewrite <- Zlt_Qlt. }
    pose proof (binade_small x Hx Hb') as He.
    rewrite (b64_value x Hx).
    set (e := (binade x - 52)%Z) in *.
    pose proof (pow2_pos e) as Hp.
    assert (Hy : x / 2 ^ e <= inject_Z (n * 2 ^ (- e))).
    { rewrite inject_Z_mult, <- pow2_neg_inv by exact He.
      apply Qmult_le_compat_r; [exact Hn|].
      apply Qlt_le_weak, Qinv_lt_0_compat, Hp. }
    apply rint_le_int in Hy. rewrite Zle_Qle in Hy.
    rewrite inject_Z_mult, <- pow2_neg_inv in Hy by exact He.
    apply (Qmult_le_compat_r _ _ (2 ^ e)) in Hy; [|lra].
    eapply Qle_trans; [exact Hy|].
    assert (Eq1 : inject_Z n * / 2 ^ e * 2 ^ e == inject_Z n) by (field; lra).
    rewrite Eq1. lra.
Qed.

Lemma b64_nonneg (x : Q) : 0 <= x -> 0 <= b64 x.
Proof.
  intros H0. destruct (Qeq_dec x 0) as [E0 | Hx].
  - rewrite (b64_zero x E0). lra.
  - rewrite (b64_value x Hx).
    pose proof (pow2_pos (binade x - 52)) as Hp.
    apply Qmult_le_0_compat; [|lra].
    change 0 with (inject_Z 0). rewrite <- Zle_Qle. apply rint_nonneg.
    apply Qle_shift_div_l; [exact Hp | lra].
Qed.

(** One rounding of a number between 0 and a small integer [n]. *)
Lemma b64_between (x : Q) (n : Z) :
  0 <= x -> x <= inject_Z n -> (n < 2 ^ 53)%Z ->
  0 <= b64 x <= inject_Z n /\
  Qabs (b64 x - x) <= inject_Z n * (1 # 9007199254740992).
Proof.
  intros H0 Hn Hb. split; [split|].
  - now apply b64_nonneg.
  - now apply b64_le_int.
  - eapply Qle_trans; [apply b64_error|].
    rewrite Qabs_pos by exact H0.
    apply Qmult_le_compat_r; [exact Hn | discriminate].
Qed.

(** The float64 computation of a percentage: the quotient, the product
    by 100 and the three steps of the rounding to two decimals.  The
    result is within [pct_tolerance] of the exact percentage, and between
    0 and 100. *)
Lemma pct_error (x t : Q) :
  0 <= x -> x <= t -> 0 < t ->
  let r := b64 (inject_Z (rint (b64 (b64 (b64 (x / t) * 100) * 100))) / 100) in
  0 <= r <= 100 /\ Qabs (r - x / t * 100) <= pct_tolerance.
Proof.
  intros Hx Hxt Ht.
  assert (Hs : 0 <= x / t <= 1).
  { split.
    - apply Qle_shift_div_l; [exact Ht | lra].
    - apply Qle_shift_div_r; [exact Ht | lra]. }
  set (s := x / t) in *.
  destruct (b64_between s 1) as [[A1 A2] A3];
    [tauto | change (inject_Z 1) with 1; tauto | reflexivity |].
  change (inject_Z 1) with 1 in *.
  set (y1 := b64 s) in *.
  destruct (b64_between (y1 * 100) 100) as [[B1 B2] B3];
    [lra | change (inject_Z 100) with 100; lra | reflexivity |].
  change (inject_Z 100) with 100 in *.
  set (y2 := b64 (y1 * 100)) in *.
  destruct (b64_between (y2 * 100) 10000) as [[C1 C2] C3];
    [lra | change (inject_Z 10000) with 10000; lra | reflexivity |].
  set (y3 := b64 (y2 * 100)) in *.
  pose proof (rint_error y3) as D3.
  assert (D1 : (0 <= rint y3)%Z) by (apply rint_nonneg; exact C1).
  assert (D2 : (rint y3 <= 10000)%Z) by (apply rint_le_int; exact C2).
  rewrite Zle_Qle in D1, D2.
  set (k := inject_Z (rint y3)) in *.
  change (inject_Z 0) with 0 in D1. change (inject_Z 10000) with 10000 in *.
  destruct (b64_between (k / 100) 100) as [[E1 E2] E3];
    [ apply Qle_shift_div_l; lra
    | change (inject_Z 100) with 100; apply Qle_shift_div_r; lra
    | reflexivity |].
  change (inject_Z 100) with 100 in *.
  cbv zeta. set (r := b64 (k / 100)) in *.
  split; [split; assumption|].
  apply Qabs_Qle_condition in A3, B3, C3, D3, E3.
  assert (Ek : k / 100 * 100 == k) by field.
  set (w := k / 100) in *.
  unfold pct_tolerance. apply Qabs_Qle_condition. split; lra.
Qed.

(** ** Floats *)

Lemma sanitized_finite (x : num) : is_finite (fillna0 (replace_inf x)).
Proof. destruct x; exact I. Qed.

Lemma fold_add_finite (l : list num) :
  forall acc,
    (forall x, In x l -> is_finite x) ->
    is_finite (fold_left num_add l (Fin acc)).
Proof.
  induction l as [|x l IH]; intros acc Hl; simpl.
  - exact I.
  - assert (Hx : is_finite x) by (apply Hl; now left).
    destruct x as [a| | |]; try contradiction. simpl.
    apply IH. intros y Hy. apply Hl. now right.
Qed.

Lemma filter_not_nan_finite (l : list num) :
  (forall x, In x l -> x = NaN \/ is_finite x) ->
  forall x, In x (filter (fun x => negb (is_nan x)) l) -> is_finite x.
Proof.
  intros Hl x Hx. apply filter_In in Hx. destruct Hx as [Hin Hb].
  destruct (Hl x Hin) as [-> | Hf]; [discriminate | exact Hf].
Qed.

Lemma sum_skipna_finite (l : list num) :
  (forall x, In x l -> x = NaN \/ is_finite x) ->
  exists q, sum_skipna l = Fin q.
Proof.
  intros Hl. unfold sum_skipna.
  pose proof (fold_add_finite _ 0 (filter_not_nan_finite l Hl)) as H.
  destruct (fold_left num_add _ (Fin 0)) as [q| | |]; try contradiction.
  now exists q.
Qed.

Lemma filter_all_finite (l : list num) :
  (forall x, In x l -> is_finite x) ->
  filter (fun x => negb (is_nan x)) l = l.
Proof.
  induction l as [|x l IH]; intros H; simpl; [reflexivity|].
  assert (Hx : is_finite x) by (apply H; now left).
  destruct x; try contradiction. simpl. f_equal.
  apply IH. intros y Hy. apply H. now right.
Qed.

(** ** Sums of whole numbers

    A sum of floats that are integers is the integer sum, as long as the
    absolute values of the addends add up to less than [2^53]: no
    addition rounds. *)

Lemma whole_finite (x : num) (z : Z) : whole x z -> is_finite x.
Proof. intros [q [-> _]]. exact I. Qed.

Lemma of_int_whole (z : Z) : (Z.abs z < 2 ^ 53)%Z -> whole (of_int z) z.
Proof.
  intros H. eexists. split; [reflexivity|]. now apply b64_int.
Qed.

Lemma num_add_whole (x y : num) (a b : Z) :
  whole x a -> whole y b -> (Z.abs (a + b) < 2 ^ 53)%Z ->
  whole (num_add x y) (a + b).
Proof.
  intros [p [-> Hp]] [q [-> Hq]] H. simpl.
  eexists. split; [reflexivity|]. apply b64_int; [|exact H].
  rewrite inject_Z_plus, Hp, Hq. reflexivity.
Qed.

Lemma fold_add_whole {A : Type} (g : A -> num) (h : A -> Z) (L : list A) :
  forall (acc : num) (a : Z),
    whole acc a ->
    (forall k, In k L -> whole (g k) (h k)) ->
    (Z.abs a + Zsum (map (fun k => Z.abs (h k)) L) < 2 ^ 53)%Z ->
    whole (fold_left num_add (map g L) acc) (a + Zsum (map h L)).
Proof.
  induction L as [|k L IH]; intros acc a Ha HL Hb; simpl in *.
  - now rewrite Z.add_0_r.
  - assert (Hpos : (0 <= Zsum (map (fun k => Z.abs (h k)) L))%Z).
    { clear. induction L as [|x L IH]; simpl; lia. }
    rewrite Z.add_assoc. apply IH.
    + apply num_add_whole; [exact Ha | apply HL; now left | lia].
    + intros k' Hk'. apply HL. now right.
    + lia.
Qed.

Lemma sum_skipna_whole {A : Type} (g : A -> num) (h : A -> Z) (L : list A) :
  (forall k, In k L -> whole (g k) (h k)) ->
  (Zsum (map (fun k => Z.abs (h k)) L) < 2 ^ 53)%Z ->
  whole (sum_skipna (map g L)) (Zsum (map h L)).
Proof.
  intros HL Hb. unfold sum_skipna. rewrite filter_all_finite.
  - apply (fold_add_whole g h L (Fin 0) 0).
    + exists 0. split; reflexivity.
    + exact HL.
    + simpl. exact Hb.
  - intros x Hx. apply in_map_iff in Hx. destruct Hx as [k [<- Hk]].
    exact (whole_finite _ _ (HL k Hk)).
Qed.

Lemma py_sum_whole {A : Type} (g : A -> num) (h : A -> Z) (L : list A) :
  (forall k, In k L -> whole (g k) (h k)) ->
  (Zsum (map (fun k => Z.abs (h k)) L) < 2 ^ 53)%Z ->
  whole (py_sum (map g L)) (Zsum (map h L)).
Proof.
  intros HL Hb. unfold py_sum.
  apply (fold_add_whole g h L (Fin 0) 0).
  - exists 0. split; reflexivity.
  - exact HL.
  - simpl. exact Hb.
Qed.
(** ** Dictionaries *)

Lemma dict_get_set_same (k : string) (v : num) (d : dict) :
  dict_get k (dict_set k v d) = Some v.
Proof.
  induction d as [|[k' v'] d IH]; simpl.
  - now rewrite String.eqb_refl.
  - destruct (String.eqb_spec k' k) as [-> | Hne]; simpl.
    + now rewrite String.eqb_refl.
    + destruct (String.eqb_spec k' k); [contradiction | exact IH].
Qed.

Lemma dict_get_set_other (k k' : string) (v : num) (d : dict) :
  k' <> k -> dict_get k' (dict_set k v d) = dict_get k' d.
Proof.
  intros Hne. induction d as [|[k0 v0] d IH]; simpl.
  - destruct (String.eqb_spec k k'); [congruence | reflexivity].
  - destruct (String.eqb_spec k0 k) as [-> | Hk]; simpl.
    + destruct (String.eqb_spec k k'); [congruence | reflexivity].
    + destruct (String.eqb_spec k0 k'); [reflexivity | exact IH].
Qed.

Lemma get_set_same (k : string) (v : num) (d : dict) :
  get k (dict_set k v d) = v.
Proof. unfold get. now rewrite dict_get_set_same. Qed.

Lemma get_set_other (k k' : string) (v : num) (d : dict) :
  k' <> k -> get k' (dict_set k v d) = get k' d.
Proof. intros H. unfold get. now rewrite dict_get_set_other. Qed.

Lemma dict_get_map_values (f : num -> num) (k : string) (d : dict) :
  dict_get k (map (fun kv => (fst kv, f (snd kv))) d)
  = option_map f (dict_get k d).
Proof.
  induction d as [|[k' v'] d IH]; simpl; [reflexivity|].
  destruct (String.eqb_spec k' k); [reflexivity | exact IH].
Qed.

Lemma dict_get_tabulate (g : string -> num) (k : string) (l : list string) :
  dict_get k (map (fun c => (c, g c)) l)
  = if in_dec string_dec k l then Some (g k) else None.
Proof.
  induction l as [|c l IH]; simpl; [reflexivity|].
  destruct (String.eqb_spec c k) as [-> | Hne].
  - destruct (string_dec k k); [reflexivity | contradiction].
  - rewrite IH. destruct (string_dec c k); [contradiction|].
    destruct (in_dec string_dec k l); reflexivity.
Qed.

Lemma get_tabulate (g : string -> num) (k : string) (l : list string) :
  In k l -> get k (map (fun c => (c, g c)) l) = g k.
Proof.
  intros Hin. unfold get. rewrite dict_get_tabulate.
  destruct (in_dec string_dec k l); [reflexivity | contradiction].
Qed.

Lemma dict_get_In (k : string) (v : num) (d : dict) :
  dict_get k d = Some v -> In (k, v) d.
Proof.
  induction d as [|[k' v'] d IH]; simpl; [discriminate|].
  destruct (String.eqb_spec k' k) as [-> | Hne].
  - intros [= ->]. now left.
  - intros H. right. now apply IH.
Qed.

Lemma dict_set_In (k : string) (v : num) (d : dict) (kv : string * num) :
  In kv (dict_set k v d) -> In kv d \/ kv = (k, v).
Proof.
  induction d as [|[k' v'] d IH]; simpl.
  - intros [<- | []]. now right.
  - destruct (String.eqb_spec k' k) as [-> | Hne]; simpl.
    + intros [<- | H]; [now right | left; now right].
    + intros [<- | H]; [left; now left|].
      destruct (IH H) as [H' | H']; [left; now right | now right].
Qed.

Lemma all_values_get (P : num -> Prop) (d : dict) (k : string) :
  all_values P d -> P NaN -> P (get k d).
Proof.
  intros Hd Hn. unfold get. destruct (dict_get k d) eqn:E; [|exact Hn].
  apply dict_get_In in E. exact (Hd _ E).
Qed.

Lemma all_values_set (P : num -> Prop) (d : dict) (k : string) (v : num) :
  all_values P d -> P v -> all_values P (dict_set k v d).
Proof.
  intros Hd Hv kv Hin. destruct (dict_set_In _ _ _ _ Hin) as [H | ->].
  - exact (Hd _ H).
  - exact Hv.
Qed.


Section Pipeline.

Context {geometry : Type} (to_crs : option (geometry -> geometry)).

Lemma map_props_map_props (f g : dict -> dict) (gdf : list (feature geometry)) :
  map_props f (map_props g gdf) = map_props (fun d => f (g d)) gdf.
Proof. unfold map_props. rewrite map_map. reflexivity. Qed.

Lemma fold_map_props (F : string -> dict -> dict) (l : list string) :
  forall gdf : list (feature geometry),
    fold_left (fun g c => map_props (F c) g) l gdf
    = map_props (fun d => fold_left (fun d c => F c d) l d) gdf.
Proof.
  induction l as [|c l IH]; intros gdf; simpl.
  - unfold map_props. rewrite <- (map_id gdf) at 1.
    apply map_ext. now intros [].
  - rewrite IH, map_props_map_props. reflexivity.
Qed.

Lemma filter_moughataa (cols : list string) :
  existsb (fun c => (c =? "moughataa")%string) cols = false ->
  filter (fun col => negb (col =? "moughataa")%string) ("moughataa" :: cols)
  = cols.
Proof.
  intros H. simpl.
  induction cols as [|c cols IH]; simpl in *; [reflexivity|].
  apply orb_false_iff in H. destruct H as [H1 H2].
  rewrite H1. simpl. now rewrite IH.
Qed.


(** The prepared table, read off the definition of [data_preparation]. *)
Lemma data_preparation_inv
  (gdf : list (string * geometry)) (rows : list election_row)
  (p : prepared geometry) :
  data_preparation to_crs gdf rows = inr p ->
  let df0 := frame_fillna (pivot (groupby_sum (rows_2024 rows))) in
  ~ In "moughataa" (frame_columns df0) /\
  candidats p = frame_columns df0 /\
  totaux_nationaux p
  = map (fun c => (c, sum_skipna (column c (pivot_table rows))))
        (candidats p) /\
  py_max_key (totaux_nationaux p) = inr (gagnant_national p) /\
  exists reproject,
    to_crs = Some reproject /\
    gdf_clean p
    = map (fun g =>
             {| feat_moughataa := fst g;
                feat_geometry := reproject (snd g);
                feat_props :=
                  clean_props (candidats p)
                    (merged_props (pivot_table rows) (fst g)) |}) gdf.
Proof.
  unfold data_preparation, reset_index. fold (rows_2024 rows).
  set (df0 := frame_fillna (pivot (groupby_sum (rows_2024 rows)))).
  destruct (existsb _ (frame_columns df0)) eqn:Hex; [discriminate|].
  unfold bind at 1, ok. unfold df_columns. rewrite (filter_moughataa _ Hex).
  change (assign "total_votes" (row_sum (frame_columns df0)) df0)
    with (pivot_table rows).
  destruct (py_max_key _) as [e | g] eqn:Hmax; [discriminate|].
  unfold bind at 1. unfold gdf_to_crs.
  destruct (existsb (fun c => (c =? "geometry")%string) (frame_columns df0));
    [discriminate|].
  destruct to_crs as [reproject|]; [|discriminate].
  unfold bind at 1, ok. unfold add_percentages.
  destruct (existsb (fun c => (c =? "total_votes")%string) (frame_columns df0));
    [discriminate|].
  unfold bind, ok. intros [= <-].
  cbn [candidats totaux_nationaux gagnant_national gdf_clean].
  repeat split; try assumption.
  - intros Hin.
    assert (existsb (fun c => (c =? "moughataa")%string) (frame_columns df0) = true).
    { apply existsb_exists. exists "moughataa". split; [exact Hin | reflexivity]. }
    congruence.
  - exists reproject. split; [reflexivity|].
    unfold sanitize, add_pct. rewrite fold_map_props.
    unfold select_columns, merge_left.
    rewrite !map_props_map_props. unfold map_props. rewrite !map_map.
    reflexivity.
Qed.

(** A table comes out only when no candidate is named like a column of
    the pipeline. *)
Lemma data_preparation_names
  (gdf : list (string * geometry)) (rows : list election_row)
  (p : prepared geometry) :
  data_preparation to_crs gdf rows = inr p ->
  ~ In "moughataa" (candidats p) /\
  ~ In "geometry" (candidats p) /\
  ~ In "total_votes" (candidats p).
Proof.
  intros H. pose proof H as H0.
  unfold data_preparation, reset_index in H. fold (rows_2024 rows) in H.
  set (df0 := frame_fillna (pivot (groupby_sum (rows_2024 rows)))) in *.
  destruct (existsb _ (frame_columns df0)) eqn:Hex; [discriminate|].
  unfold bind at 1, ok in H. unfold df_columns in H.
  rewrite (filter_moughataa _ Hex) in H.
  destruct (py_max_key _) as [e | g] eqn:Hmax; [discriminate|].
  unfold bind at 1 in H. unfold gdf_to_crs in H.
  destruct (existsb (fun c => (c =? "geometry")%string) (frame_columns df0))
    eqn:Hgeo; [discriminate|].
  destruct to_crs as [reproject|]; [|discriminate].
  unfold bind at 1, ok in H. unfold add_percentages in H.
  destruct (existsb (fun c => (c =? "total_votes")%string) (frame_columns df0))
    eqn:Htot; [discriminate|].
  unfold bind, ok in H. injection H as <-. cbn [candidats].
  assert (K : forall name,
            existsb (fun c => (c =? name)%string) (frame_columns df0) = false ->
            ~ In name (frame_columns df0)).
  { intros name E Hin.
    assert (existsb (fun c => (c =? name)%string) (frame_columns df0) = true).
    { apply existsb_exists. exists name. split; [exact Hin|].
      apply String.eqb_refl. }
    congruence. }
  repeat split; apply K; assumption.
Qed.

End Pipeline.

(** ** Ordering of labels and of group keys *)


Lemma slt_irrefl (a : string) : String_as_OT.compare a a = Lt -> False.
Proof. exact (@StrictOrder_Irreflexive _ _ String_as_OT.lt_strorder a). Qed.

Lemma scompare_lt_trans (a b c : string) :
  String_as_OT.compare a b = Lt -> String_as_OT.compare b c = Lt ->
  String_as_OT.compare a c = Lt.
Proof. exact (@StrictOrder_Transitive _ _ String_as_OT.lt_strorder a b c). Qed.

Lemma scompare_eq (a b : string) : String_as_OT.compare a b = Eq -> a = b.
Proof.
  intros H. destruct (String_as_OT.compare_spec a b); congruence.
Qed.

Lemma scompare_refl (a : string) : String_as_OT.compare a a = Eq.
Proof.
  destruct (String_as_OT.compare a a) eqn:E; [reflexivity | | ].
  - exfalso. exact (slt_irrefl a E).
  - exfalso. destruct (String_as_OT.compare_spec a a) as [_ | H | H];
      try discriminate. exact (slt_irrefl a H).
Qed.

Lemma scompare_gt (a b : string) :
  String_as_OT.compare a b = Gt <-> String_as_OT.compare b a = Lt.
Proof.
  split; intros H.
  - destruct (String_as_OT.compare_spec a b) as [E | H1 | H1];
      try discriminate. exact H1.
  - destruct (String_as_OT.compare_spec a b) as [E | H1 | H1].
    + red in E. subst b. exfalso. exact (slt_irrefl a H).
    + exfalso. exact (slt_irrefl a (scompare_lt_trans _ _ _ H1 H)).
    + reflexivity.
Qed.

Lemma key_compare_eq (a b : group_key) : key_compare a b = Eq -> a = b.
Proof.
  destruct a as [a1 a2], b as [b1 b2]. unfold key_compare. simpl.
  destruct (String_as_OT.compare a1 b1) eqn:E1; try discriminate.
  intros E2. apply scompare_eq in E1, E2. congruence.
Qed.

Lemma key_compare_refl (a : group_key) : key_compare a a = Eq.
Proof. unfold key_compare. now rewrite !scompare_refl. Qed.

Lemma key_compare_lt_trans (a b c : group_key) :
  key_compare a b = Lt -> key_compare b c = Lt -> key_compare a c = Lt.
Proof.
  destruct a as [a1 a2], b as [b1 b2], c as [c1 c2]. unfold key_compare. simpl.
  destruct (String_as_OT.compare a1 b1) eqn:E1; try discriminate;
    destruct (String_as_OT.compare b1 c1) eqn:E2; try discriminate;
    intros H1 H2;
    try (apply scompare_eq in E1; subst b1);
    try (apply scompare_eq in E2; subst c1);
    rewrite ?scompare_refl, ?E1, ?E2; try reflexivity.
  - exact (scompare_lt_trans _ _ _ H1 H2).
  - now rewrite (scompare_lt_trans _ _ _ E1 E2).
Qed.

Lemma key_compare_gt (a b : group_key) :
  key_compare a b = Gt <-> key_compare b a = Lt.
Proof.
  destruct a as [a1 a2], b as [b1 b2]. unfold key_compare. simpl.
  destruct (String_as_OT.compare a1 b1) eqn:E1.
  - apply scompare_eq in E1. subst b1. rewrite scompare_refl.
    apply scompare_gt.
  - assert (E2 : String_as_OT.compare b1 a1 = Gt) by now apply scompare_gt.
    rewrite E2. split; discriminate.
  - apply scompare_gt in E1. rewrite E1. split; reflexivity.
Qed.

Lemma key_compare_lt_gt (a b : group_key) :
  key_compare a b = Lt -> key_compare b a = Gt.
Proof. intros H. now apply key_compare_gt. Qed.

(** Adding to two groups commutes: the grouped sums do not depend on the
    order of the rows. *)
Lemma add_to_group_comm (k1 k2 : group_key) (v1 v2 : Z) (l : list (group_key * Z)) :
  add_to_group k1 v1 (add_to_group k2 v2 l)
  = add_to_group k2 v2 (add_to_group k1 v1 l).
Proof.
  induction l as [|[k s] l IH].
  - simpl. destruct (key_compare k1 k2) eqn:E12.
    + apply key_compare_eq in E12. subst k2. rewrite key_compare_refl.
      rewrite ?wrap64_add_l. f_equal. f_equal. f_equal. lia.
    + now rewrite (key_compare_lt_gt _ _ E12).
    + apply key_compare_gt in E12. now rewrite E12.
  - cbn [add_to_group].
    destruct (key_compare k1 k) eqn:E1; destruct (key_compare k2 k) eqn:E2;
      cbn [add_to_group].
    + apply key_compare_eq in E1, E2. subst k1 k2.
      rewrite key_compare_refl. rewrite ?wrap64_add_l. f_equal. f_equal. f_equal. lia.
    + apply key_compare_eq in E1. subst k1.
      rewrite (key_compare_lt_gt _ _ E2), key_compare_refl, E2. reflexivity.
    + rewrite E1, E2. reflexivity.
    + apply key_compare_eq in E2. subst k2.
      rewrite (key_compare_lt_gt _ _ E1), key_compare_refl, E1. reflexivity.
    + destruct (key_compare k1 k2) eqn:E12.
      * apply key_compare_eq in E12. subst k2. rewrite key_compare_refl.
        rewrite ?wrap64_add_l. f_equal. f_equal. f_equal. lia.
      * rewrite (key_compare_lt_gt _ _ E12). cbn [add_to_group].
        rewrite E2. reflexivity.
      * apply key_compare_gt in E12. rewrite E12. cbn [add_to_group].
        rewrite E1. reflexivity.
    + pose proof (proj1 (key_compare_gt _ _) E2) as E2'.
      pose proof (key_compare_lt_trans _ _ _ E1 E2') as E12.
      pose proof (key_compare_lt_gt _ _ E12) as E21.
      repeat (cbn [add_to_group]; rewrite ?E1, ?E2, ?E12, ?E21). reflexivity.
    + rewrite E1, E2. reflexivity.
    + pose proof (proj1 (key_compare_gt _ _) E1) as E1'.
      pose proof (key_compare_lt_trans _ _ _ E2 E1') as E21.
      pose proof (key_compare_lt_gt _ _ E21) as E12.
      repeat (cbn [add_to_group]; rewrite ?E1, ?E2, ?E12, ?E21). reflexivity.
    + rewrite E1, E2, IH. reflexivity.
Qed.

Lemma groupby_sum_perm (rows rows' : list election_row) :
  Permutation rows rows' -> groupby_sum rows = groupby_sum rows'.
Proof.
  unfold groupby_sum. generalize (@nil (group_key * Z)).
  intros acc H. revert acc.
  induction H as [| r l l' _ IH | r1 r2 l | l1 l2 l3 _ IH1 _ IH2];
    intros acc; simpl.
  - reflexivity.
  - apply IH.
  - now rewrite add_to_group_comm.
  - now rewrite IH1.
Qed.



(** ** Sorted labels *)

Lemma insert_label_In (s x : string) (l : list string) :
  In x (insert_label s l) <-> x = s \/ In x l.
Proof.
  induction l as [|y l IH]; simpl.
  - intuition.
  - destruct (String_as_OT.compare s y) eqn:E; simpl.
    + apply scompare_eq in E. subst y. intuition.
    + intuition.
    + rewrite IH. intuition.
Qed.

Lemma sorted_labels_In_acc (l acc : list string) (x : string) :
  In x (fold_left (fun acc s => insert_label s acc) l acc)
  <-> In x l \/ In x acc.
Proof.
  revert acc. induction l as [|s l IH]; intros acc; simpl.
  - intuition.
  - rewrite IH, insert_label_In. intuition.
Qed.

Lemma sorted_labels_In (l : list string) (x : string) :
  In x (sorted_labels l) <-> In x l.
Proof.
  unfold sorted_labels. rewrite sorted_labels_In_acc. simpl. intuition.
Qed.

Lemma insert_label_sorted (s : string) (l : list string) :
  StronglySorted slt l -> StronglySorted slt (insert_label s l).
Proof.
  induction 1 as [|y l Hl IH Hy]; simpl.
  - constructor; constructor.
  - destruct (String_as_OT.compare s y) eqn:E.
    + now constructor.
    + constructor; [now constructor|].
      constructor; [exact E|].
      apply Forall_forall. intros z Hz.
      rewrite Forall_forall in Hy.
      exact (scompare_lt_trans _ _ _ E (Hy z Hz)).
    + constructor; [exact IH|].
      apply Forall_forall. intros z Hz.
      apply insert_label_In in Hz. destruct Hz as [-> | Hz].
      * now apply scompare_gt.
      * rewrite Forall_forall in Hy. exact (Hy z Hz).
Qed.

Lemma sorted_labels_sorted (l : list string) :
  StronglySorted slt (sorted_labels l).
Proof.
  unfold sorted_labels.
  assert (H : StronglySorted slt []) by constructor.
  revert H. generalize (@nil string). induction l as [|s l IH]; intros acc H; simpl.
  - exact H.
  - apply IH, insert_label_sorted, H.
Qed.

Lemma sorted_NoDup (l : list string) : StronglySorted slt l -> NoDup l.
Proof.
  induction 1 as [|y l Hl IH Hy]; constructor; [|exact IH].
  intros Hin. rewrite Forall_forall in Hy.
  exact (slt_irrefl y (Hy y Hin)).
Qed.

Lemma sorted_labels_NoDup (l : list string) : NoDup (sorted_labels l).
Proof. apply sorted_NoDup, sorted_labels_sorted. Qed.

(** ** Groups *)

Lemma add_to_group_keys (k : group_key) (v : Z) (l : list (group_key * Z))
  (x : group_key) :
  In x (map fst (add_to_group k v l)) <-> x = k \/ In x (map fst l).
Proof.
  induction l as [|[k' s] l IH]; simpl.
  - intuition.
  - destruct (key_compare k k') eqn:E; simpl.
    + apply key_compare_eq in E. subst k'. intuition.
    + intuition.
    + rewrite IH. intuition.
Qed.

Lemma groupby_sum_keys (rows : list election_row) (x : group_key) :
  In x (map fst (groupby_sum rows))
  <-> In x (map (fun r => (moughataa r, candidate r)) rows).
Proof.
  unfold groupby_sum.
  assert (G : forall acc,
    In x (map fst (fold_left
      (fun groups r => add_to_group (moughataa r, candidate r) (nb_votes r) groups)
      rows acc))
    <-> In x (map (fun r => (moughataa r, candidate r)) rows) \/ In x (map fst acc)).
  { induction rows as [|r rows IH]; intros acc; simpl.
    - intuition.
    - rewrite IH, add_to_group_keys. intuition. }
  rewrite G. simpl. intuition.
Qed.


Lemma group_lookup_In (m c : string) (groups : list (group_key * Z)) (v : Z) :
  group_lookup m c groups = Some v -> In ((m, c), v) groups.
Proof.
  induction groups as [|[[m' c'] v'] groups IH]; simpl; [discriminate|].
  destruct (String.eqb_spec m' m) as [-> | Hm]; simpl.
  - destruct (String.eqb_spec c' c) as [-> | Hc].
    + intros [= ->]. now left.
    + intros H. right. now apply IH.
  - intros H. right. now apply IH.
Qed.


(** ** The pivot table, row by row *)

Lemma sorted_labels_nil (l : list string) : sorted_labels l = [] -> l = [].
Proof.
  intros H. destruct l as [|s l]; [reflexivity|].
  assert (Hin : In s (sorted_labels (s :: l))) by (apply sorted_labels_In; now left).
  rewrite H in Hin. destruct Hin.
Qed.

Lemma frame_columns_pivot (rows : list election_row) :
  frame_columns (frame_fillna (pivot (groups_2024 rows))) = pivot_columns rows.
Proof.
  unfold pivot, frame_fillna, pivot_columns.
  destruct (sorted_labels (map (fun g => fst (fst g)) (groups_2024 rows)))
    as [|m idx] eqn:E.
  - apply sorted_labels_nil in E. apply map_eq_nil in E. rewrite E. reflexivity.
  - simpl. rewrite !map_map. simpl. apply map_id.
Qed.

Lemma pivot_table_rows (rows : list election_row) :
  pivot_table rows = map (fun m => (m, pivot_row rows m)) (pivot_index rows).
Proof.
  unfold pivot_table. fold (groups_2024 rows).
  rewrite frame_columns_pivot.
  unfold assign, frame_fillna, pivot. rewrite !map_map.
  apply map_ext. intros m. simpl. unfold pivot_row, pivot_cells.
  rewrite !map_map. reflexivity.
Qed.

Lemma find_tabulate {A : Type} (F : string -> A) (m : string) (l : list string) :
  find (fun r => (fst r =? m)%string) (map (fun x => (x, F x)) l)
  = if in_dec string_dec m l then Some (m, F m) else None.
Proof.
  induction l as [|x l IH]; simpl; [reflexivity|].
  destruct (String.eqb_spec x m) as [-> | Hne].
  - destruct (string_dec m m); [reflexivity | contradiction].
  - rewrite IH. destruct (string_dec x m); [contradiction|].
    destruct (in_dec string_dec m l); reflexivity.
Qed.

Lemma merged_props_hit (rows : list election_row) (m : string) :
  In m (pivot_index rows) ->
  merged_props (pivot_table rows) m = pivot_row rows m.
Proof.
  intros Hin. unfold merged_props. rewrite pivot_table_rows, find_tabulate.
  destruct (in_dec string_dec m (pivot_index rows)); [reflexivity | contradiction].
Qed.

Lemma merged_props_miss (rows : list election_row) (m : string) :
  ~ In m (pivot_index rows) ->
  all_values (eq NaN) (merged_props (pivot_table rows) m).
Proof.
  intros Hin. unfold merged_props. rewrite pivot_table_rows, find_tabulate.
  destruct (in_dec string_dec m (pivot_index rows)); [contradiction|].
  intros kv Hkv. apply in_map_iff in Hkv. destruct Hkv as [c [<- _]]. reflexivity.
Qed.

Lemma pivot_index_In (rows : list election_row) (m : string) :
  In m (pivot_index rows) <-> In m (map moughataa (rows_2024 rows)).
Proof.
  unfold pivot_index. rewrite sorted_labels_In. split.
  - intros H. apply in_map_iff in H. destruct H as [g [<- Hg]].
    assert (Hk : In (fst g) (map fst (groups_2024 rows))) by now apply in_map.
    apply groupby_sum_keys in Hk. apply in_map_iff in Hk.
    destruct Hk as [r [Hr Hin]]. destruct g as [[gm gc] gv]. simpl in *.
    injection Hr as <- <-. now apply in_map.
  - intros H. apply in_map_iff in H. destruct H as [r [<- Hr]].
    assert (Hk : In (moughataa r, candidate r) (map fst (groups_2024 rows))).
    { apply groupby_sum_keys. apply in_map_iff. now exists r. }
    apply in_map_iff in Hk. destruct Hk as [g [Hg Hin]].
    apply in_map_iff. exists g. split; [|exact Hin].
    destruct g as [[gm gc] gv]. simpl in *. now injection Hg as -> ->.
Qed.

Lemma pivot_columns_In (rows : list election_row) (c : string) :
  In c (pivot_columns rows) <-> In c (map candidate (rows_2024 rows)).
Proof.
  unfold pivot_columns. rewrite sorted_labels_In. split.
  - intros H. apply in_map_iff in H. destruct H as [g [<- Hg]].
    assert (Hk : In (fst g) (map fst (groups_2024 rows))) by now apply in_map.
    apply groupby_sum_keys in Hk. apply in_map_iff in Hk.
    destruct Hk as [r [Hr Hin]]. cbv beta. rewrite <- Hr. simpl. now apply in_map.
  - intros H. apply in_map_iff in H. destruct H as [r [<- Hr]].
    assert (Hk : In (moughataa r, candidate r) (map fst (groups_2024 rows))).
    { apply groupby_sum_keys. apply in_map_iff. now exists r. }
    apply in_map_iff in Hk. destruct Hk as [g [Hg Hin]].
    apply in_map_iff. exists g. split; [|exact Hin].
    destruct g as [[gm gc] gv]. simpl in *. now injection Hg as -> ->.
Qed.

Lemma pivot_cells_finite (rows : list election_row) (m : string) :
  all_values is_finite (pivot_cells rows m).
Proof.
  intros kv Hkv. apply in_map_iff in Hkv. destruct Hkv as [c [<- _]]. simpl.
  destruct (group_lookup m c (groups_2024 rows)); exact I.
Qed.

Lemma row_sum_finite (cols : list string) (d : dict) :
  all_values is_finite d ->
  exists q, row_sum cols d = Fin q.
Proof.
  intros Hd. unfold row_sum. apply sum_skipna_finite.
  intros x Hx. apply in_map_iff in Hx. destruct Hx as [c [<- _]].
  unfold get. destruct (dict_get c d) eqn:E; [|now left].
  right. apply dict_get_In in E. exact (Hd _ E).
Qed.




(** ** Column names *)

Lemma pct_ne_total_votes (c : string) : c ++ "_pct" <> "total_votes".
Proof.
  intros H.
  do 11 (destruct c as [|? c]; simpl in H; [discriminate|];
         injection H as Hx H; clear Hx).
  destruct c; discriminate.
Qed.

Lemma length_append (a b : string) :
  String.length (a ++ b) = (String.length a + String.length b)%nat.
Proof. induction a as [|x a IH]; simpl; [reflexivity | now rewrite IH]. Qed.

Lemma append_inj_l (s a b : string) : a ++ s = b ++ s -> a = b.
Proof.
  revert b. induction a as [|x a IH]; intros [|y b] H; simpl in H.
  - reflexivity.
  - exfalso. apply (f_equal String.length) in H. simpl in H.
    rewrite length_append in H. lia.
  - exfalso. apply (f_equal String.length) in H. simpl in H.
    rewrite length_append in H. lia.
  - injection H as -> H. f_equal. now apply IH.
Qed.

(** ** Percentages, one row at a time *)

Lemma row_pcts_get_other (l : list string) (k : string) :
  (forall c, In c l -> c ++ "_pct" <> k) ->
  forall d, dict_get k (row_pcts l d) = dict_get k d.
Proof.
  unfold row_pcts. induction l as [|a l IH]; intros Hl d; simpl.
  - reflexivity.
  - rewrite IH by (intros c Hc; apply Hl; now right).
    unfold row_add_pct. apply dict_get_set_other.
    intros E. apply (Hl a); [now left | now symmetry].
Qed.

Lemma row_pcts_app (l1 l2 : list string) (d : dict) :
  row_pcts (l1 ++ l2) d = row_pcts l2 (row_pcts l1 d).
Proof. unfold row_pcts. apply fold_left_app. Qed.

(** The percentage column of [c] holds the value computed from some
    intermediate state of the row, which agrees with the initial row on
    every column that the loop does not write. *)
Lemma row_pcts_get_pct (l : list string) (d : dict) (c : string) :
  In c l ->
  exists d',
    dict_get (c ++ "_pct") (row_pcts l d) = Some (pct_value c d') /\
    forall k, (forall c', In c' l -> c' ++ "_pct" <> k) ->
              dict_get k d' = dict_get k d.
Proof.
  induction l as [|a l IH] using rev_ind; intros Hin; [destruct Hin|].
  rewrite row_pcts_app. simpl. unfold row_add_pct at 1.
  destruct (string_dec a c) as [-> | Hne].
  - exists (row_pcts l d). split.
    + apply dict_get_set_same.
    + intros k Hk. apply row_pcts_get_other.
      intros c' Hc'. apply Hk. apply in_or_app. now left.
  - apply in_app_or in Hin. destruct Hin as [Hin | [-> | []]]; [|contradiction].
    destruct (IH Hin) as [d' [Hget Hst]].
    exists d'. split.
    + rewrite dict_get_set_other; [exact Hget|].
      intros E. apply Hne. symmetry. exact (append_inj_l _ _ _ E).
    + intros k Hk. apply Hst. intros c' Hc'. apply Hk. apply in_or_app. now left.
Qed.

Lemma row_pcts_all_values (P : num -> Prop) (l : list string) :
  (forall c d, all_values P d -> P (pct_value c d)) ->
  forall d, all_values P d -> all_values P (row_pcts l d).
Proof.
  intros HP. unfold row_pcts. induction l as [|a l IH]; intros d Hd; simpl.
  - exact Hd.
  - apply IH. unfold row_add_pct. apply all_values_set; [exact Hd|].
    now apply HP.
Qed.

Lemma row_select_all_values (P : num -> Prop) (cols : list string) (d : dict) :
  P NaN -> all_values P d -> all_values P (row_select cols d).
Proof.
  intros Hn Hd kv Hkv. apply in_map_iff in Hkv. destruct Hkv as [c [<- _]].
  simpl. now apply all_values_get.
Qed.

Lemma row_sanitize_get (k : string) (d : dict) :
  dict_get k (row_sanitize d)
  = option_map (fun v => fillna0 (replace_inf v)) (dict_get k d).
Proof.
  exact (dict_get_map_values (fun v => fillna0 (replace_inf v)) k d).
Qed.

Lemma row_sanitize_finite (d : dict) : all_values is_finite (row_sanitize d).
Proof.
  intros kv Hkv. apply in_map_iff in Hkv. destruct Hkv as [[k v] [<- _]].
  apply sanitized_finite.
Qed.

Lemma get_of_dict_get (k : string) (d : dict) (v : num) :
  dict_get k d = Some v -> get k d = v.
Proof. intros H. unfold get. now rewrite H. Qed.

(** ** The cleaned row *)

Lemma clean_props_finite (cands : list string) (d : dict) :
  all_values is_finite (clean_props cands d).
Proof. apply row_sanitize_finite. Qed.

Lemma clean_props_total (cands : list string) (d : dict) :
  dict_get "total_votes" (clean_props cands d)
  = Some (fillna0 (replace_inf (get "total_votes" d))).
Proof.
  unfold clean_props. rewrite row_sanitize_get, row_pcts_get_other.
  - unfold row_select. rewrite dict_get_tabulate.
    destruct (in_dec string_dec "total_votes" (cands ++ ["total_votes"])) as [_ | H];
      [reflexivity|].
    exfalso. apply H. apply in_or_app. right. now left.
  - intros c _. apply pct_ne_total_votes.
Qed.

Lemma clean_props_candidate (cands : list string) (d : dict) (c : string) :
  In c cands ->
  (forall c', In c' cands -> c' ++ "_pct" <> c) ->
  dict_get c (clean_props cands d) = Some (fillna0 (replace_inf (get c d))).
Proof.
  intros Hc Hcl. unfold clean_props.
  rewrite row_sanitize_get, row_pcts_get_other by exact Hcl.
  unfold row_select. rewrite dict_get_tabulate.
  destruct (in_dec string_dec c (cands ++ ["total_votes"])) as [_ | H];
    [reflexivity|].
  exfalso. apply H. apply in_or_app. now left.
Qed.

Lemma clean_props_pct (cands : list string) (d : dict) (c : string) :
  In c cands ->
  exists d',
    dict_get (c ++ "_pct") (clean_props cands d)
    = Some (fillna0 (replace_inf (pct_value c d'))) /\
    get "total_votes" d' = get "total_votes" d /\
    ((forall c', In c' cands -> c' ++ "_pct" <> c) -> get c d' = get c d).
Proof.
  intros Hc. unfold clean_props.
  destruct (row_pcts_get_pct cands
              (row_select (cands ++ ["total_votes"]) d) c Hc) as [d' [Hget Hst]].
  exists d'. split; [|split].
  - rewrite row_sanitize_get, Hget. reflexivity.
  - unfold get at 1. rewrite Hst by (intros c' _; apply pct_ne_total_votes).
    unfold row_select. rewrite dict_get_tabulate.
    destruct (in_dec string_dec "total_votes" (cands ++ ["total_votes"])) as [_ | H];
      [reflexivity|].
    exfalso. apply H. apply in_or_app. right. now left.
  - intros Hcl. unfold get at 1. rewrite Hst by exact Hcl.
    unfold row_select. rewrite dict_get_tabulate.
    destruct (in_dec string_dec c (cands ++ ["total_votes"])) as [_ | H];
      [reflexivity|].
    exfalso. apply H. apply in_or_app. now left.
Qed.

(** A column selected from the merged frame is still there, whatever the
    percentage loop overwrote. *)
Lemma clean_props_has_column (cands : list string) (d : dict) (c : string) :
  In c (cands ++ ["total_votes"]) ->
  exists v, dict_get c (clean_props cands d) = Some v.
Proof.
  intros Hc. unfold clean_props. rewrite row_sanitize_get.
  assert (G : forall l d0, (exists v, dict_get c d0 = Some v) ->
                           exists v, dict_get c (row_pcts l d0) = Some v).
  { unfold row_pcts. induction l as [|a l IH]; intros d0 H0; simpl; [exact H0|].
    apply IH. unfold row_add_pct.
    destruct (string_dec c (a ++ "_pct")) as [-> | Hne].
    - eexists. apply dict_get_set_same.
    - rewrite dict_get_set_other by exact Hne. exact H0. }
  destruct (G cands (row_select (cands ++ ["total_votes"]) d)) as [v Hv].
  - unfold row_select. rewrite dict_get_tabulate.
    destruct (in_dec string_dec c (cands ++ ["total_votes"])); [eauto | contradiction].
  - rewrite Hv. simpl. eauto.
Qed.


(** ** [max(d, key=d.get)] *)

Lemma num_gtb_true (a b : Q) : num_gtb (Fin a) (Fin b) = true -> b < a.
Proof.
  simpl. intros H. apply negb_true_iff in H.
  destruct (Qlt_le_dec b a) as [Hlt | Hle]; [exact Hlt|].
  apply Qle_bool_iff in Hle. congruence.
Qed.

Lemma num_gtb_false (a b : Q) : num_gtb (Fin a) (Fin b) = false -> a <= b.
Proof.
  simpl. intros H. apply negb_false_iff in H. now apply Qle_bool_iff.
Qed.

Lemma max_from_spec (key : string -> num) (rest : list string) :
  forall best before mid,
    (forall c, In c (before ++ best :: mid ++ rest) -> is_finite (key c)) ->
    (forall c, In c before -> num_lt (key c) (key best)) ->
    (forall c, In c mid -> num_le (key c) (key best)) ->
    exists before' after',
      (before ++ best :: mid ++ rest
       = before' ++ max_from key best rest :: after')%list /\
      (forall c, In c before' -> num_lt (key c) (key (max_from key best rest))) /\
      (forall c, In c after' -> num_le (key c) (key (max_from key best rest))).
Proof.
  induction rest as [|x rest IH]; intros best before mid Hfin Hlt Hle.
  - exists before, mid. rewrite app_nil_r. simpl. auto.
  - simpl.
    assert (Fb : is_finite (key best)).
    { apply Hfin. apply in_or_app. right. now left. }
    assert (Fx : is_finite (key x)).
    { apply Hfin. apply in_or_app. right. right. apply in_or_app. right. now left. }
    destruct (key best) as [b| | |] eqn:Eb; try contradiction.
    destruct (key x) as [a| | |] eqn:Ex; try contradiction.
    destruct (num_gtb (Fin a) (Fin b)) eqn:G.
    + apply num_gtb_true in G.
      destruct (IH x (before ++ best :: mid)%list []) as (b' & a' & E & H1 & H2).
      * intros c Hc. apply Hfin. rewrite <- app_assoc in Hc. simpl in Hc.
        exact Hc.
      * intros c Hc. rewrite Ex.
        apply in_app_or in Hc. destruct Hc as [Hc | [<- | Hc]].
        -- specialize (Hlt c Hc). destruct (key c); simpl in *; try contradiction.
           lra.
        -- rewrite Eb. simpl. exact G.
        -- specialize (Hle c Hc). destruct (key c); simpl in *; try contradiction.
           lra.
      * intros c [].
      * exists b', a'. split; [|split; assumption].
        rewrite <- E. rewrite <- !app_assoc. reflexivity.
    + apply num_gtb_false in G.
      destruct (IH best before (mid ++ [x])%list) as (b' & a' & E & H1 & H2).
      * intros c Hc. apply Hfin. rewrite <- app_assoc in Hc. exact Hc.
      * intros c Hc. rewrite Eb. specialize (Hlt c Hc). exact Hlt.
      * intros c Hc. rewrite Eb. apply in_app_or in Hc.
        destruct Hc as [Hc | [<- | []]].
        -- exact (Hle c Hc).
        -- rewrite Ex. simpl. exact G.
      * exists b', a'. split; [|split; assumption].
        rewrite <- E. rewrite <- !app_assoc. reflexivity.
Qed.

Lemma py_max_key_spec (d : dict) (g : string) :
  py_max_key d = inr g ->
  (forall c, In c (map fst d) -> is_finite (get c d)) ->
  exists before after,
    (map fst d = before ++ g :: after)%list /\
    (forall c, In c before -> num_lt (get c d) (get g d)) /\
    (forall c, In c after -> num_le (get c d) (get g d)).
Proof.
  unfold py_max_key. destruct (map fst d) as [|k rest] eqn:E; [discriminate|].
  intros [= <-] Hfin.
  destruct (max_from_spec (fun c => get c d) rest k [] []) as (b & a & E' & H1 & H2).
  - simpl. exact Hfin.
  - intros c [].
  - intros c [].
  - exists b, a. simpl in E'. auto.
Qed.

Lemma py_max_key_empty (d : dict) :
  map fst d = [] ->
  py_max_key d = inl (ValueError "max() arg is an empty sequence").
Proof. unfold py_max_key. now intros ->. Qed.

Lemma py_max_key_nonempty (d : dict) (g : string) :
  py_max_key d = inr g -> d <> [].
Proof. unfold py_max_key. destruct d; [discriminate | discriminate]. Qed.


(** ** The prepared table *)

Section Prepared.

Context {geometry : Type} (to_crs : option (geometry -> geometry)).
Implicit Types (gdf : list (string * geometry)) (rows : list election_row).
Implicit Types (p : prepared geometry) (f : feature geometry).

Lemma candidats_pivot_columns gdf rows p :
  data_preparation to_crs gdf rows = inr p ->
  candidats p = pivot_columns rows.
Proof.
  intros H. destruct (data_preparation_inv to_crs gdf rows p H) as (_ & Hc & _).
  rewrite Hc. apply frame_columns_pivot.
Qed.

(** Each row of the prepared table comes from one row of the geometry. *)
Lemma gdf_clean_rows gdf rows p f :
  data_preparation to_crs gdf rows = inr p ->
  In f (gdf_clean p) ->
  exists g, In g gdf /\
    feat_moughataa f = fst g /\
    (exists reproject,
       to_crs = Some reproject /\ feat_geometry f = reproject (snd g)) /\
    feat_props f
    = clean_props (candidats p) (merged_props (pivot_table rows) (fst g)).
Proof.
  intros H Hf.
  destruct (data_preparation_inv to_crs gdf rows p H)
    as (_ & _ & _ & _ & reproject & Hcrs & Hg).
  rewrite Hg in Hf. apply in_map_iff in Hf. destruct Hf as [g [<- Hin]].
  exists g. repeat split; [exact Hin|]. exists reproject. split; [exact Hcrs|].
  reflexivity.
Qed.


(** The column of a candidate in the prepared table, from the rows of
    the geometry. *)
Lemma gdf_clean_column gdf rows p c :
  data_preparation to_crs gdf rows = inr p ->
  geo_column c (gdf_clean p)
  = map (fun m => get c (clean_props (candidats p)
                           (merged_props (pivot_table rows) m)))
        (map fst gdf).
Proof.
  intros H.
  destruct (data_preparation_inv to_crs gdf rows p H)
    as (_ & _ & _ & _ & reproject & _ & Hg).
  rewrite Hg. unfold geo_column. rewrite !map_map. reflexivity.
Qed.

(** C10.  After preparation every value of the prepared table outside
    the geometry and the region name is a finite float: each cell of
    each row, and in particular the count and the percentage of every
    candidate and the total of the row, which are all present. *)
Theorem prepared_values_finite gdf rows p f :
  data_preparation to_crs gdf rows = inr p ->
  In f (gdf_clean p) ->
  (forall kv, In kv (feat_props f) -> is_finite (snd kv)) /\
  (exists t, dict_get "total_votes" (feat_props f) = Some (Fin t)) /\
  forall c, In c (candidats p) ->
    (exists x, dict_get c (feat_props f) = Some (Fin x)) /\
    (exists x, dict_get (c ++ "_pct") (feat_props f) = Some (Fin x)).
Proof.
  intros H Hf.
  destruct (gdf_clean_rows gdf rows p f H Hf) as (g & _ & _ & _ & Hp).
  rewrite Hp.
  set (d := merged_props (pivot_table rows) (fst g)).
  pose proof (clean_props_finite (candidats p) d) as Hfin.
  assert (K : forall k v, dict_get k (clean_props (candidats p) d) = Some v ->
                          exists x, v = Fin x).
  { intros k v E. apply dict_get_In in E. apply Hfin in E. simpl in E.
    destruct v; try contradiction. eauto. }
  split; [exact Hfin | split].
  - destruct (clean_props_has_column (candidats p) d "total_votes") as [v Hv].
    { apply in_or_app. right. now left. }
    destruct (K _ _ Hv) as [x ->]. eauto.
  - intros c Hc. split.
    + destruct (clean_props_has_column (candidats p) d c) as [v Hv].
      { apply in_or_app. now left. }
      destruct (K _ _ Hv) as [x ->]. eauto.
    + destruct (clean_props_pct (candidats p) d c Hc) as (d' & Hv & _).
      destruct (K _ _ Hv) as [x Hx]. rewrite Hv, Hx. eauto.
Qed.


(** *** National totals *)



Lemma totaux_nationaux_get gdf rows p c :
  data_preparation to_crs gdf rows = inr p ->
  In c (candidats p) ->
  get c (totaux_nationaux p) = sum_skipna (column c (pivot_table rows)).
Proof.
  intros H Hc.
  destruct (data_preparation_inv to_crs gdf rows p H) as (_ & _ & Ht & _).
  rewrite Ht.
  exact (get_tabulate (fun c => sum_skipna (column c (pivot_table rows))) c _ Hc).
Qed.

Lemma totaux_nationaux_keys gdf rows p :
  data_preparation to_crs gdf rows = inr p ->
  map fst (totaux_nationaux p) = candidats p.
Proof.
  intros H.
  destruct (data_preparation_inv to_crs gdf rows p H) as (_ & _ & Ht & _).
  rewrite Ht at 1. rewrite map_map. simpl. apply map_id.
Qed.



(** *** When preparation succeeds and when it raises *)

Lemma rows_2024_nil rows :
  (forall r, In r rows -> year r <> 2024%Z) -> rows_2024 rows = [].
Proof.
  intros H. unfold rows_2024. induction rows as [|r rows IH]; simpl.
  - reflexivity.
  - destruct (Z.eqb_spec (year r) 2024) as [E | _].
    + exfalso. apply (H r); [now left | exact E].
    + apply IH. intros r' Hr'. apply H. now right.
Qed.

(** C3 (amended).  When no row of the results is of the year 2024, the
    filter, the aggregation and the pivot go through without any check
    and give a table without rows, but the preparation does not return
    it: choosing the leader among no candidate raises [ValueError], and
    so does the whole of [styled_election_map]. *)
Theorem no_row_for_the_year gdf rows :
  (forall r, In r rows -> year r <> 2024%Z) ->
  rows_2024 rows = [] /\
  pivot_table rows = [] /\
  data_preparation to_crs gdf rows
  = inl (ValueError "max() arg is an empty sequence") /\
  styled_election_map to_crs gdf rows
  = inl (ValueError "max() arg is an empty sequence").
Proof.
  intros H. pose proof (rows_2024_nil rows H) as E.
  assert (Hp : data_preparation to_crs gdf rows
               = inl (ValueError "max() arg is an empty sequence")).
  { unfold data_preparation. fold (rows_2024 rows). rewrite E. reflexivity. }
  repeat split.
  - exact E.
  - unfold pivot_table. rewrite E. reflexivity.
  - exact Hp.
  - unfold styled_election_map. rewrite Hp. reflexivity.
Qed.

(** *** The left merge *)





(** *** The order of the result rows *)

Lemma filter_perm {A : Type} (f : A -> bool) (l l' : list A) :
  Permutation l l' -> Permutation (filter f l) (filter f l').
Proof.
  induction 1 as [| x l l' _ IH | x y l | l1 l2 l3 _ IH1 _ IH2]; simpl.
  - constructor.
  - destruct (f x); [now constructor | exact IH].
  - destruct (f x), (f y); try reflexivity. constructor.
  - now transitivity (filter f l2).
Qed.

(** C8.  Preparation is a function of its inputs and of nothing else:
    on the same geometry, two results sources with the same rows give
    the same outcome (the same table, rows, columns, values and order,
    or the same error), even when the rows come in a different order:
    the aggregation sorts its groups and the sums do not depend on the
    order of the addends. *)
Theorem preparation_is_deterministic gdf rows rows' :
  Permutation rows rows' ->
  data_preparation to_crs gdf rows = data_preparation to_crs gdf rows'.
Proof.
  intros H. unfold data_preparation.
  rewrite (groupby_sum_perm _ _
             (filter_perm (fun r => (year r =? 2024)%Z) rows rows' H)).
  reflexivity.
Qed.

End Prepared.

(** ** Sums of rationals *)

Lemma Qsum_ext {A : Type} (f g : A -> Q) (l : list A) :
  (forall c, In c l -> f c == g c) ->
  Qsum (map f l) == Qsum (map g l).
Proof.
  induction l as [|c l IH]; intros H; simpl; [reflexivity|].
  rewrite (H c (or_introl eq_refl)), IH; [reflexivity|].
  intros c' Hc'. apply H. now right.
Qed.

Lemma Qsum_scale {A : Type} (x : A -> Q) (k : Q) (l : list A) :
  Qsum (map (fun c => x c * k) l) == Qsum (map x l) * k.
Proof.
  induction l as [|c l IH]; simpl; [lra|]. rewrite IH. lra.
Qed.

Lemma Qsum_bound {A : Type} (f g : A -> Q) (e : Q) (l : list A) :
  (forall c, In c l -> Qabs (f c - g c) <= e) ->
  Qabs (Qsum (map f l) - Qsum (map g l))
  <= inject_Z (Z.of_nat (List.length l)) * e.
Proof.
  induction l as [|c l IH]; intros H.
  - cbn [List.length map Qsum]. change (inject_Z (Z.of_nat 0)) with 0.
    apply Qabs_Qle_condition. split; lra.
  - pose proof (H c (or_introl eq_refl)) as Hc.
    assert (Hl : forall c', In c' l -> Qabs (f c' - g c') <= e)
      by (intros c' Hc'; apply H; now right).
    specialize (IH Hl).
    apply Qabs_Qle_condition in Hc. apply Qabs_Qle_condition in IH.
    cbn [List.length map Qsum]. rewrite Nat2Z.inj_succ, <- Z.add_1_r, inject_Z_plus.
    change (inject_Z 1) with 1.
    apply Qabs_Qle_condition. split; lra.
Qed.


Lemma Qsum_inject_Z {A : Type} (f : A -> Z) (L : list A) :
  Qsum (map (fun x => inject_Z (f x)) L) == inject_Z (Zsum (map f L)).
Proof.
  induction L as [|x L IH]; simpl; [reflexivity|].
  rewrite IH, inject_Z_plus. reflexivity.
Qed.


(** ** Groups are sorted by key *)

Lemma klt_irrefl (a : group_key) : ~ klt a a.
Proof. unfold klt. rewrite key_compare_refl. discriminate. Qed.

Lemma add_to_group_sorted (k : group_key) (v : Z) (l : list (group_key * Z)) :
  StronglySorted klt (map fst l) ->
  StronglySorted klt (map fst (add_to_group k v l)).
Proof.
  induction l as [|[k' s] l IH]; simpl; intros H.
  - constructor; constructor.
  - inversion H as [|? ? Hl Hk]; subst.
    destruct (key_compare k k') eqn:E; simpl.
    + constructor; assumption.
    + constructor; [exact H|].
      constructor; [exact E|].
      rewrite Forall_forall in *. intros z Hz.
      exact (key_compare_lt_trans _ _ _ E (Hk z Hz)).
    + constructor; [now apply IH|].
      rewrite Forall_forall in *. intros z Hz.
      apply add_to_group_keys in Hz. destruct Hz as [-> | Hz].
      * now apply key_compare_gt.
      * now apply Hk.
Qed.

Lemma groupby_sum_sorted (rows : list election_row) :
  StronglySorted klt (map fst (groupby_sum rows)).
Proof.
  unfold groupby_sum.
  assert (H : StronglySorted klt (map fst (@nil (group_key * Z)))) by constructor.
  revert H. generalize (@nil (group_key * Z)).
  induction rows as [|r rows IH]; intros acc H; simpl.
  - exact H.
  - apply IH, add_to_group_sorted, H.
Qed.

Lemma group_lookup_absent (m c : string) (l : list (group_key * Z)) :
  ~ In (m, c) (map fst l) -> group_lookup m c l = None.
Proof.
  induction l as [|[[m' c'] s] l IH]; simpl; intros H; [reflexivity|].
  destruct (String.eqb_spec m' m) as [-> | Hm]; simpl.
  - destruct (String.eqb_spec c' c) as [-> | Hc].
    + exfalso. apply H. now left.
    + apply IH. intros Hin. apply H. now right.
  - apply IH. intros Hin. apply H. now right.
Qed.


(** ** Splitting a count by region or by candidate *)

Lemma Zsum_indicator (k : string) (v : Z) (L : list string) :
  NoDup L ->
  Zsum (map (fun x => if (k =? x)%string then v else 0%Z) L)
  = if in_dec string_dec k L then v else 0%Z.
Proof.
  induction 1 as [|x L Hx HL IH]; simpl; [reflexivity|].
  rewrite IH.
  destruct (String.eqb_spec k x) as [-> | Hne].
  - destruct (string_dec x x); [|contradiction].
    destruct (in_dec string_dec x L); [contradiction | lia].
  - destruct (string_dec x k); [congruence|].
    destruct (in_dec string_dec k L); lia.
Qed.

Lemma Zsum_map_add {A : Type} (f g : A -> Z) (L : list A) :
  Zsum (map (fun x => (f x + g x)%Z) L) = (Zsum (map f L) + Zsum (map g L))%Z.
Proof. induction L as [|x L IH]; simpl; lia. Qed.


(** ** Sums of counts *)

Lemma Zsum_map_le {A : Type} (f g : A -> Z) (L : list A) :
  (forall x, In x L -> (f x <= g x)%Z) ->
  (Zsum (map f L) <= Zsum (map g L))%Z.
Proof.
  induction L as [|x L IH]; intros H; simpl; [lia|].
  assert (f x <= g x)%Z by (apply H; now left).
  assert (Zsum (map f L) <= Zsum (map g L))%Z
    by (apply IH; intros y Hy; apply H; now right).
  lia.
Qed.

Lemma Zsum_map_ext {A : Type} (f g : A -> Z) (L : list A) :
  (forall x, In x L -> f x = g x) -> Zsum (map f L) = Zsum (map g L).
Proof.
  intros H. f_equal. apply map_ext_in. exact H.
Qed.

(** Summing, over a list [L] of distinct labels that has the label of
    every selected row, the weight of the selected rows of each label
    gives the weight of the selected rows. *)
Lemma weight_where_split (w : election_row -> Z) (key : election_row -> string)
  (P : election_row -> bool) (L : list string) (rows : list election_row) :
  NoDup L ->
  (forall r, In r rows -> P r = true -> In (key r) L) ->
  Zsum (map (fun x => weight_where w (fun r => P r && (key r =? x)%string) rows) L)
  = weight_where w P rows.
Proof.
  intros HL. unfold weight_where.
  induction rows as [|r rows IH]; intros Hcov.
  - simpl. induction L as [|x L IHL]; simpl; [reflexivity|].
    inversion HL; subst. now rewrite IHL.
  - assert (Hrows : forall r', In r' rows -> P r' = true -> In (key r') L)
      by (intros r' Hr'; apply Hcov; now right).
    specialize (IH Hrows).
    rewrite (map_ext _
      (fun x => ((if (key r =? x)%string then (if P r then w r else 0) else 0)
                 + Zsum (map w
                      (filter (fun r0 => P r0 && (key r0 =? x)%string) rows)))%Z)).
    + rewrite Zsum_map_add, IH, Zsum_indicator by exact HL.
      simpl. destruct (P r) eqn:EP; simpl.
      * destruct (in_dec string_dec (key r) L) as [_ | Hn]; [reflexivity|].
        exfalso. apply Hn, Hcov; [now left | exact EP].
      * destruct (in_dec string_dec (key r) L); reflexivity.
    + intros x. simpl. destruct (P r); simpl;
        destruct (key r =? x)%string; simpl; lia.
Qed.

Lemma weight_where_ext (w : election_row -> Z) (P Q : election_row -> bool)
  (rows : list election_row) :
  (forall r, P r = Q r) -> weight_where w P rows = weight_where w Q rows.
Proof.
  intros H. unfold weight_where. now rewrite (filter_ext P Q H).
Qed.

Lemma weight_where_nonneg (w : election_row -> Z) (P : election_row -> bool)
  (rows : list election_row) :
  (forall r, In r rows -> (0 <= w r)%Z) ->
  (0 <= weight_where w P rows)%Z.
Proof.
  unfold weight_where. induction rows as [|r rows IH]; intros H; simpl; [lia|].
  assert (0 <= w r)%Z by (apply H; now left).
  assert (IH' : (0 <= Zsum (map w (filter P rows)))%Z)
    by (apply IH; intros r' Hr'; apply H; now right).
  destruct (P r); simpl; lia.
Qed.

Lemma weight_where_le (w : election_row -> Z) (P Q : election_row -> bool)
  (rows : list election_row) :
  (forall r, In r rows -> (0 <= w r)%Z) ->
  (forall r, P r = true -> Q r = true) ->
  (weight_where w P rows <= weight_where w Q rows)%Z.
Proof.
  unfold weight_where. intros H HPQ.
  induction rows as [|r rows IH]; simpl; [lia|].
  assert (0 <= w r)%Z by (apply H; now left).
  assert (IH' : (Zsum (map w (filter P rows))
                 <= Zsum (map w (filter Q rows)))%Z)
    by (apply IH; intros r' Hr'; apply H; now right).
  destruct (P r) eqn:EP.
  - rewrite (HPQ r EP). simpl. lia.
  - destruct (Q r); simpl; lia.
Qed.

Lemma votes_where_nonneg (P : election_row -> bool) (rows : list election_row) :
  (forall r, In r rows -> (0 <= nb_votes r)%Z) ->
  (0 <= votes_where P rows)%Z.
Proof. apply weight_where_nonneg. Qed.

Lemma votes_where_le (P Q : election_row -> bool) (rows : list election_row) :
  (forall r, In r rows -> (0 <= nb_votes r)%Z) ->
  (forall r, P r = true -> Q r = true) ->
  (votes_where P rows <= votes_where Q rows)%Z.
Proof. apply weight_where_le. Qed.

Lemma size_where_le (P Q : election_row -> bool) (rows : list election_row) :
  (forall r, P r = true -> Q r = true) ->
  (size_where P rows <= size_where Q rows)%Z.
Proof. apply weight_where_le. intros r _. lia. Qed.

Lemma size_where_nonneg (P : election_row -> bool) (rows : list election_row) :
  (0 <= size_where P rows)%Z.
Proof. apply weight_where_nonneg. intros r _. lia. Qed.

(** The size bounds the votes. *)
Lemma votes_where_size (P : election_row -> bool) (rows : list election_row) :
  (Z.abs (votes_where P rows) <= size_where P rows)%Z.
Proof.
  unfold votes_where, size_where, weight_where.
  induction rows as [|r rows IH]; simpl; [lia|].
  destruct (P r); simpl; lia.
Qed.

Lemma size_where_all (P : election_row -> bool) (rows : list election_row) :
  (size_where P rows <= size_where (fun _ => true) rows)%Z.
Proof. apply size_where_le. reflexivity. Qed.

(** The sizes of the votes of each label of [L] stay within the size of
    all the votes. *)
Lemma votes_split_size (key : election_row -> string)
  (P : election_row -> bool) (L : list string) (rows : list election_row) :
  NoDup L ->
  (forall r, In r rows -> P r = true -> In (key r) L) ->
  (Zsum (map (fun x => Z.abs (votes_where
                                 (fun r => P r && (key r =? x)%string) rows)) L)
   <= size_where (fun _ => true) rows)%Z.
Proof.
  intros HL Hcov.
  apply Z.le_trans with (size_where P rows); [|apply size_where_all].
  unfold size_where. rewrite <- (weight_where_split _ key P L rows HL Hcov).
  apply Zsum_map_le. intros x _. apply votes_where_size.
Qed.

Lemma votes_of_absent (rows : list election_row) (m c : string) :
  ~ In m (map moughataa rows) -> votes_of rows m c = 0%Z.
Proof.
  unfold votes_of, votes_where, weight_where. intros H.
  induction rows as [|r rows IH]; simpl; [reflexivity|].
  destruct (String.eqb_spec (moughataa r) m) as [E | _]; simpl.
  - exfalso. apply H. left. exact E.
  - apply IH. intros Hin. apply H. now right.
Qed.

Lemma votes_in_absent_region (rows : list election_row) (m : string) :
  ~ In m (map moughataa rows) ->
  votes_where (fun r => (moughataa r =? m)%string) rows = 0%Z.
Proof.
  unfold votes_where, weight_where. intros Hno.
  induction rows as [|r rs IH]; simpl; [reflexivity|].
  destruct (String.eqb_spec (moughataa r) m) as [E | _].
  - exfalso. apply Hno. left. exact E.
  - apply IH. intros Hin. apply Hno. now right.
Qed.

(** ** The sum of a group

    While the counts of a group add up to less than [2^63] in size, the
    64-bit sum of the group is the sum of its counts. *)

Lemma lookup0_add (m c : string) (k : group_key) (v : Z)
  (l : list (group_key * Z)) :
  StronglySorted klt (map fst l) ->
  (((fst k =? m) && (snd k =? c))%string = true ->
   (Z.abs (lookup0 m c l + v) < 2 ^ 63)%Z) ->
  lookup0 m c (add_to_group k v l)
  = (lookup0 m c l
     + if ((fst k =? m) && (snd k =? c))%string then v else 0)%Z.
Proof.
  unfold lookup0.
  induction l as [|[[m' c'] s] l IH]; intros Hs Hb.
  - destruct k as [km kc]. simpl.
    destruct ((km =? m) && (kc =? c))%string; lia.
  - inversion Hs as [|? ? Hl Hk]; subst. cbn [add_to_group].
    destruct (key_compare k (m', c')) eqn:E.
    + apply key_compare_eq in E. subst k. cbn [group_lookup fst snd] in *.
      destruct ((m' =? m) && (c' =? c))%string; [|lia].
      apply wrap64_small. now apply Hb.
    + destruct k as [km kc]. cbn [group_lookup fst snd].
      destruct ((km =? m) && (kc =? c))%string eqn:Ek; [|lia].
      apply andb_true_iff in Ek. destruct Ek as [E1 E2].
      apply String.eqb_eq in E1, E2. subst km kc.
      assert (Hne : ((m' =? m) && (c' =? c))%string = false).
      { destruct ((m' =? m) && (c' =? c))%string eqn:E'; [|reflexivity].
        apply andb_true_iff in E'. destruct E' as [E1 E2].
        apply String.eqb_eq in E1, E2. subst m' c'.
        exfalso. exact (klt_irrefl _ E). }
      rewrite Hne.
      rewrite (group_lookup_absent m c l); [lia|].
      intros Hin. rewrite Forall_forall in Hk.
      exact (klt_irrefl _ (key_compare_lt_trans _ _ _ E (Hk _ Hin))).
    + cbn [group_lookup].
      destruct ((m' =? m) && (c' =? c))%string eqn:E'.
      * apply andb_true_iff in E'. destruct E' as [E1 E2].
        apply String.eqb_eq in E1, E2. subst m' c'.
        destruct k as [km kc]. cbn [fst snd].
        destruct ((km =? m) && (kc =? c))%string eqn:Ek; [|lia].
        apply andb_true_iff in Ek. destruct Ek as [E1 E2].
        apply String.eqb_eq in E1, E2. subst km kc.
        rewrite key_compare_refl in E. discriminate.
      * apply IH; [exact Hl|]. intros Ek. specialize (Hb Ek).
        cbn [group_lookup] in Hb. rewrite E' in Hb. exact Hb.
Qed.

Lemma lookup0_groupby_sum (rows : list election_row) (m c : string) :
  (size_where (fun r => (moughataa r =? m)%string && (candidate r =? c)%string)
              rows < 2 ^ 63)%Z ->
  lookup0 m c (groupby_sum rows) = votes_of rows m c.
Proof.
  unfold groupby_sum, votes_of, votes_where, size_where, weight_where.
  set (P := fun r => (moughataa r =? m)%string && (candidate r =? c)%string).
  assert (G : forall acc,
    StronglySorted klt (map fst acc) ->
    (Z.abs (lookup0 m c acc)
     + Zsum (map (fun r => Z.abs (nb_votes r)) (filter P rows)) < 2 ^ 63)%Z ->
    lookup0 m c (fold_left
      (fun groups r => add_to_group (moughataa r, candidate r) (nb_votes r) groups)
      rows acc)
    = (lookup0 m c acc + Zsum (map nb_votes (filter P rows)))%Z).
  { induction rows as [|r rows IH]; intros acc Hs Hb.
    - simpl. lia.
    - assert (Hpos : (0 <= Zsum (map (fun r => Z.abs (nb_votes r))
                                     (filter P rows)))%Z).
      { clear. induction rows as [|x l IHl]; simpl; [lia|].
        destruct (P x); simpl; lia. }
      cbn [fold_left filter] in *.
      assert (Hadd : lookup0 m c (add_to_group (moughataa r, candidate r)
                                     (nb_votes r) acc)
                     = (lookup0 m c acc
                        + if P r then nb_votes r else 0)%Z).
      { apply lookup0_add; [exact Hs|]. cbn [fst snd]. fold (P r). intros E.
        rewrite E in Hb. simpl in Hb. lia. }
      rewrite IH.
      + rewrite Hadd. destruct (P r); simpl; lia.
      + now apply add_to_group_sorted.
      + rewrite Hadd. destruct (P r); simpl in Hb; lia. }
  intros Hb. rewrite G; [reflexivity | constructor | simpl; exact Hb].
Qed.
(** ** Percentages of one row *)

Lemma pct_of_empty_total (w t : num) :
  (t = NaN \/ exists q, t = Fin q /\ q == 0) ->
  fillna0 (replace_inf (round2 (num_mul (num_div w t) (Fin 100)))) = Fin 0.
Proof.
  intros [-> | [q [-> Hq]]].
  - destruct w; reflexivity.
  - destruct w as [a| | |]; simpl.
    + apply Qeq_bool_iff in Hq. rewrite Hq.
      unfold Qsign. destruct (a ?= 0); reflexivity.
    + destruct (Qle_bool 0 q); reflexivity.
    + destruct (Qle_bool 0 q); reflexivity.
    + reflexivity.
Qed.


(** The percentage of a count in a total that is not smaller. *)
Lemma pct_of_counts (x t : Q) :
  0 <= x -> x <= t -> 0 < t ->
  exists r,
    fillna0 (replace_inf (round2 (num_mul (num_div (Fin x) (Fin t)) (Fin 100))))
    = Fin r /\
    0 <= r <= 100 /\
    Qabs (r - x / t * 100) <= pct_tolerance.
Proof.
  intros Hx Hxt Ht. simpl.
  destruct (Qeq_bool t 0) eqn:E.
  - exfalso. apply Qeq_bool_iff in E. lra.
  - simpl. eexists. split; [reflexivity|]. exact (pct_error x t Hx Hxt Ht).
Qed.

(** ** The cells of the table when the counts are in range *)

Lemma pivot_row_get_cells (rows : list election_row) (m c : string) :
  c <> "total_votes" ->
  get c (pivot_row rows m) = get c (pivot_cells rows m).
Proof. intros H. unfold pivot_row. now apply get_set_other. Qed.

Lemma whole_zero : whole (Fin 0) 0.
Proof. exists 0. split; reflexivity. Qed.

Lemma whole_eq (x y : num) (z : Z) : whole x z -> whole y z -> num_eq x y.
Proof.
  intros [p [-> Hp]] [q [-> Hq]]. simpl. now rewrite Hp, Hq.
Qed.

Lemma whole_sanitized (x : num) (z : Z) :
  whole x z -> fillna0 (replace_inf x) = x.
Proof. intros [q [-> _]]. reflexivity. Qed.

Section InRange.

Variable rows : list election_row.
Hypothesis Hrange : counts_in_range rows.

Lemma size_in_range (P : election_row -> bool) :
  (size_where P (rows_2024 rows) < 2 ^ 53)%Z.
Proof.
  pose proof (size_where_all P (rows_2024 rows)). unfold counts_in_range in Hrange.
  lia.
Qed.

Lemma votes_in_range (P : election_row -> bool) :
  (Z.abs (votes_where P (rows_2024 rows)) < 2 ^ 53)%Z.
Proof.
  pose proof (votes_where_size P (rows_2024 rows)).
  pose proof (size_in_range P). lia.
Qed.

Lemma lookup0_groups_2024 (m c : string) :
  lookup0 m c (groups_2024 rows) = votes_of (rows_2024 rows) m c.
Proof.
  apply lookup0_groupby_sum.
  pose proof (size_in_range
                (fun r => (moughataa r =? m)%string && (candidate r =? c)%string)).
  lia.
Qed.

(** The cell of the pivot for region [m] and candidate [c]. *)
Lemma pivot_cells_whole (m c : string) :
  In c (pivot_columns rows) ->
  exists x,
    dict_get c (pivot_cells rows m) = Some x /\
    whole x (votes_of (rows_2024 rows) m c).
Proof.
  intros Hc. unfold pivot_cells.
  rewrite (dict_get_tabulate
             (fun c => fillna0 (match group_lookup m c (groups_2024 rows) with
                                | Some v => of_int v
                                | None => NaN
                                end))).
  destruct (in_dec string_dec c (pivot_columns rows)); [|contradiction].
  eexists. split; [reflexivity|].
  rewrite <- lookup0_groups_2024. unfold lookup0.
  destruct (group_lookup m c (groups_2024 rows)) as [v|] eqn:E.
  - simpl. apply of_int_whole.
    assert (Ev : v = votes_of (rows_2024 rows) m c).
    { rewrite <- lookup0_groups_2024. unfold lookup0. now rewrite E. }
    rewrite Ev. apply votes_in_range.
  - exact whole_zero.
Qed.

Lemma pivot_cells_get_whole (m c : string) :
  In c (pivot_columns rows) ->
  whole (get c (pivot_cells rows m)) (votes_of (rows_2024 rows) m c).
Proof.
  intros Hc. destruct (pivot_cells_whole m c Hc) as [x [Ex Hx]].
  now rewrite (get_of_dict_get _ _ _ Ex).
Qed.

(** The total of a row of the pivot. *)
Lemma pivot_row_total_whole (m : string) :
  exists T,
    dict_get "total_votes" (pivot_row rows m) = Some T /\
    whole T (votes_where (fun r => (moughataa r =? m)%string) (rows_2024 rows)).
Proof.
  unfold pivot_row. rewrite dict_get_set_same. eexists. split; [reflexivity|].
  unfold row_sum.
  assert (E : Zsum (map (fun c => votes_of (rows_2024 rows) m c)
                        (pivot_columns rows))
              = votes_where (fun r => (moughataa r =? m)%string)
                            (rows_2024 rows)).
  { apply (weight_where_split nb_votes candidate
             (fun r => (moughataa r =? m)%string)).
    - apply sorted_labels_NoDup.
    - intros r Hr _. apply pivot_columns_In. now apply in_map. }
  rewrite <- E.
  apply (sum_skipna_whole
           (fun c => get c (pivot_cells rows m))
           (fun c => votes_of (rows_2024 rows) m c)).
  - intros c Hc. now apply pivot_cells_get_whole.
  - eapply Z.le_lt_trans; [|exact Hrange].
    apply (votes_split_size candidate (fun r => (moughataa r =? m)%string)).
    + apply sorted_labels_NoDup.
    + intros r Hr _. apply pivot_columns_In. now apply in_map.
Qed.

(** The votes of a candidate, region by region. *)
Lemma votes_of_swap (m c : string) :
  votes_of (rows_2024 rows) m c
  = votes_where (fun r => (candidate r =? c)%string && (moughataa r =? m)%string)
                (rows_2024 rows).
Proof.
  unfold votes_of, votes_where. apply weight_where_ext. intros r.
  apply andb_comm.
Qed.

(** The national total of a candidate. *)
Lemma national_total_whole (c : string) :
  In c (pivot_columns rows) ->
  c <> "total_votes" ->
  whole (sum_skipna (column c (pivot_table rows)))
        (votes_where (fun r => (candidate r =? c)%string) (rows_2024 rows)).
Proof.
  intros Hc Hne.
  rewrite pivot_table_rows. unfold column. rewrite !map_map. cbn [snd].
  assert (E : Zsum (map (fun m => votes_where
                                    (fun r => (candidate r =? c)%string
                                              && (moughataa r =? m)%string)
                                    (rows_2024 rows))
                        (pivot_index rows))
              = votes_where (fun r => (candidate r =? c)%string)
                            (rows_2024 rows)).
  { apply (weight_where_split nb_votes moughataa
             (fun r => (candidate r =? c)%string)).
    - apply sorted_labels_NoDup.
    - intros r Hr _. apply pivot_index_In. now apply in_map. }
  rewrite <- E.
  apply (sum_skipna_whole
           (fun m => get c (pivot_row rows m))
           (fun m => votes_where
                       (fun r => (candidate r =? c)%string
                                 && (moughataa r =? m)%string)
                       (rows_2024 rows))).
  - intros m _. rewrite pivot_row_get_cells by exact Hne.
    rewrite <- votes_of_swap. now apply pivot_cells_get_whole.
  - eapply Z.le_lt_trans; [|exact Hrange].
    apply (votes_split_size moughataa (fun r => (candidate r =? c)%string)).
    + apply sorted_labels_NoDup.
    + intros r Hr _. apply pivot_index_In. now apply in_map.
Qed.

(** The sum of the national totals. *)
Lemma total_national_whole :
  ~ In "total_votes" (pivot_columns rows) ->
  whole (py_sum (map (fun c => sum_skipna (column c (pivot_table rows)))
                     (pivot_columns rows)))
        (votes_where (fun _ => true) (rows_2024 rows)).
Proof.
  intros Htv.
  assert (E : Zsum (map (fun c => votes_where
                                    (fun r => true && (candidate r =? c)%string)
                                    (rows_2024 rows))
                        (pivot_columns rows))
              = votes_where (fun _ => true) (rows_2024 rows)).
  { apply (weight_where_split nb_votes candidate (fun _ => true)).
    - apply sorted_labels_NoDup.
    - intros r Hr _. apply pivot_columns_In. now apply in_map. }
  rewrite <- E.
  apply (py_sum_whole
           (fun c => sum_skipna (column c (pivot_table rows)))
           (fun c => votes_where
                       (fun r => true && (candidate r =? c)%string)
                       (rows_2024 rows))).
  - intros c Hc. apply national_total_whole; [exact Hc|].
    intros ->. contradiction.
  - eapply Z.le_lt_trans; [|exact Hrange].
    apply (votes_split_size candidate (fun _ => true)).
    + apply sorted_labels_NoDup.
    + intros r Hr _. apply pivot_columns_In. now apply in_map.
Qed.

(** The count of a candidate in a row of the merged frame. *)
Lemma merged_count_whole (m c : string) :
  In c (pivot_columns rows) ->
  c <> "total_votes" ->
  whole (fillna0 (replace_inf (get c (merged_props (pivot_table rows) m))))
        (votes_of (rows_2024 rows) m c).
Proof.
  intros Hc Hne.
  destruct (in_dec string_dec m (pivot_index rows)) as [Hin | Hout].
  - rewrite (merged_props_hit rows m Hin), pivot_row_get_cells by exact Hne.
    pose proof (pivot_cells_get_whole m c Hc) as H.
    now rewrite (whole_sanitized _ _ H).
  - rewrite <- (all_values_get (eq NaN) _ c (merged_props_miss rows m Hout) eq_refl).
    rewrite votes_of_absent; [exact whole_zero|].
    intros Hin. apply Hout. now apply pivot_index_In.
Qed.

(** The total of a row of the merged frame. *)
Lemma merged_total_whole (m : string) :
  whole (fillna0 (replace_inf
                    (get "total_votes" (merged_props (pivot_table rows) m))))
        (votes_where (fun r => (moughataa r =? m)%string) (rows_2024 rows)).
Proof.
  destruct (in_dec string_dec m (pivot_index rows)) as [Hin | Hout].
  - rewrite (merged_props_hit rows m Hin).
    destruct (pivot_row_total_whole m) as [T [ET HT]].
    rewrite (get_of_dict_get _ _ _ ET). now rewrite (whole_sanitized _ _ HT).
  - rewrite <- (all_values_get (eq NaN) _ "total_votes"
                  (merged_props_miss rows m Hout) eq_refl).
    rewrite votes_in_absent_region; [exact whole_zero|].
    intros Hin. apply Hout. now apply pivot_index_In.
Qed.

(** The percentage of a candidate in a row of the cleaned frame, when no
    count is negative. *)
Lemma clean_pct_value (cands : list string) (m c : string) :
  counts_nonneg rows ->
  In c cands ->
  In c (pivot_columns rows) ->
  c <> "total_votes" ->
  (forall c', In c' cands -> c' ++ "_pct" <> c) ->
  let v := votes_of (rows_2024 rows) m c in
  let V := votes_where (fun r => (moughataa r =? m)%string) (rows_2024 rows) in
  exists x,
    dict_get (c ++ "_pct")
      (clean_props cands (merged_props (pivot_table rows) m)) = Some (Fin x) /\
    0 <= x <= 100 /\
    (V = 0%Z -> x == 0) /\
    (V <> 0%Z -> Qabs (x - inject_Z v / inject_Z V * 100) <= pct_tolerance).
Proof.
  intros Hpos Hc Hcol Hne Hcl v V.
  destruct (clean_props_pct cands (merged_props (pivot_table rows) m) c Hc)
    as (d' & Hv & Htot & Hx).
  rewrite Hv. unfold pct_value. rewrite Htot, (Hx Hcl).
  assert (Hv0 : (0 <= v)%Z) by (apply votes_where_nonneg, Hpos).
  assert (HvV : (v <= V)%Z).
  { apply votes_where_le; [exact Hpos|].
    intros r Hr. apply andb_true_iff in Hr. tauto. }
  destruct (in_dec string_dec m (pivot_index rows)) as [Hin | Hout].
  - rewrite (merged_props_hit rows m Hin), pivot_row_get_cells by exact Hne.
    destruct (pivot_cells_get_whole m c Hcol) as [x [-> Ex]].
    destruct (pivot_row_total_whole m) as [T [ET [t [-> Et]]]].
    rewrite (get_of_dict_get _ _ _ ET). fold v in Ex. fold V in Et.
    destruct (Z.eq_dec V 0) as [EV | EV].
    + exists 0. rewrite pct_of_empty_total.
      * repeat split; try lra; try reflexivity. intros; contradiction.
      * right. exists t. split; [reflexivity|]. rewrite Et, EV. reflexivity.
    + assert (Hx0 : 0 <= x).
      { rewrite Ex. change 0 with (inject_Z 0). now rewrite <- Zle_Qle. }
      assert (Hxt : x <= t) by (rewrite Ex, Et; now rewrite <- Zle_Qle).
      assert (Ht : 0 < t).
      { rewrite Et. change 0 with (inject_Z 0). rewrite <- Zlt_Qlt. lia. }
      destruct (pct_of_counts x t Hx0 Hxt Ht) as [r [Er [Hr Hb]]].
      exists r. rewrite Er. repeat split; try apply Hr.
      * intros; contradiction.
      * intros _. rewrite <- Ex, <- Et. exact Hb.
  - rewrite <- (all_values_get (eq NaN) _ "total_votes"
                  (merged_props_miss rows m Hout) eq_refl).
    exists 0. rewrite pct_of_empty_total by now left.
    repeat split; try lra; try reflexivity.
    intros HV. exfalso. apply HV. unfold V.
    apply votes_in_absent_region.
    intros Hin. apply Hout. now apply pivot_index_In.
Qed.

End InRange.

Section Shares.

Context {geometry : Type} (to_crs : option (geometry -> geometry)).
Implicit Types (gdf : list (string * geometry)) (rows : list election_row).
Implicit Types (p : prepared geometry) (f : feature geometry).

Lemma pivot_row_total rows m :
  exists T, dict_get "total_votes" (pivot_row rows m) = Some (Fin T).
Proof.
  destruct (row_sum_finite (pivot_columns rows) _ (pivot_cells_finite rows m))
    as [T HT].
  exists T. unfold pivot_row. rewrite dict_get_set_same, HT. reflexivity.
Qed.

(** The percentage of a candidate in a row of the prepared table, when
    the counts are in range and none is negative: a number between 0 and
    100, which is 0 in a region without votes and otherwise within
    [pct_tolerance] of the share of the candidate in the votes of the
    region. *)
Lemma prepared_percentage gdf rows p f c :
  data_preparation to_crs gdf rows = inr p ->
  counts_in_range rows ->
  counts_nonneg rows ->
  In f (gdf_clean p) ->
  In c (candidats p) ->
  (forall c', In c' (candidats p) -> c' ++ "_pct" <> c) ->
  let v := votes_of (rows_2024 rows) (feat_moughataa f) c in
  let V := votes_where (fun r => (moughataa r =? feat_moughataa f)%string)
                       (rows_2024 rows) in
  exists x,
    dict_get (c ++ "_pct") (feat_props f) = Some (Fin x) /\
    0 <= x <= 100 /\
    (V = 0%Z -> x == 0) /\
    (V <> 0%Z -> Qabs (x - inject_Z v / inject_Z V * 100) <= pct_tolerance).
Proof.
  intros H Hrange Hpos Hf Hc Hcl.
  destruct (gdf_clean_rows to_crs gdf rows p f H Hf) as (g & _ & Hn & _ & Hp).
  destruct (data_preparation_names to_crs gdf rows p H) as (_ & _ & Htv).
  rewrite Hp, Hn.
  apply clean_pct_value; try assumption.
  - now rewrite <- (candidats_pivot_columns to_crs gdf rows p H).
  - intros ->. contradiction.
Qed.

(** The total of a row of the prepared table, when the counts are in
    range. *)
Lemma prepared_total gdf rows p f :
  data_preparation to_crs gdf rows = inr p ->
  counts_in_range rows ->
  In f (gdf_clean p) ->
  exists t,
    dict_get "total_votes" (feat_props f) = Some (Fin t) /\
    t == inject_Z (votes_where
                     (fun r => (moughataa r =? feat_moughataa f)%string)
                     (rows_2024 rows)).
Proof.
  intros H Hrange Hf.
  destruct (gdf_clean_rows to_crs gdf rows p f H Hf) as (g & _ & Hn & _ & Hp).
  rewrite Hp, Hn, clean_props_total.
  destruct (merged_total_whole rows Hrange (fst g)) as [t [-> Ht]].
  exists t. split; [reflexivity | exact Ht].
Qed.

(** The count of a candidate in a row of the prepared table, when the
    counts are in range. *)
Lemma prepared_count gdf rows p f c :
  data_preparation to_crs gdf rows = inr p ->
  counts_in_range rows ->
  In f (gdf_clean p) ->
  In c (candidats p) ->
  (forall c', In c' (candidats p) -> c' ++ "_pct" <> c) ->
  exists x,
    dict_get c (feat_props f) = Some (Fin x) /\
    x == inject_Z (votes_of (rows_2024 rows) (feat_moughataa f) c).
Proof.
  intros H Hrange Hf Hc Hcl.
  destruct (gdf_clean_rows to_crs gdf rows p f H Hf) as (g & _ & Hn & _ & Hp).
  destruct (data_preparation_names to_crs gdf rows p H) as (_ & _ & Htv).
  rewrite Hp, Hn, (clean_props_candidate _ _ c Hc Hcl).
  destruct (merged_count_whole rows Hrange (fst g) c) as [x [-> Hx]].
  - now rewrite <- (candidats_pivot_columns to_crs gdf rows p H).
  - intros ->. contradiction.
  - exists x. split; [reflexivity | exact Hx].
Qed.

(** The national total of a candidate, when the counts are in range. *)
Lemma national_total gdf rows p c :
  data_preparation to_crs gdf rows = inr p ->
  counts_in_range rows ->
  In c (candidats p) ->
  whole (get c (totaux_nationaux p))
        (votes_where (fun r => (candidate r =? c)%string) (rows_2024 rows)).
Proof.
  intros H Hrange Hc.
  destruct (data_preparation_names to_crs gdf rows p H) as (_ & _ & Htv).
  rewrite (totaux_nationaux_get to_crs gdf rows p c H Hc).
  apply national_total_whole; [exact Hrange | |].
  - now rewrite <- (candidats_pivot_columns to_crs gdf rows p H).
  - intros ->. contradiction.
Qed.

(** C1 (amended).  In every row of the prepared table the total is a
    finite number.  When it is 0, the percentage of every candidate is
    0: the division by zero leaves no trace.  When it is not 0, no count
    is negative and the counts are in range, the percentages add up to
    100 up to the rounding of each of them, that is, within
    [pct_tolerance] (0.005 for the two decimals and [10^-12] for the
    roundings to float64) times the number of candidates (no candidate
    being named like the percentage column of another one). *)
Theorem percentages_of_a_row gdf rows p f :
  data_preparation to_crs gdf rows = inr p ->
  In f (gdf_clean p) ->
  exists t,
    dict_get "total_votes" (feat_props f) = Some (Fin t) /\
    (t == 0 ->
     forall c, In c (candidats p) ->
       dict_get (c ++ "_pct") (feat_props f) = Some (Fin 0)) /\
    (~ t == 0 ->
     plain_names (candidats p) ->
     counts_nonneg rows ->
     counts_in_range rows ->
     Qabs (exact_sum (map (fun c => get (c ++ "_pct") (feat_props f))
                          (candidats p)) - 100)
     <= inject_Z (Z.of_nat (List.length (candidats p))) * pct_tolerance).
Proof.
  intros H Hf.
  destruct (gdf_clean_rows to_crs gdf rows p f H Hf) as (g & _ & Hn & _ & Hp).
  pose proof (candidats_pivot_columns to_crs gdf rows p H) as Hcands.
  assert (Htot : exists t, dict_get "total_votes" (feat_props f) = Some (Fin t) /\
                   get "total_votes" (merged_props (pivot_table rows) (fst g))
                   = (if in_dec string_dec (fst g) (pivot_index rows)
                      then Fin t else NaN) /\
                   (~ In (fst g) (pivot_index rows) -> t = 0)).
  { rewrite Hp, clean_props_total.
    destruct (in_dec string_dec (fst g) (pivot_index rows)) as [Hin | Hout].
    - rewrite (merged_props_hit rows _ Hin).
      destruct (pivot_row_total rows (fst g)) as [T HT].
      rewrite (get_of_dict_get _ _ _ HT). exists T.
      repeat split. intros; contradiction.
    - rewrite <- (all_values_get (eq NaN) _ "total_votes"
                    (merged_props_miss rows _ Hout) eq_refl).
      exists 0. repeat split. }
  destruct Htot as (t & Et & Eg & E0).
  exists t. split; [exact Et | split].
  - intros Hz c Hc. rewrite Hp.
    destruct (clean_props_pct (candidats p)
                (merged_props (pivot_table rows) (fst g)) c Hc)
      as (d' & Hv & Ht & _).
    rewrite Hv. f_equal. unfold pct_value. rewrite Ht, Eg.
    apply pct_of_empty_total.
    destruct (in_dec string_dec (fst g) (pivot_index rows)); [right | now left].
    exists t. split; [reflexivity | exact Hz].
  - intros Hnz [Htv Hclash] Hpos Hrange.
    set (V := votes_where (fun r => (moughataa r =? feat_moughataa f)%string)
                          (rows_2024 rows)).
    assert (HV : t == inject_Z V).
    { destruct (prepared_total gdf rows p f H Hrange Hf) as [t' [Et' Ht']].
      rewrite Et in Et'. injection Et' as <-. exact Ht'. }
    assert (HVnz : V <> 0%Z).
    { intros E. apply Hnz. rewrite HV, E. reflexivity. }
    set (X := fun c => inject_Z (votes_of (rows_2024 rows) (feat_moughataa f) c)
                       / inject_Z V * 100).
    assert (Hshare : forall c, In c (candidats p) ->
              Qabs (qvalue (get (c ++ "_pct") (feat_props f)) - X c)
              <= pct_tolerance).
    { intros c Hc.
      destruct (prepared_percentage gdf rows p f c H Hrange Hpos Hf Hc)
        as (x & Ex & _ & _ & Hb).
      - intros c' Hc' E. exact (Hclash c' c Hc' Hc (eq_sym E)).
      - rewrite (get_of_dict_get _ _ _ Ex). simpl. now apply Hb. }
    assert (HX : Qsum (map X (candidats p)) == 100).
    { unfold X.
      assert (HVq : ~ inject_Z V == 0).
      { intros E. apply HVnz. apply (proj1 (inject_Z_injective V 0)). exact E. }
      rewrite (Qsum_ext _
                 (fun c => inject_Z (votes_of (rows_2024 rows) (feat_moughataa f) c)
                           * (100 / inject_Z V))).
      - assert (E : Zsum (map (fun c => votes_of (rows_2024 rows)
                                          (feat_moughataa f) c) (candidats p))
                    = V).
        { rewrite Hcands.
          apply (weight_where_split nb_votes candidate
                   (fun r => (moughataa r =? feat_moughataa f)%string)).
          - apply sorted_labels_NoDup.
          - intros r Hr _. apply pivot_columns_In. now apply in_map. }
        rewrite Qsum_scale, Qsum_inject_Z.
        match goal with
        | |- context [inject_Z (Zsum ?l)] =>
            replace (Zsum l) with V by (symmetry; exact E)
        end.
        field. exact HVq.
      - intros c _. field. exact HVq. }
    unfold exact_sum. rewrite map_map, <- HX.
    apply (Qsum_bound
             (fun c => qvalue (get (c ++ "_pct") (feat_props f))) X
             pct_tolerance (candidats p)).
    exact Hshare.
Qed.

End Shares.

Section Totals.

Context {geometry : Type} (to_crs : option (geometry -> geometry)).
Implicit Types (gdf : list (string * geometry)) (rows : list election_row).
Implicit Types (p : prepared geometry) (f : feature geometry).

(** C2 (amended).  When the names of the geometry are pairwise distinct,
    every region of the results of the year is one of them and the
    counts are in range, the column of a candidate in the prepared table
    adds up to the national total of that candidate from which the
    leader is chosen (no candidate being named like the percentage
    column of another one). *)
Theorem column_sum_is_national_total gdf rows p c :
  data_preparation to_crs gdf rows = inr p ->
  NoDup (map fst gdf) ->
  (forall r, In r (rows_2024 rows) -> In (moughataa r) (map fst gdf)) ->
  plain_names (candidats p) ->
  counts_in_range rows ->
  In c (candidats p) ->
  num_eq (sum_skipna (geo_column c (gdf_clean p)))
         (get c (totaux_nationaux p)).
Proof.
  intros H Hnd Hcover [Htv Hclash] Hrange Hc.
  assert (Hcl : forall c', In c' (candidats p) -> c' ++ "_pct" <> c)
    by (intros c' Hc' E; exact (Hclash c' c Hc' Hc (eq_sym E))).
  assert (Hcol : In c (pivot_columns rows))
    by now rewrite <- (candidats_pivot_columns to_crs gdf rows p H).
  assert (Hne : c <> "total_votes") by (intros ->; contradiction).
  apply (whole_eq _ _ (votes_where (fun r => (candidate r =? c)%string)
                                   (rows_2024 rows))).
  - rewrite (gdf_clean_column to_crs gdf rows p c H).
    assert (E : Zsum (map (fun m => votes_where
                                      (fun r => (candidate r =? c)%string
                                                && (moughataa r =? m)%string)
                                      (rows_2024 rows))
                          (map fst gdf))
                = votes_where (fun r => (candidate r =? c)%string)
                              (rows_2024 rows)).
    { apply (weight_where_split nb_votes moughataa
               (fun r => (candidate r =? c)%string)); [exact Hnd|].
      intros r Hr _. now apply Hcover. }
    rewrite <- E.
    apply (sum_skipna_whole
             (fun m => get c (clean_props (candidats p)
                                (merged_props (pivot_table rows) m)))
             (fun m => votes_where
                         (fun r => (candidate r =? c)%string
                                   && (moughataa r =? m)%string)
                         (rows_2024 rows))).
    + intros m _.
      rewrite (get_of_dict_get _ _ _ (clean_props_candidate _ _ c Hc Hcl)).
      rewrite <- votes_of_swap. now apply merged_count_whole.
    + eapply Z.le_lt_trans; [|exact Hrange].
      apply (votes_split_size moughataa (fun r => (candidate r =? c)%string));
        [exact Hnd|].
      intros r Hr _. now apply Hcover.
  - exact (national_total to_crs gdf rows p c H Hrange Hc).
Qed.

End Totals.
(** ** The loop of the callback *)

Lemma scan_column_split (col : list num) :
  scan_column col = (fold_left running_max col (Fin 0), py_sum col).
Proof.
  unfold scan_column, py_sum. generalize (Fin 0) at 1 3. generalize (Fin 0).
  induction col as [|x col IH]; intros s m; simpl; [reflexivity|].
  rewrite IH. reflexivity.
Qed.

Lemma running_max_spec (col : list num) :
  forall m0 : Q,
    (forall x, In x col -> is_finite x) ->
    exists m,
      fold_left running_max col (Fin m0) = Fin m /\
      m0 <= m /\
      (Fin m = Fin m0 \/ In (Fin m) col) /\
      forall y, In y col -> num_le y (Fin m).
Proof.
  induction col as [|x col IH]; intros m0 Hfin; simpl.
  - exists m0. repeat split; [lra | now left | intros y []].
  - assert (Hx : is_finite x) by (apply Hfin; now left).
    destruct x as [a| | |]; try contradiction.
    assert (Hcol : forall y, In y col -> is_finite y)
      by (intros y Hy; apply Hfin; now right).
    unfold running_max at 2.
    destruct (num_gtb (Fin a) (Fin m0)) eqn:G.
    + apply num_gtb_true in G.
      destruct (IH a Hcol) as (m & E & Hle & Hin & Hub).
      exists m. repeat split.
      * exact E.
      * lra.
      * right. destruct Hin as [-> | Hin]; [now left | now right].
      * intros y [<- | Hy]; [simpl; exact Hle | now apply Hub].
    + apply num_gtb_false in G.
      destruct (IH m0 Hcol) as (m & E & Hle & Hin & Hub).
      exists m. repeat split.
      * exact E.
      * exact Hle.
      * destruct Hin as [-> | Hin]; [now left | right; now right].
      * intros y [<- | Hy]; [simpl; lra | now apply Hub].
Qed.

(** From [0], the running maximum of a non-empty column of non-negative
    numbers is the maximum of the column. *)
Lemma running_max_is_max (col : list num) :
  col <> [] ->
  (forall x, In x col -> count_like x) ->
  is_max_of col (fold_left running_max col (Fin 0)).
Proof.
  intros Hne Hcol.
  destruct (running_max_spec col 0) as (m & E & Hle & Hin & Hub).
  { intros x Hx. destruct (Hcol x Hx) as [q [-> _]]. exact I. }
  rewrite E. split; [|exact Hub].
  destruct Hin as [E0 | Hin].
  - destruct col as [|x col]; [contradiction|].
    exists x. split; [now left|].
    destruct (Hcol x (or_introl eq_refl)) as (q & -> & Hq).
    specialize (Hub (Fin q) (or_introl eq_refl)). simpl in Hub.
    injection E0 as E0. simpl. rewrite E0 in *. lra.
  - exists (Fin m). split; [exact Hin | simpl; reflexivity].
Qed.

Lemma has_key_of_get (k : string) (d : dict) (v : num) :
  dict_get k d = Some v -> has_key k d = true.
Proof.
  unfold has_key. induction d as [|[k' v'] d IH]; simpl; [discriminate|].
  destruct (k' =? k)%string; [reflexivity | exact IH].
Qed.

(** pandas' [max] of a non-empty column of finite numbers is its maximum. *)
Lemma max_skipna_is_max (col : list num) :
  col <> [] ->
  (forall x, In x col -> is_finite x) ->
  is_max_of col (max_skipna col).
Proof.
  intros Hne Hfin. unfold max_skipna. rewrite (filter_all_finite col Hfin).
  destruct col as [|x t]; [contradiction|].
  assert (Hx : is_finite x) by (apply Hfin; now left).
  destruct x as [a| | |]; try contradiction.
  destruct (running_max_spec t a) as (m & E & Hle & Hin & Hub).
  { intros y Hy. apply Hfin. now right. }
  change (fold_left (fun m y => if num_gtb y m then y else m) t (Fin a))
    with (fold_left running_max t (Fin a)).
  rewrite E. split.
  - destruct Hin as [E0 | Hin].
    + exists (Fin a). split; [now left|]. injection E0 as ->. simpl. reflexivity.
    + exists (Fin m). split; [now right | simpl; reflexivity].
  - intros y [<- | Hy]; [simpl; exact Hle | now apply Hub].
Qed.

Lemma is_max_of_unique (col : list num) (a b : num) :
  is_max_of col a -> is_max_of col b -> num_eq a b.
Proof.
  intros [[x [Hx Ex]] Ha] [[y [Hy Ey]] Hb].
  pose proof (Hb x Hx) as Hxb. pose proof (Ha y Hy) as Hya.
  destruct x as [qx| | |], a as [qa| | |]; simpl in Ex; try contradiction;
    destruct y as [qy| | |], b as [qb| | |]; simpl in *; try contradiction.
  lra.
Qed.


(** ** Template literals *)

Lemma template_literal_plain (scope : string -> option string) (s : string) :
  plain_text s = true -> template_literal scope s None = Some s.
Proof.
  induction s as [|a s IH]; simpl; [reflexivity|].
  intros H. apply andb_true_iff in H. destruct H as [Ha Hs].
  apply negb_true_iff in Ha.
  apply orb_false_iff in Ha. destruct Ha as [Ha Hd].
  apply orb_false_iff in Ha. destruct Ha as [Ha Hc].
  rewrite Ha, Hc, Hd. simpl. now rewrite (IH Hs).
Qed.

(** ** Cells that are not negative *)

Lemma num_div_nonneg (a b : num) : nonneg a -> nonneg b -> nonneg (num_div a b).
Proof.
  destruct a as [x| | |], b as [y| | |]; simpl; try tauto; intros Ha Hb.
  - destruct (Qeq_bool y 0) eqn:E.
    + unfold Qsign. destruct (Qcompare_spec x 0); simpl; try exact I. lra.
    + simpl. apply Qeq_bool_neq in E. apply b64_nonneg.
      assert (0 < y) by (destruct (Qlt_le_dec 0 y); [assumption|];
                         exfalso; apply E; lra).
      apply Qle_shift_div_l; [assumption | lra].
  - lra.
  - apply Qle_bool_iff in Hb. rewrite Hb. exact I.
Qed.

Lemma num_mul_100_nonneg (a : num) : nonneg a -> nonneg (num_mul a (Fin 100)).
Proof.
  destruct a as [x| | |]; simpl; try tauto. intros H. apply b64_nonneg. lra.
Qed.

Lemma round2_nonneg (a : num) : nonneg a -> nonneg (round2 a).
Proof.
  destruct a as [x| | |]; simpl; try tauto. intros H.
  apply b64_nonneg. apply Qle_shift_div_l; [reflexivity|].
  rewrite Qmult_0_l. change 0 with (inject_Z 0). rewrite <- Zle_Qle.
  apply rint_nonneg, b64_nonneg. lra.
Qed.

Lemma pct_value_nonneg (c : string) (d : dict) :
  all_values nonneg d -> nonneg (pct_value c d).
Proof.
  intros Hd. unfold pct_value.
  apply round2_nonneg, num_mul_100_nonneg, num_div_nonneg;
    apply all_values_get; try exact Hd; exact I.
Qed.

Lemma sanitized_count_like (x : num) :
  nonneg x -> count_like (fillna0 (replace_inf x)).
Proof.
  destruct x as [q| | |]; simpl; intros H.
  - exists q. tauto.
  - exists 0. split; [reflexivity | lra].
  - contradiction.
  - exists 0. split; [reflexivity | lra].
Qed.

Lemma clean_props_count_like (cands : list string) (d : dict) :
  all_values nonneg d -> all_values count_like (clean_props cands d).
Proof.
  intros Hd. unfold clean_props.
  assert (Hw : all_values nonneg
                 (row_pcts cands (row_select (cands ++ ["total_votes"]) d))).
  { apply row_pcts_all_values.
    - intros c d0. apply pct_value_nonneg.
    - apply row_select_all_values; [exact I | exact Hd]. }
  intros kv Hkv. unfold row_sanitize in Hkv. apply in_map_iff in Hkv.
  destruct Hkv as [kv0 [<- Hin]]. simpl. apply sanitized_count_like.
  exact (Hw kv0 Hin).
Qed.

Lemma whole_nonneg (x : num) (z : Z) : whole x z -> (0 <= z)%Z -> nonneg x.
Proof.
  intros [q [-> Hq]] Hz. simpl. rewrite Hq.
  change 0 with (inject_Z 0). now rewrite <- Zle_Qle.
Qed.

Lemma fold_add_nonneg (l : list num) :
  forall acc,
    0 <= acc ->
    (forall x, In x l -> exists q, x = Fin q /\ 0 <= q) ->
    exists s, fold_left num_add l (Fin acc) = Fin s /\ 0 <= s.
Proof.
  induction l as [|x l IH]; intros acc Ha Hl; simpl.
  - now exists acc.
  - destruct (Hl x (or_introl eq_refl)) as (q & -> & Hq). simpl.
    apply IH.
    + apply b64_nonneg. lra.
    + intros y Hy. apply Hl. now right.
Qed.

Lemma pivot_cells_nonneg (rows : list election_row) (m : string) :
  counts_in_range rows ->
  counts_nonneg rows ->
  all_values count_like (pivot_cells rows m).
Proof.
  intros Hrange Hpos kv Hkv. apply in_map_iff in Hkv.
  destruct Hkv as [c [<- Hc]]. simpl.
  destruct (pivot_cells_whole rows Hrange m c Hc) as [x [Ex Hx]].
  unfold pivot_cells in Ex.
  rewrite (dict_get_tabulate
             (fun c => fillna0 (match group_lookup m c (groups_2024 rows) with
                                | Some v => of_int v
                                | None => NaN
                                end))) in Ex.
  destruct (in_dec string_dec c (pivot_columns rows)); [|contradiction].
  injection Ex as ->.
  pose proof (whole_nonneg _ _ Hx (votes_where_nonneg _ _ Hpos)) as Hn.
  destruct Hx as [q [Eq _]]. rewrite Eq in *. exists q. split; [reflexivity|].
  exact Hn.
Qed.

Lemma pivot_row_nonneg (rows : list election_row) (m : string) :
  counts_in_range rows ->
  counts_nonneg rows ->
  all_values nonneg (pivot_row rows m).
Proof.
  intros Hrange Hpos.
  pose proof (pivot_cells_nonneg rows m Hrange Hpos) as Hc.
  unfold pivot_row. apply all_values_set.
  - intros kv Hkv. destruct (Hc kv Hkv) as (q & -> & Hq). exact Hq.
  - destruct (pivot_row_total_whole rows Hrange m) as [T [ET HT]].
    unfold pivot_row in ET. rewrite dict_get_set_same in ET.
    injection ET as <-.
    exact (whole_nonneg _ _ HT (votes_where_nonneg _ _ Hpos)).
Qed.

Lemma merged_props_nonneg (rows : list election_row) (m : string) :
  counts_in_range rows ->
  counts_nonneg rows ->
  all_values nonneg (merged_props (pivot_table rows) m).
Proof.
  intros Hrange Hpos.
  destruct (in_dec string_dec m (pivot_index rows)) as [Hin | Hout].
  - rewrite merged_props_hit by exact Hin. now apply pivot_row_nonneg.
  - intros kv Hkv. rewrite <- (merged_props_miss rows m Hout kv Hkv). exact I.
Qed.

(** ** The interactive stage *)

Section Interactive.

Context {geometry : Type} (to_crs : option (geometry -> geometry)).
Context (toLocaleString : num -> num).
Implicit Types (gdf : list (string * geometry)) (rows : list election_row).
Implicit Types (p : prepared geometry) (lay : layout geometry).
Implicit Types (v : view geometry).

Lemma render_inv p lay :
  render p = inr lay ->
  exists c0 rest,
    candidats p = c0 :: rest /\
    source (initial lay) = gdf_clean p /\
    select_value (initial lay) = c0 /\
    select_options (initial lay) = candidats p /\
    color_mapper_high (initial lay) = max_skipna (geo_column c0 (gdf_clean p)) /\
    info_leader (info_div (initial lay)) = gagnant_national p /\
    callback_gagnant_national lay = gagnant_national p /\
    callback_total_national lay = py_sum (map snd (totaux_nationaux p)).
Proof.
  unfold render. destruct (candidats p) as [|c0 rest]; [discriminate|].
  intros [= <-]. exists c0, rest. simpl. repeat split.
Qed.

(** The run of the callback when the name of the leader is plain
    text. *)
Lemma callback_plain lay v :
  plain_text (callback_gagnant_national lay) = true ->
  callback toLocaleString lay v
  = Some
      match source_data (select_value v) (source v) with
      | None => raise (TypeError "data[candidate] is undefined")
      | Some col =>
          ok {| source := source v;
                select_value := select_value v;
                select_options := select_options v;
                color_mapper_low := color_mapper_low v;
                color_mapper_high := fst (scan_column col);
                fill_color_field := select_value v;
                title_text := title_of (select_value v);
                hover_tooltips := tooltips_of (select_value v);
                info_div :=
                  {| info_candidat := select_value v;
                     info_total := toLocaleString (snd (scan_column col));
                     info_part :=
                       toFixed1
                         (num_mul
                            (num_div (snd (scan_column col))
                                     (callback_total_national lay))
                            (Fin 100));
                     info_leader := callback_gagnant_national lay |} |}
      end.
Proof.
  intros Hplain. unfold callback.
  rewrite (template_literal_plain _ _ Hplain).
  destruct (source_data (select_value v) (source v)) as [col|]; [|reflexivity].
  destruct (scan_column col). reflexivity.
Qed.

Lemma callback_frame lay v v' :
  callback toLocaleString lay v = Some (inr v') ->
  source v' = source v /\
  select_value v' = select_value v /\
  select_options v' = select_options v /\
  color_mapper_low v' = color_mapper_low v.
Proof.
  unfold callback.
  destruct (template_literal _ _ _) as [leader|]; [|discriminate].
  destruct (source_data (select_value v) (source v)); [|discriminate].
  destruct (scan_column l). intros [= <-]. simpl. repeat split.
Qed.

Lemma select_change_frame lay c v v' :
  select_change toLocaleString lay c v = Some v' ->
  source v' = source v /\
  select_value v' = c /\
  select_options v' = select_options v /\
  color_mapper_low v' = color_mapper_low v.
Proof.
  unfold select_change.
  destruct (callback toLocaleString lay (set_select_value c v))
    as [[e | w]|] eqn:E; [| |discriminate].
  - intros [= <-]. simpl. repeat split.
  - intros [= <-]. destruct (callback_frame _ _ _ E) as (H1 & H2 & H3 & H4).
    rewrite H1, H2, H3, H4. simpl. repeat split.
Qed.

(** With a leader whose name is plain text every choice leads to a
    state. *)
Lemma select_change_plain lay c v :
  plain_text (callback_gagnant_national lay) = true ->
  exists v', select_change toLocaleString lay c v = Some v'.
Proof.
  intros Hplain. unfold select_change.
  rewrite (callback_plain lay _ Hplain).
  destruct (source_data _ _); eexists; reflexivity.
Qed.

Lemma reachable_frame lay v :
  reachable toLocaleString lay v ->
  source v = source (initial lay) /\
  select_options v = select_options (initial lay) /\
  color_mapper_low v = color_mapper_low (initial lay).
Proof.
  induction 1 as [|v v' c _ (IH1 & IH2 & IH3) _ Hs].
  - repeat split.
  - destruct (select_change_frame lay c v v' Hs) as (F1 & _ & F3 & F4).
    rewrite F1, F3, F4. repeat split; assumption.
Qed.

Lemma reachable_low gdf rows p lay v :
  data_preparation to_crs gdf rows = inr p ->
  render p = inr lay ->
  reachable toLocaleString lay v ->
  source v = gdf_clean p /\
  select_options v = candidats p /\
  color_mapper_low v = Fin 0.
Proof.
  intros H Hr Hv.
  destruct (reachable_frame lay v Hv) as (F1 & F2 & F3).
  rewrite F1, F2, F3. unfold render in Hr.
  destruct (candidats p) as [|c0 rest]; [discriminate|].
  injection Hr as <-. cbn. repeat split.
Qed.

(** The frame of a sequence of selections: the table held by the data
    source, the options of the selector and the lower bound of the
    colour scale stay as they are. *)
Lemma run_selections_frame lay (cs : list string) :
  forall v v',
    run_selections toLocaleString lay cs v = Some v' ->
    source v' = source v /\
    select_options v' = select_options v /\
    color_mapper_low v' = color_mapper_low v.
Proof.
  induction cs as [|c cs IH]; intros v v'; simpl.
  - intros [= <-]. repeat split.
  - destruct (select_change toLocaleString lay c v) as [w|] eqn:E;
      [|discriminate].
    intros Hrun. destruct (IH w v' Hrun) as (H1 & H2 & H3).
    destruct (select_change_frame lay c v w E) as (F1 & _ & F3 & F4).
    rewrite H1, H2, H3, F1, F3, F4. repeat split.
Qed.

Lemma run_selections_plain lay (cs : list string) :
  plain_text (callback_gagnant_national lay) = true ->
  forall v, exists v', run_selections toLocaleString lay cs v = Some v'.
Proof.
  intros Hplain. induction cs as [|c cs IH]; intros v; simpl.
  - now exists v.
  - destruct (select_change_plain lay c v Hplain) as [w ->]. apply IH.
Qed.

(** The leader that the panel names in a state of the interactive stage,
    when its name is plain text. *)
Lemma reachable_leader lay v :
  plain_text (callback_gagnant_national lay) = true ->
  info_leader (info_div (initial lay)) = callback_gagnant_national lay ->
  reachable toLocaleString lay v ->
  info_leader (info_div v) = callback_gagnant_national lay.
Proof.
  intros Hplain Hinit Hv.
  induction Hv as [|v v' c _ IH _ Hs].
  - exact Hinit.
  - unfold select_change in Hs. rewrite (callback_plain lay _ Hplain) in Hs.
    destruct (source_data _ _); injection Hs as <-; [reflexivity | exact IH].
Qed.

(** The column of a candidate in the data source. *)
Lemma prepared_column_exists gdf rows p c :
  data_preparation to_crs gdf rows = inr p ->
  gdf <> [] ->
  In c (candidats p) ->
  source_data c (gdf_clean p) = Some (geo_column c (gdf_clean p)) /\
  geo_column c (gdf_clean p) <> [] /\
  forall x, In x (geo_column c (gdf_clean p)) -> is_finite x.
Proof.
  intros H Hne Hc.
  destruct (data_preparation_inv to_crs gdf rows p H)
    as (_ & _ & _ & _ & reproject & _ & Hg).
  assert (Hkey : forall m, exists x,
             dict_get c (clean_props (candidats p)
                           (merged_props (pivot_table rows) m)) = Some x /\
             is_finite x).
  { intros m.
    destruct (clean_props_has_column (candidats p)
                (merged_props (pivot_table rows) m) c) as [x Hx].
    { apply in_or_app. now left. }
    exists x. split; [exact Hx|].
    apply dict_get_In in Hx. exact (clean_props_finite _ _ _ Hx). }
  split; [|split].
  - unfold source_data. rewrite Hg.
    destruct gdf as [|g gdf']; [contradiction|]. cbn [map existsb feat_props].
    destruct (Hkey (fst g)) as [x [Hx _]].
    rewrite (has_key_of_get _ _ _ Hx). reflexivity.
  - rewrite Hg. unfold geo_column. rewrite map_map.
    destruct gdf; [contradiction | discriminate].
  - intros x Hx. rewrite Hg in Hx. unfold geo_column in Hx.
    rewrite map_map in Hx. apply in_map_iff in Hx.
    destruct Hx as [g [<- _]]. simpl.
    destruct (Hkey (fst g)) as [y [Hy Hfin]].
    now rewrite (get_of_dict_get _ _ _ Hy).
Qed.

(** Its values when no count is negative. *)
Lemma prepared_column_nonneg gdf rows p c :
  data_preparation to_crs gdf rows = inr p ->
  counts_in_range rows ->
  counts_nonneg rows ->
  In c (candidats p) ->
  forall x, In x (geo_column c (gdf_clean p)) -> count_like x.
Proof.
  intros H Hrange Hpos Hc x Hx.
  rewrite (gdf_clean_column to_crs gdf rows p c H) in Hx.
  apply in_map_iff in Hx. destruct Hx as [m [<- _]].
  destruct (clean_props_has_column (candidats p)
              (merged_props (pivot_table rows) m) c) as [y Hy].
  { apply in_or_app. now left. }
  rewrite (get_of_dict_get _ _ _ Hy). apply dict_get_In in Hy.
  exact (clean_props_count_like _ _
           (merged_props_nonneg rows m Hrange Hpos) _ Hy).
Qed.

End Interactive.

Section Callback.

Context {geometry : Type} (to_crs : option (geometry -> geometry)).
Context (toLocaleString : num -> num).
Implicit Types (gdf : list (string * geometry)) (rows : list election_row).
Implicit Types (p : prepared geometry) (lay : layout geometry).
Implicit Types (v : view geometry).

(** C6 (amended).  When no count is negative, the counts are in range,
    the geometry has a row and the name of the leader is plain text, in
    any state of the interactive stage the choice of a candidate of the
    selector reads the column [col] of that candidate in the data source
    and leaves: as upper bound of the colour scale the maximum of [col];
    as displayed total the sum of [col], added up in float64 from the
    first row to the last and printed by the locale; as national share
    that sum over the sum of the national totals of all candidates,
    times 100, computed in float64 and printed with one decimal; and the
    colour field and the tooltips bound to the columns of that
    candidate. *)
Theorem selection_change_recomputes_view gdf rows p lay v c :
  data_preparation to_crs gdf rows = inr p ->
  render p = inr lay ->
  counts_nonneg rows ->
  counts_in_range rows ->
  gdf <> [] ->
  plain_text (gagnant_national p) = true ->
  reachable toLocaleString lay v ->
  In c (select_options v) ->
  exists col v',
    source_data c (source v) = Some col /\
    select_change toLocaleString lay c v = Some v' /\
    let total_national := py_sum (map snd (totaux_nationaux p)) in
    let share := num_mul (num_div (py_sum col) total_national) (Fin 100) in
    select_value v' = c /\
    is_max_of col (color_mapper_high v') /\
    info_total (info_div v') = toLocaleString (py_sum col) /\
    info_part (info_div v') = toFixed1 share /\
    rounded_to 1 share (info_part (info_div v')) /\
    fill_color_field v' = c /\
    hover_tooltips v'
    = [ ("Moughataa", "@moughataa");
        ("Voix", "@{" ++ c ++ "}{0,0}");
        ("Part", "@{" ++ (c ++ "_pct") ++ "}{0.0}%") ].
Proof.
  intros H Hr Hpos Hrange Hne Hplain Hreach Hc.
  destruct (render_inv p lay Hr)
    as (c0 & rest & _ & _ & _ & _ & _ & _ & Hg & Htot).
  destruct (reachable_low to_crs toLocaleString gdf rows p lay v H Hr Hreach)
    as (Hs & Ho & _).
  rewrite Ho in Hc. rewrite Hs. rewrite <- Hg in Hplain.
  destruct (prepared_column_exists to_crs gdf rows p c H Hne Hc)
    as (Hdata & Hcol & _).
  pose proof (prepared_column_nonneg to_crs gdf rows p c H Hrange Hpos Hc)
    as Hvals.
  exists (geo_column c (gdf_clean p)). eexists.
  split; [exact Hdata|]. split.
  - unfold select_change. rewrite (callback_plain toLocaleString lay _ Hplain).
    cbn [select_value source set_select_value]. rewrite Hs, Hdata.
    reflexivity.
  - rewrite scan_column_split, Htot.
    cbn [select_value color_mapper_high info_div info_total info_part
         fill_color_field hover_tooltips fst snd].
    repeat split.
    + exact (proj1 (running_max_is_max _ Hcol Hvals)).
    + exact (proj2 (running_max_is_max _ Hcol Hvals)).
    + apply toFixed1_rounded.
Qed.

(** X17.  The frame of the interactive stage.  When the name of the leader is
    plain text, every sequence of selections leads to a state, and in it
    the data source holds the same table: the same rows with the same
    values in every column.  What a selection may touch is the view
    derived from the table (upper bound of the colour scale, colour
    field, title, tooltips, summary); the options of the selector and
    the lower bound of the scale stay as well. *)
Theorem selections_never_mutate_table lay (cs : list string) v :
  plain_text (callback_gagnant_national lay) = true ->
  exists v',
    run_selections toLocaleString lay cs v = Some v' /\
    source v' = source v /\
    (forall c, geo_column c (source v') = geo_column c (source v)) /\
    select_options v' = select_options v /\
    color_mapper_low v' = color_mapper_low v.
Proof.
  intros Hplain.
  destruct (run_selections_plain toLocaleString lay cs Hplain v) as [v' Hrun].
  destruct (run_selections_frame toLocaleString lay cs v v' Hrun)
    as (H1 & H2 & H3).
  exists v'. rewrite H1. repeat split; assumption.
Qed.

(** X18.  The leader of the summary.  When the name of the leader is plain
    text, in every state of the interactive stage, the initial one and
    any state reached by selecting candidates, the summary panel names
    the leader that the preparation computed. *)
Theorem leader_shown_never_changes gdf rows p lay v :
  data_preparation to_crs gdf rows = inr p ->
  render p = inr lay ->
  plain_text (gagnant_national p) = true ->
  reachable toLocaleString lay v ->
  info_leader (info_div v) = gagnant_national p.
Proof.
  intros _ Hr Hplain Hv.
  destruct (render_inv p lay Hr)
    as (c0 & rest & _ & _ & _ & _ & _ & Hl & Hg & _).
  rewrite <- Hg in *. apply (reachable_leader toLocaleString); assumption.
Qed.

(** X13.  A selection forgets the history.  When the name of the leader is
    plain text and the geometry has a row, the callback runs to its end
    on every option of the selector, and the view after a selection
    depends on the selected candidate only: from any two states of the
    interactive stage, the same choice leads to the same state. *)
Theorem selection_forgets_history gdf rows p lay v1 v2 c :
  data_preparation to_crs gdf rows = inr p ->
  render p = inr lay ->
  gdf <> [] ->
  plain_text (gagnant_national p) = true ->
  reachable toLocaleString lay v1 ->
  reachable toLocaleString lay v2 ->
  In c (select_options v1) ->
  (exists v', callback toLocaleString lay (set_select_value c v1)
              = Some (inr v')) /\
  select_change toLocaleString lay c v1 = select_change toLocaleString lay c v2.
Proof.
  intros H Hr Hne Hplain H1 H2 Hc.
  destruct (render_inv p lay Hr)
    as (c0 & rest & _ & _ & _ & _ & _ & _ & Hg & _).
  rewrite <- Hg in Hplain.
  destruct (reachable_low to_crs toLocaleString gdf rows p lay v1 H Hr H1)
    as (S1 & O1 & L1).
  destruct (reachable_low to_crs toLocaleString gdf rows p lay v2 H Hr H2)
    as (S2 & O2 & L2).
  rewrite O1 in Hc.
  destruct (prepared_column_exists to_crs gdf rows p c H Hne Hc)
    as (Hdata & _ & _).
  unfold select_change. rewrite !(callback_plain toLocaleString lay _ Hplain).
  cbn [select_value source set_select_value select_options color_mapper_low].
  rewrite S1, S2, O1, O2, L1, L2, Hdata.
  split; [eexists|]; reflexivity.
Qed.

(** X14.  The callback and the initial render agree on the colour scale.  When
    no count is negative, the counts are in range, the geometry has a
    row and the name of the leader is plain text, selecting the
    candidate of the initial render again gives the colour scale, the
    colour field, the tooltips and the title of the initial render. *)
Theorem callback_agrees_with_initial_scale gdf rows p lay :
  data_preparation to_crs gdf rows = inr p ->
  render p = inr lay ->
  gdf <> [] ->
  counts_nonneg rows ->
  counts_in_range rows ->
  plain_text (gagnant_national p) = true ->
  exists v',
    select_change toLocaleString lay (select_value (initial lay)) (initial lay)
    = Some v' /\
    num_eq (color_mapper_high v') (color_mapper_high (initial lay)) /\
    fill_color_field v' = fill_color_field (initial lay) /\
    hover_tooltips v' = hover_tooltips (initial lay) /\
    title_text v' = title_text (initial lay).
Proof.
  intros H Hr Hne Hpos Hrange Hplain.
  destruct (render_inv p lay Hr)
    as (c0 & rest & Ec & Hsrc & Hsel & _ & Hhigh & _ & Hg & _).
  rewrite <- Hg in Hplain.
  assert (Hc : In c0 (candidats p)) by (rewrite Ec; now left).
  destruct (prepared_column_exists to_crs gdf rows p c0 H Hne Hc)
    as (Hdata & Hcol & Hfin).
  pose proof (prepared_column_nonneg to_crs gdf rows p c0 H Hrange Hpos Hc)
    as Hvals.
  assert (Hinit : fill_color_field (initial lay) = c0 /\
                  hover_tooltips (initial lay) = tooltips_of c0 /\
                  title_text (initial lay) = title_of c0).
  { unfold render in Hr. rewrite Ec in Hr. injection Hr as <-. cbn. auto. }
  destruct Hinit as (I1 & I2 & I3).
  rewrite Hsel, Hhigh, I1, I2, I3.
  unfold select_change. rewrite (callback_plain toLocaleString lay _ Hplain).
  cbn [select_value source set_select_value].
  rewrite Hsrc, Hdata, scan_column_split. eexists. split; [reflexivity|].
  cbn [color_mapper_high fill_color_field hover_tooltips title_text fst].
  repeat split.
  apply (is_max_of_unique (geo_column c0 (gdf_clean p))).
  - now apply running_max_is_max.
  - now apply max_skipna_is_max.
Qed.

End Callback.

Section Render.

Context {geometry : Type} (to_crs : option (geometry -> geometry)).
Implicit Types (gdf : list (string * geometry)) (rows : list election_row).
Implicit Types (p : prepared geometry) (lay : layout geometry).
Implicit Types (v : view geometry).

(** X12.  The initial render shows the first candidate in column order, that
    is, the smallest candidate name: the selector, the colour field, the
    title and the tooltips are bound to it, the colour scale runs from 0
    to the maximum of its column, and the panel shows its national total
    and the leader. *)
Theorem initial_render_shows_first_candidate gdf rows p lay :
  data_preparation to_crs gdf rows = inr p ->
  render p = inr lay ->
  gdf <> [] ->
  exists c0 rest,
    candidats p = c0 :: rest /\
    (forall c, In c rest -> slt c0 c) /\
    source (initial lay) = gdf_clean p /\
    select_options (initial lay) = candidats p /\
    select_value (initial lay) = c0 /\
    fill_color_field (initial lay) = c0 /\
    hover_tooltips (initial lay) = tooltips_of c0 /\
    color_mapper_low (initial lay) = Fin 0 /\
    is_max_of (geo_column c0 (gdf_clean p))
              (color_mapper_high (initial lay)) /\
    info_candidat (info_div (initial lay)) = c0 /\
    info_total (info_div (initial lay))
    = format_0f (get c0 (totaux_nationaux p)) /\
    info_leader (info_div (initial lay)) = gagnant_national p.
Proof.
  intros H Hr Hne. unfold render in Hr.
  pose proof (candidats_pivot_columns to_crs gdf rows p H) as Hcols.
  pose proof (sorted_labels_sorted
                (map (fun g => snd (fst g)) (groups_2024 rows))) as Hs.
  fold (pivot_columns rows) in Hs. rewrite <- Hcols in Hs.
  destruct (candidats p) as [|c0 rest] eqn:Ec; [discriminate|].
  injection Hr as <-. exists c0, rest. cbn.
  inversion Hs as [|? ? _ Hlt]; subst.
  repeat split.
  - intros c Hc. rewrite Forall_forall in Hlt. now apply Hlt.
  - destruct (prepared_column_exists to_crs gdf rows p c0 H Hne) as (_ & Hcol & Hfin).
    { rewrite Ec. now left. }
    exact (proj1 (max_skipna_is_max _ Hcol Hfin)).
  - destruct (prepared_column_exists to_crs gdf rows p c0 H Hne) as (_ & Hcol & Hfin).
    { rewrite Ec. now left. }
    exact (proj2 (max_skipna_is_max _ Hcol Hfin)).
Qed.

End Render.
(** ** The columns of a row *)

Lemma dict_set_keys_new (k : string) (v : num) (d : dict) :
  ~ In k (map fst d) -> map fst (dict_set k v d) = (map fst d ++ [k])%list.
Proof.
  induction d as [|[k' v'] d IH]; simpl; intros H; [reflexivity|].
  destruct (String.eqb_spec k' k) as [-> | Hne].
  - exfalso. apply H. now left.
  - simpl. f_equal. apply IH. intros Hin. apply H. now right.
Qed.

Lemma row_pcts_keys (l : list string) :
  NoDup l ->
  forall d,
    (forall c, In c l -> ~ In (c ++ "_pct") (map fst d)) ->
    map fst (row_pcts l d)
    = (map fst d ++ map (fun c => (c ++ "_pct")%string) l)%list.
Proof.
  unfold row_pcts.
  induction 1 as [|a l Ha Hl IH]; intros d Hd; simpl.
  - now rewrite app_nil_r.
  - assert (Ka : map fst (row_add_pct a d)
                = (map fst d ++ [(a ++ "_pct")%string])%list).
    { unfold row_add_pct. apply dict_set_keys_new, Hd. now left. }
    rewrite IH, Ka, <- app_assoc; [reflexivity|].
    intros c Hc Hin. rewrite Ka in Hin. apply in_app_or in Hin.
    destruct Hin as [Hin | [E | []]].
    + exact (Hd c (or_intror Hc) Hin).
    + apply append_inj_l in E. subst a. contradiction.
Qed.

Lemma clean_props_keys (cands : list string) (d : dict) :
  NoDup cands ->
  plain_names cands ->
  map fst (clean_props cands d)
  = (cands ++ ["total_votes"]
     ++ map (fun c => (c ++ "_pct")%string) cands)%list.
Proof.
  intros Hnd [_ Hclash]. unfold clean_props, row_sanitize.
  rewrite map_map. cbn [fst].
  change (map (fun x : string * num => fst x)) with (map (@fst string num)).
  rewrite row_pcts_keys.
  - unfold row_select. rewrite map_map. cbn [fst]. rewrite map_id.
    now rewrite <- app_assoc.
  - exact Hnd.
  - intros c Hc Hin. unfold row_select in Hin. rewrite map_map in Hin.
    cbn [fst] in Hin. rewrite map_id in Hin. apply in_app_or in Hin.
    destruct Hin as [Hin | [E | []]].
    + exact (Hclash c _ Hc Hin eq_refl).
    + exact (pct_ne_total_votes c (eq_sym E)).
Qed.


Section Counts.

Context {geometry : Type} (to_crs : option (geometry -> geometry)).
Implicit Types (gdf : list (string * geometry)) (rows : list election_row).
Implicit Types (df : list csv_row).
Implicit Types (p : prepared geometry) (f : feature geometry).
Implicit Types (lay : layout geometry).

(** X1.  With the counts in range, the count that the prepared table
    shows for a region and a candidate is the sum of the votes of the
    rows of 2024 of the file for that region and that candidate: rows
    that repeat a pair are added up, a pair without row counts 0, and so
    does every candidate in a region that the results do not have.  A
    row of the file without region or without candidate counts
    nowhere. *)
Theorem prepared_count_is_sum_of_votes gdf df p f c :
  let rows := dropna_rows df in
  data_preparation to_crs gdf rows = inr p ->
  counts_in_range rows ->
  In f (gdf_clean p) ->
  In c (candidats p) ->
  (forall c', In c' (candidats p) -> c' ++ "_pct" <> c) ->
  exists x,
    dict_get c (feat_props f) = Some (Fin x) /\
    x == inject_Z (votes_of (rows_2024 rows) (feat_moughataa f) c).
Proof. intros rows. apply prepared_count. Qed.

(** X2.  With the counts in range, the total of a row of the prepared
    table is the number of votes of 2024 in its region, all candidates
    together, over the rows of the file that have a region and a
    candidate. *)
Theorem prepared_total_is_sum_of_votes gdf df p f :
  let rows := dropna_rows df in
  data_preparation to_crs gdf rows = inr p ->
  counts_in_range rows ->
  In f (gdf_clean p) ->
  exists t,
    dict_get "total_votes" (feat_props f) = Some (Fin t) /\
    t == inject_Z (votes_where
                     (fun r => (moughataa r =? feat_moughataa f)%string)
                     (rows_2024 rows)).
Proof. intros rows. apply prepared_total. Qed.

(** X3.  With the counts in range, the national total of a candidate is
    the sum of the votes of its rows of 2024, whatever their region
    (also the regions that the geometry lacks), over the rows of the
    file that have a region and a candidate. *)
Theorem national_total_is_sum_of_votes gdf df p c :
  let rows := dropna_rows df in
  data_preparation to_crs gdf rows = inr p ->
  counts_in_range rows ->
  In c (candidats p) ->
  exists x,
    get c (totaux_nationaux p) = Fin x /\
    x == inject_Z (votes_where (fun r => (candidate r =? c)%string)
                               (rows_2024 rows)).
Proof. intros rows. apply national_total. Qed.

(** X4.  With the counts in range, the leader has the most votes of
    2024: no candidate has more, and the candidates listed before it
    have strictly fewer. *)
Theorem leader_has_most_votes gdf df p :
  let rows := dropna_rows df in
  data_preparation to_crs gdf rows = inr p ->
  counts_in_range rows ->
  let votes := fun c => votes_where (fun r => (candidate r =? c)%string)
                                    (rows_2024 rows) in
  exists before after,
    (candidats p = before ++ gagnant_national p :: after)%list /\
    (forall c, In c before -> (votes c < votes (gagnant_national p))%Z) /\
    (forall c, In c after -> (votes c <= votes (gagnant_national p))%Z).
Proof.
  intros rows H Hrange votes.
  pose proof (totaux_nationaux_keys to_crs gdf rows p H) as Hk.
  destruct (data_preparation_inv to_crs gdf rows p H) as (_ & _ & _ & Hmax & _).
  assert (Hval : forall c, In c (candidats p) ->
            exists N, get c (totaux_nationaux p) = Fin N /\
                      N == inject_Z (votes c)).
  { intros c Hc. exact (national_total to_crs gdf rows p c H Hrange Hc). }
  destruct (py_max_key_spec _ _ Hmax) as (before & after & E & Hb & Ha).
  { rewrite Hk. intros c Hc. destruct (Hval c Hc) as [N [-> _]]. exact I. }
  rewrite Hk in E. exists before, after. split; [exact E|].
  assert (Hg : In (gagnant_national p) (candidats p)).
  { rewrite E. apply in_or_app. right. now left. }
  destruct (Hval _ Hg) as [G [EG HG]].
  split.
  - intros c Hc.
    assert (Hin : In c (candidats p)) by (rewrite E; apply in_or_app; now left).
    destruct (Hval c Hin) as [N [EN HN]].
    specialize (Hb c Hc). rewrite EN, EG in Hb. simpl in Hb.
    rewrite HN, HG in Hb. now rewrite Zlt_Qlt.
  - intros c Hc.
    assert (Hin : In c (candidats p))
      by (rewrite E; apply in_or_app; right; now right).
    destruct (Hval c Hin) as [N [EN HN]].
    specialize (Ha c Hc). rewrite EN, EG in Ha. simpl in Ha.
    rewrite HN, HG in Ha. now rewrite Zle_Qle.
Qed.

(** X5.  With the counts in range, the denominator of every national
    share, which Python pastes into the callback, is the number of votes
    of 2024, all candidates and regions together, over the rows of the
    file that have a region and a candidate. *)
Theorem total_national_is_all_votes gdf df p lay :
  let rows := dropna_rows df in
  data_preparation to_crs gdf rows = inr p ->
  render p = inr lay ->
  counts_in_range rows ->
  exists x,
    callback_total_national lay = Fin x /\
    x == inject_Z (votes_where (fun _ => true) (rows_2024 rows)).
Proof.
  intros rows H Hr Hrange.
  destruct (render_inv p lay Hr) as (c0 & rest & _ & _ & _ & _ & _ & _ & _ & Ht).
  pose proof (candidats_pivot_columns to_crs gdf rows p H) as Hcols.
  destruct (data_preparation_names to_crs gdf rows p H) as (_ & _ & Htv).
  destruct (data_preparation_inv to_crs gdf rows p H) as (_ & _ & Htot & _).
  rewrite Ht, Htot, map_map. cbn [snd]. rewrite Hcols in *.
  exact (total_national_whole rows Hrange Htv).
Qed.

(** X10.  With the counts in range and none negative, the percentage of
    a candidate in a region is 0 when the region has no vote, and
    otherwise its share of the votes of 2024 of the region, times 100,
    up to [pct_tolerance]: half a hundredth for the rounding to two
    decimals and [10^-12] for the roundings to float64. *)
Theorem prepared_percentage_formula gdf df p f c :
  let rows := dropna_rows df in
  data_preparation to_crs gdf rows = inr p ->
  counts_in_range rows ->
  counts_nonneg rows ->
  In f (gdf_clean p) ->
  In c (candidats p) ->
  (forall c', In c' (candidats p) -> c' ++ "_pct" <> c) ->
  let v := votes_of (rows_2024 rows) (feat_moughataa f) c in
  let V := votes_where (fun r => (moughataa r =? feat_moughataa f)%string)
                       (rows_2024 rows) in
  exists x,
    dict_get (c ++ "_pct") (feat_props f) = Some (Fin x) /\
    (V = 0%Z -> x == 0) /\
    (V <> 0%Z -> Qabs (x - inject_Z v / inject_Z V * 100) <= pct_tolerance).
Proof.
  intros rows H Hrange Hpos Hf Hc Hcl v V.
  destruct (prepared_percentage to_crs gdf rows p f c H Hrange Hpos Hf Hc Hcl)
    as (x & Ex & _ & H0 & Hb).
  exists x. auto.
Qed.

(** X11.  With the counts in range and none negative, every percentage
    is between 0 and 100. *)
Theorem prepared_percentage_bounds gdf df p f c :
  let rows := dropna_rows df in
  data_preparation to_crs gdf rows = inr p ->
  counts_in_range rows ->
  counts_nonneg rows ->
  In f (gdf_clean p) ->
  In c (candidats p) ->
  (forall c', In c' (candidats p) -> c' ++ "_pct" <> c) ->
  exists x,
    dict_get (c ++ "_pct") (feat_props f) = Some (Fin x) /\
    0 <= x <= 100.
Proof.
  intros rows H Hrange Hpos Hf Hc Hcl.
  destruct (prepared_percentage to_crs gdf rows p f c H Hrange Hpos Hf Hc Hcl)
    as (x & Ex & Hx & _).
  exists x. auto.
Qed.

(** X8.  A candidate named [moughataa] makes the preparation fail: the pivot
    has a column of that name and [reset_index] cannot insert the index. *)
Theorem candidate_named_moughataa_raises gdf rows :
  In "moughataa" (map candidate (rows_2024 rows)) ->
  data_preparation to_crs gdf rows
  = inl (ValueError "cannot insert moughataa, already exists") /\
  styled_election_map to_crs gdf rows
  = inl (ValueError "cannot insert moughataa, already exists").
Proof.
  intros H.
  assert (Hp : data_preparation to_crs gdf rows
               = inl (ValueError "cannot insert moughataa, already exists")).
  { unfold data_preparation, reset_index. fold (rows_2024 rows).
    fold (groups_2024 rows). rewrite frame_columns_pivot.
    assert (E : existsb (fun c => (c =? "moughataa")%string) (pivot_columns rows)
                = true).
    { apply existsb_exists. exists "moughataa". split; [|reflexivity].
      now apply pivot_columns_In. }
    rewrite E. reflexivity. }
  split; [exact Hp|]. unfold styled_election_map. now rewrite Hp.
Qed.

(** X15.  A candidate named [geometry] or [total_votes] makes the
    preparation fail, and [styled_election_map] with it: the merge
    renames the geometry column away, and the percentage loop meets two
    columns named [total_votes]. *)
Theorem reserved_candidate_name_raises gdf rows :
  In "geometry" (map candidate (rows_2024 rows)) \/
  In "total_votes" (map candidate (rows_2024 rows)) ->
  exists e,
    data_preparation to_crs gdf rows = inl e /\
    styled_election_map to_crs gdf rows = inl e.
Proof.
  intros Hin. unfold styled_election_map.
  destruct (data_preparation to_crs gdf rows) as [e | p] eqn:H.
  - exists e. split; reflexivity.
  - exfalso.
    destruct (data_preparation_names to_crs gdf rows p H) as (_ & Hg & Ht).
    rewrite (candidats_pivot_columns to_crs gdf rows p H) in Hg, Ht.
    destruct Hin as [Hin | Hin]; apply pivot_columns_In in Hin; contradiction.
Qed.

End Counts.


Section Layout.

Context {geometry : Type} (to_crs : option (geometry -> geometry)).
Implicit Types (gdf : list (string * geometry)) (rows : list election_row).
Implicit Types (p : prepared geometry) (f : feature geometry).

(** X9.  Every row of the prepared table has the same columns in the same
    order: the candidates, [total_votes], then the percentage of each
    candidate. *)
Theorem prepared_columns gdf rows p f :
  data_preparation to_crs gdf rows = inr p ->
  In f (gdf_clean p) ->
  plain_names (candidats p) ->
  map fst (feat_props f)
  = (candidats p ++ ["total_votes"]
     ++ map (fun c => (c ++ "_pct")%string) (candidats p))%list.
Proof.
  intros H Hf Hplain.
  destruct (gdf_clean_rows to_crs gdf rows p f H Hf) as (g & _ & _ & _ & Hp).
  rewrite Hp. apply clean_props_keys; [|exact Hplain].
  rewrite (candidats_pivot_columns to_crs gdf rows p H).
  apply sorted_labels_NoDup.
Qed.

End Layout.

(** ** The theorems on the scenario *)

Lemma scenario_prepares :
  data_preparation no_reprojection scenario_gdf scenario_rows
  = inr scenario_prepared.
Proof. vm_compute. reflexivity. Qed.

Lemma scenario_renders : render scenario_prepared = inr scenario_layout.
Proof. vm_compute. reflexivity. Qed.

Lemma scenario_csv_rows : dropna_rows scenario_csv = scenario_rows.
Proof. reflexivity. Qed.

Lemma scenario_region_A_in : In scenario_region_A (gdf_clean scenario_prepared).
Proof. left. reflexivity. Qed.

Lemma scenario_in_range : counts_in_range scenario_rows.
Proof. vm_compute. reflexivity. Qed.

Lemma scenario_nonneg : counts_nonneg scenario_rows.
Proof.
  intros r Hin. vm_compute in Hin.
  destruct Hin as [<- | [<- | [<- | [<- | []]]]]; simpl; lia.
Qed.

Lemma scenario_plain_names : plain_names (candidats scenario_prepared).
Proof.
  split.
  - simpl. intros [E | [E | []]]; discriminate.
  - simpl. intros c c' [<- | [<- | []]] [<- | [<- | []]]; discriminate.
Qed.

Lemma scenario_no_clash (c : string) :
  In c (candidats scenario_prepared) ->
  forall c', In c' (candidats scenario_prepared) -> c' ++ "_pct" <> c.
Proof.
  intros Hc c' Hc' E.
  exact (proj2 scenario_plain_names c' c Hc' Hc (eq_sym E)).
Qed.

Lemma scenario_gdf_NoDup : NoDup (map fst scenario_gdf).
Proof.
  simpl. constructor; [simpl; intros [E | []]; discriminate|].
  constructor; [intros [] | constructor].
Qed.

Lemma scenario_view_Y_reachable :
  reachable three_decimals scenario_layout scenario_view_Y.
Proof.
  apply (reach_select _ _ _ (initial scenario_layout) scenario_view_Y "Y").
  - apply reach_initial.
  - simpl. right. left. reflexivity.
  - vm_compute. reflexivity.
Qed.

Lemma prepared_values_finite_witness :
  data_preparation no_reprojection scenario_gdf scenario_rows
  = inr scenario_prepared /\
  In scenario_region_A (gdf_clean scenario_prepared) /\
  forall kv, In kv (feat_props scenario_region_A) -> is_finite (snd kv).
Proof.
  assert (H : data_preparation no_reprojection scenario_gdf scenario_rows
              = inr scenario_prepared) by (vm_compute; reflexivity).
  assert (Hf : In scenario_region_A (gdf_clean scenario_prepared))
    by (vm_compute; left; reflexivity).
  split; [exact H | split; [exact Hf|]].
  exact (proj1 (prepared_values_finite no_reprojection _ _ _ _ H Hf)).
Defined.


Lemma no_row_for_the_year_witness :
  (forall r, In r rows_of_2019 -> year r <> 2024%Z) /\
  data_preparation no_reprojection scenario_gdf rows_of_2019
  = inl (ValueError "max() arg is an empty sequence").
Proof.
  assert (H : forall r, In r rows_of_2019 -> year r <> 2024%Z).
  { intros r [<- | []]. simpl. lia. }
  split; [exact H|].
  exact (proj1 (proj2 (proj2
           (no_row_for_the_year no_reprojection scenario_gdf _ H)))).
Defined.

(** C3, as stated, fails: with results of another year only, the
    preparation returns no table at all. *)
Lemma year_without_rows_raises :
  (forall r, In r rows_of_2019 -> year r <> 2024%Z) /\
  forall p, data_preparation no_reprojection scenario_gdf rows_of_2019
            <> inr p.
Proof.
  split.
  - intros r [<- | []]. simpl. lia.
  - intros p. vm_compute. discriminate.
Qed.


Lemma preparation_is_deterministic_witness :
  Permutation scenario_rows scenario_rows_shuffled /\
  data_preparation no_reprojection scenario_gdf scenario_rows
  = data_preparation no_reprojection scenario_gdf scenario_rows_shuffled.
Proof.
  assert (H : Permutation scenario_rows scenario_rows_shuffled)
    by apply perm_swap.
  split; [exact H|].
  exact (preparation_is_deterministic no_reprojection scenario_gdf _ _ H).
Defined.

Lemma percentages_of_a_row_witness :
  data_preparation no_reprojection scenario_gdf scenario_rows
  = inr scenario_prepared /\
  In scenario_region_A (gdf_clean scenario_prepared) /\
  exists t,
    dict_get "total_votes" (feat_props scenario_region_A) = Some (Fin t) /\
    (~ t == 0 ->
     Qabs (exact_sum (map (fun c => get (c ++ "_pct")
                                      (feat_props scenario_region_A))
                          (candidats scenario_prepared)) - 100)
     <= inject_Z (Z.of_nat (List.length (candidats scenario_prepared)))
        * pct_tolerance).
Proof.
  split; [exact scenario_prepares | split; [exact scenario_region_A_in|]].
  destruct (percentages_of_a_row no_reprojection _ _ _ _
              scenario_prepares scenario_region_A_in) as (t & Ht & _ & Hs).
  exists t. split; [exact Ht|]. intros Hnz.
  exact (Hs Hnz scenario_plain_names scenario_nonneg scenario_in_range).
Defined.

(** C1, as stated, fails: 31 candidates with one vote each in a region
    get 3.23 percent each, which add up to 100.13, whether the
    percentages are added in float64 or exactly. *)
Lemma crowded_percentages_exceed_tolerance :
  data_preparation no_reprojection [("A", 1%nat)] crowded_rows
  = inr crowded_prepared /\
  exists f s,
    In f (gdf_clean crowded_prepared) /\
    dict_get "total_votes" (feat_props f) = Some (Fin 31) /\
    sum_skipna (map (fun c => get (c ++ "_pct") (feat_props f))
                    (candidats crowded_prepared)) = Fin s /\
    1 # 10 < Qabs (s - 100) /\
    1 # 10 < Qabs (exact_sum (map (fun c => get (c ++ "_pct") (feat_props f))
                                  (candidats crowded_prepared)) - 100).
Proof.
  split; [vm_compute; reflexivity|].
  eexists. eexists. split; [left; reflexivity|].
  split; [vm_compute; reflexivity|].
  split; [vm_compute; reflexivity|].
  split; vm_compute; reflexivity.
Qed.

(** A count below 0 can push the percentages out of the float64 values
    that are exact to the hundredth: with the counts [10^15] and
    [1 - 10^15] the total is 1, the counts are in range, and the two
    percentages add up to 96. *)
Lemma offsetting_counts_break_percentages :
  counts_in_range rows_with_offsets /\
  exists p f,
    data_preparation no_reprojection [("A", 1%nat)] rows_with_offsets = inr p /\
    In f (gdf_clean p) /\
    dict_get "total_votes" (feat_props f) = Some (Fin 1) /\
    exact_sum (map (fun c => get (c ++ "_pct") (feat_props f)) (candidats p))
    == 96.
Proof.
  split; [vm_compute; reflexivity|].
  eexists. eexists. split; [vm_compute; reflexivity|].
  split; [left; reflexivity|].
  split; vm_compute; reflexivity.
Qed.

Lemma column_sum_is_national_total_witness :
  data_preparation no_reprojection scenario_gdf scenario_rows
  = inr scenario_prepared /\
  num_eq (sum_skipna (geo_column "Y" (gdf_clean scenario_prepared)))
         (get "Y" (totaux_nationaux scenario_prepared)).
Proof.
  assert (Hcover : forall r, In r (rows_2024 scenario_rows) ->
                             In (moughataa r) (map fst scenario_gdf)).
  { intros r Hr. vm_compute in Hr.
    destruct Hr as [<- | [<- | [<- | [<- | []]]]]; simpl; tauto. }
  assert (Hc : In "Y" (candidats scenario_prepared)) by (simpl; tauto).
  split; [exact scenario_prepares|].
  exact (column_sum_is_national_total no_reprojection _ _ _ "Y"
           scenario_prepares scenario_gdf_NoDup Hcover scenario_plain_names
           scenario_in_range Hc).
Defined.

(** C2, as stated, fails: when the geometry lacks region A, candidate X
    keeps a national total of 70 but its column of the prepared table
    adds up to 0. *)
Lemma dropped_region_breaks_column_sum :
  exists p,
    data_preparation no_reprojection [("B", 2%nat)] scenario_rows = inr p /\
    In "X" (candidats p) /\
    sum_skipna (geo_column "X" (gdf_clean p)) = Fin 0 /\
    get "X" (totaux_nationaux p) = Fin 70 /\
    ~ num_eq (sum_skipna (geo_column "X" (gdf_clean p)))
             (get "X" (totaux_nationaux p)).
Proof.
  eexists. split; [vm_compute; reflexivity|].
  split; [left; reflexivity|].
  split; [vm_compute; reflexivity|].
  split; [vm_compute; reflexivity|].
  vm_compute. discriminate.
Qed.

Lemma selection_change_recomputes_view_witness :
  reachable three_decimals scenario_layout (initial scenario_layout) /\
  In "Y" (select_options (initial scenario_layout)) /\
  exists col v',
    source_data "Y" (source (initial scenario_layout)) = Some col /\
    select_change three_decimals scenario_layout "Y" (initial scenario_layout)
    = Some v' /\
    is_max_of col (color_mapper_high v').
Proof.
  assert (Hne : scenario_gdf <> []) by discriminate.
  assert (Hc : In "Y" (select_options (initial scenario_layout)))
    by (simpl; tauto).
  assert (Hplain : plain_text (gagnant_national scenario_prepared) = true)
    by reflexivity.
  split; [apply reach_initial | split; [exact Hc|]].
  destruct (selection_change_recomputes_view no_reprojection three_decimals
              _ _ _ _ _ "Y" scenario_prepares scenario_renders scenario_nonneg
              scenario_in_range Hne Hplain
              (reach_initial _ three_decimals scenario_layout) Hc)
    as (col & v' & Hcol & Hv' & Hrest).
  exists col, v'. split; [exact Hcol | split; [exact Hv'|]].
  exact (proj1 (proj2 Hrest)).
Defined.

(** C6, as stated, fails: with the counts -4 and -1 for X, the choice of
    X leaves 0 as the upper bound of the colour scale, which is not the
    maximum of the column of X. *)
Lemma negative_counts_break_scale :
  data_preparation no_reprojection scenario_gdf rows_with_corrections
  = inr corrections_prepared /\
  render corrections_prepared = inr corrections_layout /\
  In "X" (select_options (initial corrections_layout)) /\
  exists col v',
    source_data "X" (source (initial corrections_layout)) = Some col /\
    select_change three_decimals corrections_layout "X"
      (initial corrections_layout) = Some v' /\
    max_skipna col = Fin (-1) /\
    color_mapper_high v' = Fin 0 /\
    ~ is_max_of col (color_mapper_high v').
Proof.
  split; [vm_compute; reflexivity|].
  split; [vm_compute; reflexivity|].
  split; [left; reflexivity|].
  eexists. eexists.
  split; [vm_compute; reflexivity|].
  split; [vm_compute; reflexivity|].
  split; [vm_compute; reflexivity|].
  split; [reflexivity|].
  intros [[x [Hx Ex]] _]. simpl in Hx.
  destruct Hx as [<- | [<- | []]]; vm_compute in Ex; discriminate.
Qed.

(** C9.  The name of the leader is pasted into the source of the
    template literal of the callback.  With the results
    [rows_with_placeholder] the leader is the candidate named
    [${candidate}]: the initial panel names it, and after the choice of
    Y the panel names Y as the leader. *)
Theorem leader_placeholder_follows_selection :
  data_preparation no_reprojection scenario_gdf rows_with_placeholder
  = inr placeholder_prepared /\
  render placeholder_prepared = inr placeholder_layout /\
  gagnant_national placeholder_prepared = "${candidate}" /\
  info_leader (info_div (initial placeholder_layout)) = "${candidate}" /\
  In "Y" (select_options (initial placeholder_layout)) /\
  forall toLocaleString : num -> num,
  exists v',
    select_change toLocaleString placeholder_layout "Y"
      (initial placeholder_layout) = Some v' /\
    reachable toLocaleString placeholder_layout v' /\
    info_leader (info_div v') = "Y".
Proof.
  split; [vm_compute; reflexivity|].
  split; [vm_compute; reflexivity|].
  split; [reflexivity|].
  split; [reflexivity|].
  split; [right; left; reflexivity|].
  intros fmt.
  assert (E : exists v',
             select_change fmt placeholder_layout "Y"
               (initial placeholder_layout) = Some v' /\
             info_leader (info_div v') = "Y").
  { eexists. split; [vm_compute; reflexivity | reflexivity]. }
  destruct E as (v' & Hs & Hl). exists v'. split; [exact Hs | split; [|exact Hl]].
  apply (reach_select _ _ _ (initial placeholder_layout) v' "Y");
    [apply reach_initial | right; left; reflexivity | exact Hs].
Qed.


Lemma selections_never_mutate_table_witness :
  plain_text (callback_gagnant_national scenario_layout) = true /\
  exists v',
    run_selections three_decimals scenario_layout ["Y"; "X"; "Y"]
      (initial scenario_layout) = Some v' /\
    source v' = source (initial scenario_layout).
Proof.
  assert (Hplain : plain_text (callback_gagnant_national scenario_layout)
                   = true) by reflexivity.
  split; [exact Hplain|].
  destruct (selections_never_mutate_table three_decimals scenario_layout
              ["Y"; "X"; "Y"] (initial scenario_layout) Hplain)
    as (v' & Hrun & Hs & _).
  exists v'. split; [exact Hrun | exact Hs].
Defined.

Lemma leader_shown_never_changes_witness :
  reachable three_decimals scenario_layout scenario_view_Y /\
  info_leader (info_div scenario_view_Y)
  = gagnant_national scenario_prepared.
Proof.
  assert (Hplain : plain_text (gagnant_national scenario_prepared) = true)
    by reflexivity.
  split; [exact scenario_view_Y_reachable|].
  exact (leader_shown_never_changes no_reprojection three_decimals _ _ _ _ _
           scenario_prepares scenario_renders Hplain
           scenario_view_Y_reachable).
Defined.

Lemma selection_forgets_history_witness :
  reachable three_decimals scenario_layout scenario_view_Y /\
  select_change three_decimals scenario_layout "X" (initial scenario_layout)
  = select_change three_decimals scenario_layout "X" scenario_view_Y.
Proof.
  assert (Hne : scenario_gdf <> []) by discriminate.
  assert (Hplain : plain_text (gagnant_national scenario_prepared) = true)
    by reflexivity.
  assert (Hc : In "X" (select_options (initial scenario_layout)))
    by (simpl; tauto).
  split; [exact scenario_view_Y_reachable|].
  exact (proj2 (selection_forgets_history no_reprojection three_decimals
                  _ _ _ _ _ _ "X" scenario_prepares scenario_renders Hne
                  Hplain (reach_initial _ three_decimals scenario_layout)
                  scenario_view_Y_reachable Hc)).
Defined.

Lemma callback_agrees_with_initial_scale_witness :
  render scenario_prepared = inr scenario_layout /\
  exists v',
    select_change three_decimals scenario_layout
      (select_value (initial scenario_layout)) (initial scenario_layout)
    = Some v' /\
    num_eq (color_mapper_high v') (color_mapper_high (initial scenario_layout)).
Proof.
  assert (Hne : scenario_gdf <> []) by discriminate.
  assert (Hplain : plain_text (gagnant_national scenario_prepared) = true)
    by reflexivity.
  split; [exact scenario_renders|].
  destruct (callback_agrees_with_initial_scale no_reprojection three_decimals
              _ _ _ _ scenario_prepares scenario_renders Hne scenario_nonneg
              scenario_in_range Hplain) as (v' & Hv' & Hhigh & _).
  exists v'. split; [exact Hv' | exact Hhigh].
Defined.

Lemma initial_render_shows_first_candidate_witness :
  render scenario_prepared = inr scenario_layout /\
  scenario_gdf <> [] /\
  exists c0 rest,
    candidats scenario_prepared = c0 :: rest /\
    (forall c, In c rest -> slt c0 c) /\
    source (initial scenario_layout) = gdf_clean scenario_prepared.
Proof.
  assert (H : data_preparation no_reprojection scenario_gdf scenario_rows
              = inr scenario_prepared) by (vm_compute; reflexivity).
  assert (Hr : render scenario_prepared = inr scenario_layout)
    by (vm_compute; reflexivity).
  assert (Hne : scenario_gdf <> []) by discriminate.
  split; [exact Hr | split; [exact Hne|]].
  destruct (initial_render_shows_first_candidate no_reprojection _ _ _ _
              H Hr Hne) as (c0 & rest & E & Hlt & Hs & _).
  exists c0, rest. auto.
Defined.

Lemma prepared_count_is_sum_of_votes_witness :
  dropna_rows scenario_csv = scenario_rows /\
  In scenario_region_A (gdf_clean scenario_prepared) /\
  In "X" (candidats scenario_prepared) /\
  exists x,
    dict_get "X" (feat_props scenario_region_A) = Some (Fin x) /\
    x == 70.
Proof.
  assert (Hc : In "X" (candidats scenario_prepared)) by (simpl; tauto).
  split; [reflexivity|].
  split; [exact scenario_region_A_in | split; [exact Hc|]].
  exact (prepared_count_is_sum_of_votes no_reprojection scenario_gdf
           scenario_csv scenario_prepared scenario_region_A "X"
           scenario_prepares scenario_in_range scenario_region_A_in Hc
           (scenario_no_clash "X" Hc)).
Defined.

Lemma prepared_total_is_sum_of_votes_witness :
  dropna_rows scenario_csv = scenario_rows /\
  In scenario_region_A (gdf_clean scenario_prepared) /\
  exists t,
    dict_get "total_votes" (feat_props scenario_region_A) = Some (Fin t) /\
    t == 100.
Proof.
  split; [reflexivity|].
  split; [exact scenario_region_A_in|].
  exact (prepared_total_is_sum_of_votes no_reprojection scenario_gdf
           scenario_csv scenario_prepared scenario_region_A
           scenario_prepares scenario_in_range scenario_region_A_in).
Defined.

Lemma national_total_is_sum_of_votes_witness :
  dropna_rows scenario_csv = scenario_rows /\
  In "Y" (candidats scenario_prepared) /\
  exists x,
    get "Y" (totaux_nationaux scenario_prepared) = Fin x /\
    x == 30.
Proof.
  assert (Hc : In "Y" (candidats scenario_prepared)) by (simpl; tauto).
  split; [reflexivity|].
  split; [exact Hc|].
  exact (national_total_is_sum_of_votes no_reprojection scenario_gdf
           scenario_csv scenario_prepared "Y"
           scenario_prepares scenario_in_range Hc).
Defined.

Lemma leader_has_most_votes_witness :
  counts_in_range scenario_rows /\
  exists before after,
    (candidats scenario_prepared
     = before ++ gagnant_national scenario_prepared :: after)%list /\
    (forall c, In c before ->
       (votes_where (fun r => (candidate r =? c)%string)
                    (rows_2024 scenario_rows)
        < votes_where
            (fun r => (candidate r =? gagnant_national scenario_prepared)%string)
            (rows_2024 scenario_rows))%Z) /\
    (forall c, In c after ->
       (votes_where (fun r => (candidate r =? c)%string)
                    (rows_2024 scenario_rows)
        <= votes_where
             (fun r => (candidate r =? gagnant_national scenario_prepared)%string)
             (rows_2024 scenario_rows))%Z).
Proof.
  split; [exact scenario_in_range|].
  exact (leader_has_most_votes no_reprojection scenario_gdf scenario_csv
           scenario_prepared scenario_prepares scenario_in_range).
Defined.

Lemma total_national_is_all_votes_witness :
  render scenario_prepared = inr scenario_layout /\
  exists x,
    callback_total_national scenario_layout = Fin x /\
    x == 100.
Proof.
  split; [exact scenario_renders|].
  exact (total_national_is_all_votes no_reprojection scenario_gdf scenario_csv
           scenario_prepared scenario_layout scenario_prepares
           scenario_renders scenario_in_range).
Defined.

Lemma prepared_percentage_formula_witness :
  In scenario_region_A (gdf_clean scenario_prepared) /\
  In "Y" (candidats scenario_prepared) /\
  exists x,
    dict_get "Y_pct" (feat_props scenario_region_A) = Some (Fin x) /\
    Qabs (x - inject_Z 30 / inject_Z 100 * 100) <= pct_tolerance.
Proof.
  assert (Hc : In "Y" (candidats scenario_prepared)) by (simpl; tauto).
  split; [exact scenario_region_A_in | split; [exact Hc|]].
  destruct (prepared_percentage_formula no_reprojection scenario_gdf
              scenario_csv scenario_prepared scenario_region_A "Y"
              scenario_prepares scenario_in_range scenario_nonneg
              scenario_region_A_in Hc (scenario_no_clash "Y" Hc))
    as (x & Hx & _ & Hnz).
  exists x. split; [exact Hx|]. apply Hnz. vm_compute. discriminate.
Defined.

Lemma prepared_percentage_bounds_witness :
  In scenario_region_A (gdf_clean scenario_prepared) /\
  In "Y" (candidats scenario_prepared) /\
  exists x,
    dict_get "Y_pct" (feat_props scenario_region_A) = Some (Fin x) /\
    0 <= x <= 100.
Proof.
  assert (Hc : In "Y" (candidats scenario_prepared)) by (simpl; tauto).
  split; [exact scenario_region_A_in | split; [exact Hc|]].
  exact (prepared_percentage_bounds no_reprojection scenario_gdf
           scenario_csv scenario_prepared scenario_region_A "Y"
           scenario_prepares scenario_in_range scenario_nonneg
           scenario_region_A_in Hc (scenario_no_clash "Y" Hc)).
Defined.

Lemma candidate_named_moughataa_raises_witness :
  In "moughataa" (map candidate (rows_2024 rows_with_moughataa)) /\
  styled_election_map no_reprojection scenario_gdf rows_with_moughataa
  = inl (ValueError "cannot insert moughataa, already exists").
Proof.
  assert (H : In "moughataa" (map candidate (rows_2024 rows_with_moughataa)))
    by (vm_compute; left; reflexivity).
  split; [exact H|].
  exact (proj2 (candidate_named_moughataa_raises no_reprojection
                  scenario_gdf _ H)).
Defined.

Lemma prepared_columns_witness :
  In scenario_region_A (gdf_clean scenario_prepared) /\
  map fst (feat_props scenario_region_A)
  = ["X"; "Y"; "total_votes"; "X_pct"; "Y_pct"].
Proof.
  assert (H : data_preparation no_reprojection scenario_gdf scenario_rows
              = inr scenario_prepared) by (vm_compute; reflexivity).
  assert (Hf : In scenario_region_A (gdf_clean scenario_prepared))
    by (vm_compute; left; reflexivity).
  split; [exact Hf|].
  exact (prepared_columns no_reprojection _ _ _ _ H Hf scenario_plain_names).
Defined.

Lemma reserved_candidate_name_raises_witness :
  In "total_votes" (map candidate (rows_2024 rows_with_total_votes)) /\
  exists e,
    data_preparation no_reprojection scenario_gdf rows_with_total_votes
    = inl e /\
    styled_election_map no_reprojection scenario_gdf rows_with_total_votes
    = inl e.
Proof.
  assert (H : In "total_votes"
                 (map candidate (rows_2024 rows_with_total_votes)))
    by (vm_compute; left; reflexivity).
  split; [exact H|].
  exact (reserved_candidate_name_raises no_reprojection scenario_gdf _
           (or_intror H)).
Defined.

(** ** The limits of the 64-bit numbers *)

(** X19.  The group sums are 64-bit integers: two rows of [2^62] votes
    for X in one region add up to [-2^63], which the prepared table
    holds as the count of X, and Y leads with a single vote. *)
Theorem group_sum_wraps_around :
  groupby_sum (rows_2024 rows_beyond_int64)
  = [(("A", "X"), (- 2 ^ 63)%Z); (("A", "Y"), 1%Z)] /\
  exists p f,
    data_preparation no_reprojection scenario_gdf rows_beyond_int64 = inr p /\
    In f (gdf_clean p) /\
    feat_moughataa f = "A" /\
    dict_get "X" (feat_props f) = Some (Fin (inject_Z (- 2 ^ 63))) /\
    gagnant_national p = "Y".
Proof.
  split; [vm_compute; reflexivity|].
  eexists. eexists. split; [vm_compute; reflexivity|].
  split; [left; reflexivity|].
  split; [reflexivity|].
  split; [vm_compute; reflexivity | reflexivity].
Qed.

(** A count of [2^53 + 1] is no float64: the prepared table holds
    [2^53]. *)
Lemma large_count_is_rounded :
  exists p f,
    data_preparation no_reprojection scenario_gdf rows_beyond_float64
    = inr p /\
    In f (gdf_clean p) /\
    feat_moughataa f = "A" /\
    dict_get "X" (feat_props f) = Some (Fin (inject_Z (2 ^ 53))).
Proof.
  eexists. eexists. split; [vm_compute; reflexivity|].
  split; [left; reflexivity|].
  split; [reflexivity|].
  vm_compute; reflexivity.
Qed.
